(** * hadron: the build-time graph compiler (build.js)

    A shallow embedding of the compiler core, in the version of build.js
    that synthesizes joins: endpoints, references and bindings, the template
    context with its scheduler [resolve_acts] and its assembler
    [emit_code], the emission protocol of [EmitContext] and the API that
    [InstanceContext] offers to component definitions; together with the
    properties of the design document that are stated about them.

    Modelling conventions.
    - A JavaScript object is an identity (a number handed out by the
      allocator [next_oid]) together with its fields.  Fields that are never
      assigned after construction are carried by value in the record that
      stands for the object; the three fields that are mutated after
      construction ([InstanceContext.fields], [ValueSlot.queued],
      [Binding.resolved]) live in the store, keyed by the identity of their
      object, so that every alias of an object sees the same mutation.
    - The two kinds of callbacks -- the component definitions, called with
      an instance context, and the [emit] functions of the actions, called
      with an emission context -- are the trees of the calls they make on
      their argument ([Defn], [Script]).
    - [error(msg)] prints a diagnostic and calls [process.exit(1)]: outcome
      [Exit].  Reading a property of [null] raises an uncaught [TypeError]:
      outcome [Throw].  Emission recurses through the queues of the slots;
      the recursion is bounded by a fuel argument and [OutOfFuel] is the
      outcome of a bound that was too small.
    - Calls to [console.log] through [log] only trace the run and are left
      out.  JavaScript numbers that count (the per-name counters of [uid],
      the length of [needs]) are naturals; they are exact in the source as
      long as they stay below 2^53.
    - There is one [TemplateContext] per run ([generate] builds 'main'), so
      the [tpl] field of bindings, instances and emission contexts is the
      state itself. *)

From Stdlib Require Import Ascii.
From stdpp Require Import gmap strings list pretty.


(** ** Strings of the host language *)

(** The double quote character. *)
Definition dquote : string := String "034"%char "".

(** [Array.prototype.join]. *)
Fixpoint join (sep : string) (l : list string) : string :=
  match l with
  | [] => ""
  | [x] => x
  | x :: rest => x +:+ sep +:+ join sep rest
  end.

(** [String.prototype.split] on a one-character separator: the result is
    never empty, [split] of the empty string is one empty segment. *)
Fixpoint split_go (sep : ascii) (cur : string) (s : string) : list string :=
  match s with
  | "" => [String.rev cur]
  | String c s' =>
      if decide (c = sep) then String.rev cur :: split_go sep "" s'
      else split_go sep (String c cur) s'
  end.
Definition split (sep : ascii) (s : string) : list string := split_go sep "" s.

(** ** Values, literals and references *)

(** The constant values a graph description or a default can hold.
    [undefined] and [null] are not among them: an absent default is [None]
    where the source tests [defaultValue != null]. *)
Inductive JsValue :=
| VBool (b : bool)
| VNumber (n : Z)
| VString (s : string).

(** [typeof]. *)
Definition typeof (v : JsValue) : string :=
  match v with
  | VBool _ => "boolean"
  | VNumber _ => "number"
  | VString _ => "string"
  end.

(** [JSON.stringify] escapes of a character of a string. *)
Definition hex_digit (n : N) : ascii :=
  match n with
  | 10 => "a" | 11 => "b" | 12 => "c" | 13 => "d" | 14 => "e" | 15 => "f"
  | _ => pretty_N_char n
  end%char%N.

Definition json_escape_char (c : ascii) : string :=
  let n := N_of_ascii c in
  if decide (c = "034"%char) then "\" +:+ dquote
  else if decide (c = "\"%char) then "\\"
  else if decide (n = 8%N) then "\b"
  else if decide (n = 12%N) then "\f"
  else if decide (n = 10%N) then "\n"
  else if decide (n = 13%N) then "\r"
  else if decide (n = 9%N) then "\t"
  else if decide (n < 32)%N then
    "\u00" +:+ String (hex_digit (n `div` 16)) (String (hex_digit (n `mod` 16)) "")
  else String c "".

Fixpoint json_escape (s : string) : string :=
  match s with
  | "" => ""
  | String c s' => json_escape_char c +:+ json_escape s'
  end.

(** [JSON.stringify] on the constants above (strings are sequences of
    bytes; bytes above 127 pass through unchanged). *)
Definition JSON_stringify (v : JsValue) : string :=
  match v with
  | VBool true => "true"
  | VBool false => "false"
  | VNumber n => pretty n
  | VString s => dquote +:+ json_escape s +:+ dquote
  end.

(** class Literal: is = 'literal', mode = 'const'. *)
Record Literal := mkLiteral {
  lit_type : string;
  lit_value : JsValue;
}.

(** class Reference: is = 'ref', mode = 'resolvable'; it has no field that
    could hold a resolved value. *)
Record Reference := mkReference {
  ref_name : string;
  ref_path : list string;
}.

Definition Reference_new (name : string) : Reference :=
  {| ref_name := name; ref_path := split "."%char name |}.

(** What an argument map holds: [ref(str)] or [text(str)]. *)
Inductive Source :=
| SrcRef (r : Reference)
| SrcLit (l : Literal).

Definition text (str : string) : Source := SrcLit (mkLiteral "text" (VString str)).
Definition ref (str : string) : Source := SrcRef (Reference_new str).

(** ** Instances, slots, bindings *)

(** class InstanceContext: is = 'instance'.  [fields] is in the store. *)
Record InstanceContext := mkInstance {
  iid : nat;
  args : gmap string Source;
  where_ : string;
}.

(** class ValueSlot: is = 'slot', mode = 'once'.  [queued] is in the store. *)
Record ValueSlot := mkSlot {
  sid : nat;
  slot_type : string;
  slot : string;
  slot_field : string;
  slot_inst : InstanceContext;
}.

(** class Binding: is = 'binding'.  [resolved] is in the store. *)
Record Binding := mkBinding {
  bid : nat;
  to : Source;
  binding_type : string;
  binding_field : string;
  binding_inst : InstanceContext;
}.

(** What [resolve_path] and the [resolve] of a source can return (other than
    [null]). *)
Inductive Endpoint :=
| EInst (i : InstanceContext)
| ESlot (s : ValueSlot)
| ELit (l : Literal).

(** The [type] property of an endpoint; an InstanceContext has none
    ([undefined]). *)
Definition endpoint_type (e : Endpoint) : option string :=
  match e with
  | EInst _ => None
  | ESlot s => Some (slot_type s)
  | ELit l => Some (lit_type l)
  end.

(** The endpoints a Binding can hold once resolved: the declared type of a
    Binding is a string, so an endpoint without a [type] never passes its
    check. *)
Inductive Terminal :=
| TSlot (s : ValueSlot)
| TLit (l : Literal).

Definition terminal_type (t : Terminal) : string :=
  match t with
  | TSlot s => slot_type s
  | TLit l => lit_type l
  end.

Definition as_terminal (e : Endpoint) : option Terminal :=
  match e with
  | EInst _ => None
  | ESlot s => Some (TSlot s)
  | ELit l => Some (TLit l)
  end.

(** The objects with a parameterless [resolve()], as they appear in the
    wait list of an action and as the argument of [es.string]. *)
Inductive Resolvable :=
| RBinding (b : Binding)
| RSlot (s : ValueSlot)
| RLit (l : Literal).

(** Any object a component definition can hand to [es.emit_triggered]. *)
Inductive Obj :=
| ObjSlot (s : ValueSlot)
| ObjLit (l : Literal)
| ObjRef (r : Reference)
| ObjBinding (b : Binding)
| ObjInst (i : InstanceContext).

(** The [is] and [mode] properties. *)
Definition obj_is (o : Obj) : string :=
  match o with
  | ObjSlot _ => "slot"
  | ObjLit _ => "literal"
  | ObjRef _ => "ref"
  | ObjBinding _ => "binding"
  | ObjInst _ => "instance"
  end.

Definition obj_mode (o : Obj) : option string :=
  match o with
  | ObjSlot _ => Some "once"
  | ObjLit _ => Some "const"
  | ObjRef _ => Some "resolvable"
  | ObjBinding _ => None
  | ObjInst _ => None
  end.

(** ** Emission callbacks and actions *)

(** The [emit] callback of a component definition is a function of the
    emission context [es]; what it does with [es] is a finite tree of calls
    to the three operations of [es], each continuing with the rest of the
    callback. *)
Inductive Script :=
| Return
| EsString (binding : Resolvable) (k : string → Script)
| EsEmit (code : string) (k : Script)
| EsEmitTriggered (ref : Obj) (indent : string) (k : Script).

(** The three kinds of closures stored in [Action.emit]: a callback of a
    component definition, and the two closures [resolve_acts] builds for a
    join (with the variables they capture). *)
Inductive Emitter :=
| UserEmit (body : Script)
| ActorEmit (actorVar : string) (captureMap : gmap string string)
    (act_inst : InstanceContext) (act_emit : Emitter)
| DecrEmit (capture : string) (need : ValueSlot) (counterVar actorVar : string).

(** class Action: is = 'action'.  The [needs] property that [resolve_acts]
    stores on an action is never read back and is not kept. *)
Record Action := mkAction {
  wait : list Resolvable;
  emit : Emitter;
  act_inst : InstanceContext;
}.

(** ** The template context and the store *)

Record State := mkState {
  (* class TemplateContext *)
  name : string;
  imports : list (string * string);      (* a Map, in insertion order *)
  uidMap : gmap string N;
  bound : gmap string InstanceContext;
  lines : list string;
  bindings : list Binding;
  acts : list Action;
  roots : list Action;
  (* mutable fields of the objects, by object identity *)
  fields : gmap nat (gmap string ValueSlot);
  queued : gmap nat (list Action);
  resolved : gmap nat Terminal;
  next_oid : nat;
}.

(** [new TemplateContext(name)]. *)
Definition TemplateContext_new (nm : string) : State :=
  {| name := nm; imports := []; uidMap := ∅; bound := ∅; lines := [];
     bindings := []; acts := []; roots := [];
     fields := ∅; queued := ∅; resolved := ∅; next_oid := 0 |}.

Definition set_imports (v : list (string * string)) (st : State) : State :=
  mkState (name st) v (uidMap st) (bound st) (lines st) (bindings st) (acts st)
    (roots st) (fields st) (queued st) (resolved st) (next_oid st).
Definition set_uidMap (v : gmap string N) (st : State) : State :=
  mkState (name st) (imports st) v (bound st) (lines st) (bindings st) (acts st)
    (roots st) (fields st) (queued st) (resolved st) (next_oid st).
Definition set_bound (v : gmap string InstanceContext) (st : State) : State :=
  mkState (name st) (imports st) (uidMap st) v (lines st) (bindings st) (acts st)
    (roots st) (fields st) (queued st) (resolved st) (next_oid st).
Definition set_lines (v : list string) (st : State) : State :=
  mkState (name st) (imports st) (uidMap st) (bound st) v (bindings st) (acts st)
    (roots st) (fields st) (queued st) (resolved st) (next_oid st).
Definition set_bindings (v : list Binding) (st : State) : State :=
  mkState (name st) (imports st) (uidMap st) (bound st) (lines st) v (acts st)
    (roots st) (fields st) (queued st) (resolved st) (next_oid st).
Definition set_acts (v : list Action) (st : State) : State :=
  mkState (name st) (imports st) (uidMap st) (bound st) (lines st) (bindings st) v
    (roots st) (fields st) (queued st) (resolved st) (next_oid st).
Definition set_roots (v : list Action) (st : State) : State :=
  mkState (name st) (imports st) (uidMap st) (bound st) (lines st) (bindings st)
    (acts st) v (fields st) (queued st) (resolved st) (next_oid st).
Definition set_fields (v : gmap nat (gmap string ValueSlot)) (st : State) : State :=
  mkState (name st) (imports st) (uidMap st) (bound st) (lines st) (bindings st)
    (acts st) (roots st) v (queued st) (resolved st) (next_oid st).
Definition set_queued (v : gmap nat (list Action)) (st : State) : State :=
  mkState (name st) (imports st) (uidMap st) (bound st) (lines st) (bindings st)
    (acts st) (roots st) (fields st) v (resolved st) (next_oid st).
Definition set_resolved (v : gmap nat Terminal) (st : State) : State :=
  mkState (name st) (imports st) (uidMap st) (bound st) (lines st) (bindings st)
    (acts st) (roots st) (fields st) (queued st) v (next_oid st).
Definition set_next_oid (v : nat) (st : State) : State :=
  mkState (name st) (imports st) (uidMap st) (bound st) (lines st) (bindings st)
    (acts st) (roots st) (fields st) (queued st) (resolved st) v.

(** The mutable fields of an object, read through its identity.  A freshly
    constructed object has an empty field map and an empty queue. *)
Definition fields_of (st : State) (i : InstanceContext) : gmap string ValueSlot :=
  default ∅ (fields st !! iid i).
Definition queued_of (st : State) (s : ValueSlot) : list Action :=
  default [] (queued st !! sid s).
Definition resolved_of (st : State) (b : Binding) : option Terminal :=
  resolved st !! bid b.

(** ** Outcomes *)

(** The diagnostics of the calls to [error]. *)
Inductive Diag :=
| InappropriateEndpoint                       (* es.string *)
| RequiresLocalSlot                           (* es.emit_triggered, not a slot *)
| BadMode                                     (* es.emit_triggered, mode const *)
| MissingField (field path : string)          (* new Binding *)
| TypeMismatch (field expected found path : string)   (* Binding.resolve *)
| NoFields (ref_path : list string)           (* resolve_path, not an instance *)
| NoSuchField (field path : string)           (* resolve_path *)
| DuplicateId (id path : string)              (* bind_inst *)
| UnknownImport (lib path : string)           (* cs.imports *)
| MissingDefn (kind : string).                (* generate *)

Inductive Exn := TypeError.

Inductive Outcome (A : Type) :=
| Ok (a : A)
| Exit (d : Diag)
| Throw (e : Exn)
| OutOfFuel.
Arguments Ok {A} a.
Arguments Exit {A} d.
Arguments Throw {A} e.
Arguments OutOfFuel {A}.

Definition M (A : Type) : Type := State → Outcome (A * State).

Definition ret {A} (a : A) : M A := λ st, Ok (a, st).
Definition bind {A B} (m : M A) (f : A → M B) : M B := λ st,
  match m st with
  | Ok (a, st') => f a st'
  | Exit d => Exit d
  | Throw e => Throw e
  | OutOfFuel => OutOfFuel
  end.
Definition error {A} (d : Diag) : M A := λ _, Exit d.
Definition out_of_fuel {A} : M A := λ _, OutOfFuel.
Definition get : M State := λ st, Ok (st, st).
Definition modify (f : State → State) : M unit := λ st, Ok (tt, f st).

Notation "'let*' x ':=' m 'in' k" := (bind m (λ x, k))
  (at level 10, x pattern, m at level 100, k at level 200).
Notation "m1 ';;;' m2" := (bind m1 (λ _, m2))
  (at level 100, m2 at level 200, right associativity).

(** [for (let x of l) body(x)]. *)
Fixpoint for_of {A} (l : list A) (body : A → M unit) : M unit :=
  match l with
  | [] => ret tt
  | x :: rest => body x ;;; for_of rest body
  end.

(** [l.map(f)] for an [f] with effects. *)
Fixpoint map_of {A B} (l : list A) (f : A → M B) : M (list B) :=
  match l with
  | [] => ret []
  | x :: rest => let* y := f x in let* ys := map_of rest f in ret (y :: ys)
  end.

(** ** TemplateContext: symbols *)

(** [uid(name)]: [(this.uidMap.get(name) || 0) + 1]. *)
Definition symbol (nm : string) (n : N) : string := nm +:+ "_" +:+ pretty n.

(** The counter of a base name: [this.uidMap.get(name) || 0]. *)
Definition counter_of (st : State) (nm : string) : N := default 0%N (uidMap st !! nm).

Definition uid (nm : string) : M string := λ st,
  let n := (counter_of st nm + 1)%N in
  Ok (symbol nm n, set_uidMap (<[nm := n]> (uidMap st)) st).

(** ** InstanceContext and Binding: construction *)

(** [path()] of an InstanceContext. *)
Definition InstanceContext_path (st : State) (i : InstanceContext) : string :=
  where_ i +:+ " in " +:+ name st.

(** [new InstanceContext(tpl, args, where)]: a fresh object with an empty
    field map. *)
Definition InstanceContext_new (a : gmap string Source) (w : string)
    : M InstanceContext := λ st,
  let i := next_oid st in
  Ok (mkInstance i a w,
      set_next_oid (S i) (set_fields (<[i := ∅]> (fields st)) st)).

(** [new ValueSlot(name, type, slot, inst)]: a fresh object with an empty
    queue. *)
Definition ValueSlot_new (nm type sym : string) (inst : InstanceContext)
    : M ValueSlot := λ st,
  let i := next_oid st in
  Ok (mkSlot i type sym nm inst,
      set_next_oid (S i) (set_queued (<[i := []]> (queued st)) st)).

(** [new Binding(name, type, inst, tpl, defaultValue)]: the argument of the
    use-site if it has one, else a literal made of the default, else the
    missing-field diagnostic; [resolved] starts as [null]. *)
Definition Binding_new (nm type : string) (inst : InstanceContext)
    (defaultValue : option JsValue) : M Binding := λ st,
  let construct (src : Source) :=
    let i := next_oid st in
    Ok (mkBinding i src type nm inst,
        set_next_oid (S i) (set_resolved (delete i (resolved st)) st)) in
  match args inst !! nm with
  | Some src => construct src
  | None =>
      match defaultValue with
      | Some d =>
          match d with
          | VString _ => construct (SrcLit (mkLiteral "text" d))
          | _ => construct (SrcLit (mkLiteral (typeof d) d))
          end
      | None => Exit (MissingField nm (InstanceContext_path st inst))
      end
  end.

(** [bind_to(name, type, inst, defaultValue)]. *)
Definition bind_to (nm type : string) (inst : InstanceContext)
    (defaultValue : option JsValue) : M Binding :=
  let* dep := Binding_new nm type inst defaultValue in
  modify (λ st, set_bindings (bindings st ++ [dep]) st) ;;;
  ret dep.

(** [bind_inst(id, inst)]. *)
Definition bind_inst (id : string) (inst : InstanceContext) : M unit := λ st,
  match bound st !! id with
  | Some _ => Exit (DuplicateId id (InstanceContext_path st inst))
  | None => Ok (tt, set_bound (<[id := inst]> (bound st)) st)
  end.

(** ** Resolution *)

(** The loop of [resolve_path] from index 1 on: [cur] is the variable
    [inst].  A field map only ever holds ValueSlots (they are put there by
    [output]), whose [resolve()] returns the slot itself, so the test of
    [got.resolve] always passes. *)
Fixpoint resolve_fields (st : State) (whole : list string) (cur : Endpoint)
    (rest : list string) : Outcome Endpoint :=
  match rest with
  | [] => Ok cur
  | field :: rest' =>
      match cur with
      | EInst inst =>
          match fields_of st inst !! field with
          | None => Exit (NoSuchField field (InstanceContext_path st inst))
          | Some got => resolve_fields st whole (ESlot got) rest'
          end
      | _ => Exit (NoFields whole)
      end
  end.

(** [resolve_path(path)]; [None] is [null]. *)
Definition resolve_path (path : list string) : M (option Endpoint) := λ st,
  match path with
  | [] => Ok (None, st)
  | id :: rest =>
      match bound st !! id with
      | None => Ok (None, st)
      | Some inst =>
          match resolve_fields st path (EInst inst) rest with
          | Ok e => Ok (Some e, st)
          | Exit d => Exit d
          | Throw e => Throw e
          | OutOfFuel => OutOfFuel
          end
      end
  end.

(** [Reference.resolve(tpl)]. *)
Definition Reference_resolve (r : Reference) : M (option Endpoint) :=
  resolve_path (ref_path r).

(** [Literal.resolve()] and [ValueSlot.resolve()] return [this]. *)
Definition Source_resolve (src : Source) : M (option Endpoint) :=
  match src with
  | SrcRef r => Reference_resolve r
  | SrcLit l => ret (Some (ELit l))
  end.

(** The text of [ref.type] in the type-mismatch diagnostic. *)
Definition found_type (e : Endpoint) : string :=
  default "undefined" (endpoint_type e).

(** [Binding.resolve()]. *)
Definition Binding_resolve (b : Binding) : M Terminal := λ st,
  match resolved_of st b with
  | Some r => Ok (r, st)
  | None =>
      match Source_resolve (to b) st with
      | Ok (None, _) => Throw TypeError
      | Ok (Some e, st1) =>
          match as_terminal e with
          | Some r =>
              if decide (terminal_type r = binding_type b)
              then Ok (r, set_resolved (<[bid b := r]> (resolved st1)) st1)
              else Exit (TypeMismatch (binding_field b) (binding_type b) (found_type e)
                           (InstanceContext_path st1 (binding_inst b)))
          | None =>
              Exit (TypeMismatch (binding_field b) (binding_type b) (found_type e)
                      (InstanceContext_path st1 (binding_inst b)))
          end
      | Exit d => Exit d
      | Throw e => Throw e
      | OutOfFuel => OutOfFuel
      end
  end.

(** [dep.resolve()] for the objects of a wait list. *)
Definition resolve (dep : Resolvable) : M Terminal :=
  match dep with
  | RBinding b => Binding_resolve b
  | RSlot s => ret (TSlot s)
  | RLit l => ret (TLit l)
  end.

(** ** EmitContext *)

(** class EmitContext; [tpl] and [lines] are the state. *)
Record EmitContext := mkEmitContext {
  es_inst : InstanceContext;
  prefix : string;
  captureMap : option (gmap string string);
}.

(** [string(binding)].  A resolved binding is a literal or a slot, the
    final [error] of the source is not reached. *)
Definition EmitContext_string (es : EmitContext) (binding : Resolvable) : M string :=
  let* r := resolve binding in
  match r with
  | TLit l => ret (JSON_stringify (lit_value l))
  | TSlot s =>
      match captureMap es with
      | Some captures =>
          match captures !! slot s with
          | Some rename => if decide (rename = "") then ret (slot s) else ret rename
          | None => ret (slot s)
          end
      | None => ret (slot s)
      end
  end.

(** [emit(code)]. *)
Definition EmitContext_emit (es : EmitContext) (code : string) : M unit :=
  modify (λ st, set_lines (lines st ++ [prefix es +:+ code]) st).

Section Emission.
(** The call [act.emit(es)] on a queued action. *)
Variable call_emit : Action → EmitContext → M unit.

(** [emit_triggered(ref, indent)].  Only a ValueSlot has [is === 'slot'],
    and its mode is 'once'.  The queue is not changed by an emission. *)
Definition EmitContext_emit_triggered (es : EmitContext) (r : Obj)
    (indent : string) : M unit :=
  match r with
  | ObjSlot s =>
      if decide (obj_mode r = Some "const") then error BadMode
      else
        let pre := prefix es +:+ indent in
        let* st := get in
        for_of (queued_of st s) (λ act,
          call_emit act (mkEmitContext (act_inst act) pre None))
  | _ => error RequiresLocalSlot
  end.

(** Running the callback of a component definition against [es]. *)
Fixpoint run_script (k : Script) (es : EmitContext) : M unit :=
  match k with
  | Return => ret tt
  | EsString binding k' =>
      let* s := EmitContext_string es binding in run_script (k' s) es
  | EsEmit code k' => EmitContext_emit es code ;;; run_script k' es
  | EsEmitTriggered r indent k' =>
      EmitContext_emit_triggered es r indent ;;; run_script k' es
  end.

(** The three closures. *)
Fixpoint run_emitter (e : Emitter) (es : EmitContext) : M unit :=
  match e with
  | UserEmit body => run_script body es
  | ActorEmit actorVar captures inst e' =>
      EmitContext_emit es ("function " +:+ actorVar +:+ "() {") ;;;
      run_emitter e' (mkEmitContext inst "  " (Some captures)) ;;;
      EmitContext_emit es "}"
  | DecrEmit capture need counterVar actorVar =>
      EmitContext_emit es (capture +:+ " = " +:+ slot need +:+ ";") ;;;
      EmitContext_emit es ("if (!--" +:+ counterVar +:+ ") " +:+ actorVar +:+ "();")
  end.
End Emission.

(** [act.emit(es)]; the fuel bounds the nesting of the calls made through
    [emit_triggered]. *)
Fixpoint Action_emit (fuel : nat) (act : Action) (es : EmitContext) : M unit :=
  match fuel with
  | 0 => out_of_fuel
  | S n => run_emitter (Action_emit n) (emit act) es
  end.

(** [es.emit_triggered] as called from an action that runs with [fuel]. *)
Definition emit_triggered (fuel : nat) : EmitContext → Obj → string → M unit :=
  EmitContext_emit_triggered (Action_emit fuel).

(** ** Scheduling *)

Definition roots_push (act : Action) : M unit :=
  modify (λ st, set_roots (roots st ++ [act]) st).
Definition lines_push (line : string) : M unit :=
  modify (λ st, set_lines (lines st ++ [line]) st).
(** [need.queued.push(act)]. *)
Definition queued_push (need : ValueSlot) (act : Action) : M unit :=
  modify (λ st, set_queued (<[sid need := queued_of st need ++ [act]]> (queued st)) st).

(** The inner loop of [resolve_acts]: resolve the wait list and keep the
    endpoints whose mode is not 'const'. *)
Fixpoint collect_needs (deps : list Resolvable) : M (list ValueSlot) :=
  match deps with
  | [] => ret []
  | dep :: rest =>
      let* r := resolve dep in
      let* needs := collect_needs rest in
      ret (match r with TSlot s => s :: needs | TLit _ => needs end)
  end.

(** [captureMap] after the loop over the needs has run. *)
Definition capture_map (needs : list ValueSlot) (captures : list string)
    : gmap string string :=
  fold_left (λ m nc, <[slot nc.1 := nc.2]> m) (zip needs captures) ∅.

(** The join branch of [resolve_acts].  The Map object [captureMap] that the
    actor closure captures is filled by the loop that queues the helpers;
    the closure is called by [emit_code] only, after [resolve_acts] has
    returned, so the map it reads is the filled one. *)
Definition synthesize_join (act : Action) (needs : list ValueSlot) : M unit :=
  let* counterVar := uid "counter" in
  let* actorVar := uid "actor" in
  let* captures := map_of needs (λ r, uid (slot r)) in
  lines_push ("var " +:+ counterVar +:+ " = " +:+ pretty (length needs) +:+ ", "
              +:+ join ", " captures +:+ ";") ;;;
  roots_push (mkAction []
    (ActorEmit actorVar (capture_map needs captures) (act_inst act) (emit act))
    (act_inst act)) ;;;
  for_of (zip needs captures) (λ nc,
    queued_push nc.1 (mkAction [RSlot nc.1]
      (DecrEmit nc.2 nc.1 counterVar actorVar) (act_inst act))).

(** The body of the loop of [resolve_acts]. *)
Definition resolve_act (act : Action) : M unit :=
  let* needs := collect_needs (wait act) in
  match needs with
  | [] => roots_push act
  | [need] => queued_push need act
  | _ => synthesize_join act needs
  end.

(** [resolve_acts()]. *)
Definition resolve_acts : M unit :=
  let* st := get in for_of (acts st) resolve_act.

(** ** Assembly *)

(** The table [libs]. *)
Definition libs (lib : string) : option string :=
  if decide (lib = "fs") then Some "fs" else None.

(** The line of one entry (lib, sym) of the import table. *)
Definition import_line (imp : string * string) : string :=
  "var " +:+ imp.2 +:+ " = require(" +:+ dquote +:+ default "undefined" (libs imp.1)
  +:+ dquote +:+ ");".

Definition root_context (act : Action) : EmitContext :=
  mkEmitContext (act_inst act) "" None.

(** [emit_code()]. *)
Definition emit_code (fuel : nat) : M unit :=
  let* st := get in
  for_of (imports st) (λ imp, lines_push (import_line imp)) ;;;
  lines_push "" ;;;
  for_of (roots st) (λ act, Action_emit fuel act (root_context act)).

(** The text [write(name)] puts in the file. *)
Definition newline : string := String "010"%char "".
Definition written (st : State) : string := join newline (lines st) +:+ newline.

(** ** The API of component definitions *)

(** [Map.get] and [Map.set] on the insertion-ordered import table. *)
Fixpoint Map_get (m : list (string * string)) (k : string) : option string :=
  match m with
  | [] => None
  | (k', v) :: rest => if decide (k' = k) then Some v else Map_get rest k
  end.
Fixpoint Map_set (m : list (string * string)) (k v : string) : list (string * string) :=
  match m with
  | [] => [(k, v)]
  | (k', v') :: rest =>
      if decide (k' = k) then (k, v) :: rest else (k', v') :: Map_set rest k v
  end.

(** [cs.imports(name)]. *)
Definition cs_imports (cs : InstanceContext) (lib : string) : M string :=
  let* st := get in
  let declare :=
    match libs lib with
    | None => error (UnknownImport lib (InstanceContext_path st cs))
    | Some _ =>
        let* sym := uid lib in
        modify (λ st, set_imports (Map_set (imports st) lib sym) st) ;;;
        ret sym
    end in
  match Map_get (imports st) lib with
  | Some sym => if decide (sym = "") then declare else ret sym
  | None => declare
  end.

(** [cs.uid(name)]. *)
Definition cs_uid (cs : InstanceContext) (nm : string) : M string := uid nm.

(** [cs.slot(name, type)]. *)
Definition cs_slot (cs : InstanceContext) (nm type : string) : M ValueSlot :=
  let* sym := uid nm in ValueSlot_new nm type sym cs.

(** [cs.output(name, type)]. *)
Definition cs_output (cs : InstanceContext) (nm type : string) : M ValueSlot :=
  let* sym := uid nm in
  let* dep := ValueSlot_new nm type sym cs in
  modify (λ st, set_fields (<[iid cs := <[nm := dep]> (fields_of st cs)]> (fields st)) st) ;;;
  ret dep.

(** [cs.input(name, type, defaultValue)]. *)
Definition cs_input (cs : InstanceContext) (nm type : string)
    (defaultValue : option JsValue) : M Binding :=
  bind_to nm type cs defaultValue.

(** [cs.action(deps, emit)] (and [cs.once], which has the same body). *)
Definition cs_action (cs : InstanceContext) (deps : list Resolvable)
    (emit : Script) : M unit :=
  modify (λ st, set_acts (acts st ++ [mkAction deps (UserEmit emit) cs]) st).

(** ** Component definitions *)

(** A component definition is a function of the instance context [cs]; what
    it does with [cs] is a finite tree of calls to the operations above,
    each continuing with the rest of the definition.  [cs.once] is
    [cs.action]. *)
Inductive Defn :=
| Done
| CsImports (lib : string) (k : string → Defn)
| CsUid (nm : string) (k : string → Defn)
| CsSlot (nm type : string) (k : ValueSlot → Defn)
| CsOutput (nm type : string) (k : ValueSlot → Defn)
| CsInput (nm type : string) (defaultValue : option JsValue) (k : Binding → Defn)
| CsAction (deps : list Resolvable) (emit : Script) (k : Defn).

(** The call [defn(cs)]. *)
Fixpoint run_defn (defn : Defn) (cs : InstanceContext) : M unit :=
  match defn with
  | Done => ret tt
  | CsImports lib k => let* sym := cs_imports cs lib in run_defn (k sym) cs
  | CsUid nm k => let* sym := cs_uid cs nm in run_defn (k sym) cs
  | CsSlot nm type k => let* dep := cs_slot cs nm type in run_defn (k dep) cs
  | CsOutput nm type k => let* dep := cs_output cs nm type in run_defn (k dep) cs
  | CsInput nm type defaultValue k =>
      let* dep := cs_input cs nm type defaultValue in run_defn (k dep) cs
  | CsAction deps emit k => cs_action cs deps emit ;;; run_defn k cs
  end.

(** ** generate *)

Record Use := mkUse {
  use_is : string;
  use_id : string;
  use_args : gmap string Source;
}.

(** The body of the loop of [generate] over the use-sites; [components] is
    the registry. *)
Definition expand (components : string → option Defn) (item : Use) : M unit :=
  match components (use_is item) with
  | None => error (MissingDefn (use_is item))
  | Some defn =>
      let* cs := InstanceContext_new (use_args item)
                   (use_is item +:+ ":" +:+ use_id item) in
      bind_inst (use_id item) cs ;;;
      run_defn defn cs
  end.

(** [generate(ast)], up to the call of [tpl.write]. *)
Definition generate (fuel : nat) (components : string → option Defn)
    (ast : list Use) : Outcome (unit * State) :=
  (for_of ast (expand components) ;;;
   resolve_acts ;;;
   emit_code fuel) (TemplateContext_new "main").

(** ** The component definitions of the registry that process text *)

Module Components.

Definition ReadText : Defn :=
  CsImports "fs" (λ fs,
  CsInput "filename" "text" None (λ filename,
  CsOutput "out" "text" (λ data,
  CsAction [RBinding filename]
    (EsString (RBinding filename) (λ nm,
     EsEmit (fs +:+ ".readFile(" +:+ nm +:+ ", 'utf8', function (err, "
             +:+ slot data +:+ ") {")
    (EsEmit "  if (err) throw err;"
    (EsEmitTriggered (ObjSlot data) "  "
    (EsEmit "});" Return)))))
  Done))).

Definition WriteText : Defn :=
  CsImports "fs" (λ fs,
  CsInput "filename" "text" None (λ filename,
  CsInput "in" "text" None (λ data,
  CsAction [RBinding filename; RBinding data]
    (EsString (RBinding filename) (λ nm,
     EsString (RBinding data) (λ src,
     EsEmit (fs +:+ ".writeFile(" +:+ nm +:+ ", " +:+ src
             +:+ ", 'utf8', function (err) {")
    (EsEmit "  if (err) throw err;"
    (EsEmit "});" Return)))))
  Done))).

Definition ConcatText : Defn :=
  CsInput "left" "text" None (λ lhs,
  CsInput "right" "text" None (λ rhs,
  CsOutput "out" "text" (λ out,
  CsAction [RBinding lhs; RBinding rhs]
    (EsString (RBinding lhs) (λ _,
     EsString (RBinding rhs) (λ _,
     EsString (RBinding lhs) (λ l,
     EsString (RBinding rhs) (λ r,
     EsEmit ("const " +:+ slot out +:+ " = " +:+ l +:+ " + " +:+ r +:+ ";")
    (EsEmitTriggered (ObjSlot out) "" Return))))))
  Done))).

Definition LogText : Defn :=
  CsInput "in" "text" None (λ data,
  CsAction [RBinding data]
    (EsString (RBinding data) (λ src,
     EsEmit ("console.log(" +:+ src +:+ ");") Return))
  Done).

Definition ParseJSON : Defn :=
  CsInput "in" "text" None (λ inp,
  CsOutput "out" "json" (λ out,
  CsAction [RBinding inp]
    (EsString (RBinding inp) (λ in_expr,
     EsEmit ("const " +:+ slot out +:+ " = JSON.parse(" +:+ in_expr +:+ ");")
    (EsEmitTriggered (ObjSlot out) "" Return)))
  Done)).

Definition EncodeJSON : Defn :=
  CsInput "in" "json" None (λ inp,
  CsOutput "out" "text" (λ out,
  CsAction [RBinding inp]
    (EsString (RBinding inp) (λ in_expr,
     EsEmit ("const " +:+ slot out +:+ " = JSON.stringify(" +:+ in_expr +:+ ");")
    (EsEmitTriggered (ObjSlot out) "" Return)))
  Done)).

(** The registry, restricted to the definitions above. *)
Definition components (kind : string) : option Defn :=
  if decide (kind = "ReadText") then Some ReadText
  else if decide (kind = "WriteText") then Some WriteText
  else if decide (kind = "LogText") then Some LogText
  else if decide (kind = "ParseJSON") then Some ParseJSON
  else if decide (kind = "EncodeJSON") then Some EncodeJSON
  else if decide (kind = "ConcatText") then Some ConcatText
  else None.

(** [use(is, id, args)]. *)
Definition use (kind id : string) (a : list (string * Source)) : Use :=
  mkUse kind id (list_to_map a).

(** The graph at the end of build.js. *)
Definition ast : list Use :=
  [ use "WriteText" "wr" [("filename", text "copy.json"); ("in", ref "cc2.out")];
    use "EncodeJSON" "je" [("in", ref "jp.out")];
    use "ParseJSON" "jp" [("in", ref "rd.out")];
    use "ReadText" "rd" [("filename", text "../curseof/package.json")];
    use "ReadText" "rd2" [("filename", text "../curseof/package.json")];
    use "ConcatText" "cc1" [("left", ref "je.out"); ("right", text " and DONE.")];
    use "ConcatText" "cc2" [("left", ref "cc1.out"); ("right", ref "rd2.out")];
    use "LogText" "log1" [("in", ref "cc2.out")] ].

End Components.

(** ** Endpoints: [path], [isConst] and [asBool] *)

(** [path()] of a ValueSlot and of a Literal. *)
Definition ValueSlot_path (st : State) (s : ValueSlot) : string :=
  "value-slot " +:+ slot_field s +:+ " in " +:+ InstanceContext_path st (slot_inst s).
Definition Literal_path (l : Literal) : string := "literal-" +:+ lit_type l.

(** [isConst()]. *)
Definition isConst (t : Terminal) : bool :=
  match t with
  | TSlot _ => false
  | TLit _ => true
  end.

(** What [asBool()] returns: the symbol of a slot or the value of a
    literal. *)
Inductive BoolExpr :=
| BoolSlot (sym : string)
| BoolValue (v : JsValue).

(** [asBool()] on the endpoint a Binding has resolved to.  On an endpoint
    whose type is not 'boolean' it calls [error] with the text
    "binding must be a boolean value: " followed by the path of the
    endpoint: the right injection holds that path. *)
Definition asBool (st : State) (t : Terminal) : BoolExpr + string :=
  match t with
  | TSlot s =>
      if decide (slot_type s = "boolean") then inl (BoolSlot (slot s))
      else inr (ValueSlot_path st s)
  | TLit l =>
      if decide (lit_type l = "boolean") then inl (BoolValue (lit_value l))
      else inr (Literal_path l)
  end.

(** ** The scheduler of the version without joins *)

(** src/build.js is the version of the compiler before joins.  Its
    [resolve_acts] has the same loop, but on an action with more than one
    need it calls [error("TODO: action has multiple dependencies: ", act)].
    The functions the loop calls have the text of the later version, with
    the same classes for references, bindings and the template context; but
    the ValueSlot and the Literal of this version have no [path] method, so
    where [resolve_path] finds that the object it has reached is not an
    instance, building the message of the diagnostic with [inst.path()]
    raises a TypeError before [error] is called. *)
Module BuildJs.

(** The diagnostic that only this version has. *)
Inductive Todo := MultipleDependencies (act : Action).

(** The loop of [resolve_path] from index 1 on. *)
Fixpoint resolve_fields (st : State) (whole : list string) (cur : Endpoint)
    (rest : list string) : Outcome Endpoint :=
  match rest with
  | [] => Ok cur
  | field :: rest' =>
      match cur with
      | EInst inst =>
          match fields_of st inst !! field with
          | None => Exit (NoSuchField field (InstanceContext_path st inst))
          | Some got => resolve_fields st whole (ESlot got) rest'
          end
      | _ => Throw TypeError
      end
  end.

(** [resolve_path(path)]. *)
Definition resolve_path (path : list string) : M (option Endpoint) := λ st,
  match path with
  | [] => Ok (None, st)
  | id :: rest =>
      match bound st !! id with
      | None => Ok (None, st)
      | Some inst =>
          match resolve_fields st path (EInst inst) rest with
          | Ok e => Ok (Some e, st)
          | Exit d => Exit d
          | Throw e => Throw e
          | OutOfFuel => OutOfFuel
          end
      end
  end.

(** [Reference.resolve(tpl)], and [resolve] of what an argument map holds. *)
Definition Reference_resolve (r : Reference) : M (option Endpoint) :=
  resolve_path (ref_path r).

Definition Source_resolve (src : Source) : M (option Endpoint) :=
  match src with
  | SrcRef r => Reference_resolve r
  | SrcLit l => ret (Some (ELit l))
  end.

(** [Binding.resolve()]. *)
Definition Binding_resolve (b : Binding) : M Terminal := λ st,
  match resolved_of st b with
  | Some r => Ok (r, st)
  | None =>
      match Source_resolve (to b) st with
      | Ok (None, _) => Throw TypeError
      | Ok (Some e, st1) =>
          match as_terminal e with
          | Some r =>
              if decide (terminal_type r = binding_type b)
              then Ok (r, set_resolved (<[bid b := r]> (resolved st1)) st1)
              else Exit (TypeMismatch (binding_field b) (binding_type b) (found_type e)
                           (InstanceContext_path st1 (binding_inst b)))
          | None =>
              Exit (TypeMismatch (binding_field b) (binding_type b) (found_type e)
                      (InstanceContext_path st1 (binding_inst b)))
          end
      | Exit d => Exit d
      | Throw e => Throw e
      | OutOfFuel => OutOfFuel
      end
  end.

(** [dep.resolve()] for the objects of a wait list. *)
Definition resolve (dep : Resolvable) : M Terminal :=
  match dep with
  | RBinding b => Binding_resolve b
  | RSlot s => ret (TSlot s)
  | RLit l => ret (TLit l)
  end.

(** The inner loop of [resolve_acts]. *)
Fixpoint collect_needs (deps : list Resolvable) : M (list ValueSlot) :=
  match deps with
  | [] => ret []
  | dep :: rest =>
      let* r := resolve dep in
      let* needs := collect_needs rest in
      ret (match r with TSlot s => s :: needs | TLit _ => needs end)
  end.

(** The body of the loop of [resolve_acts]. *)
Definition resolve_act (act : Action) (st : State)
    : Outcome (unit * State) + Todo :=
  match collect_needs (wait act) st with
  | Ok (needs, st1) =>
      match needs with
      | [] => inl (roots_push act st1)
      | [need] => inl (queued_push need act st1)
      | _ => inr (MultipleDependencies act)
      end
  | Exit d => inl (Exit d)
  | Throw e => inl (Throw e)
  | OutOfFuel => inl OutOfFuel
  end.

(** The loop over the actions. *)
Fixpoint resolve_acts_loop (l : list Action) (st : State)
    : Outcome (unit * State) + Todo :=
  match l with
  | [] => inl (Ok (tt, st))
  | act :: rest =>
      match resolve_act act st with
      | inl (Ok (_, st')) => resolve_acts_loop rest st'
      | stopped => stopped
      end
  end.

(** [resolve_acts()]. *)
Definition resolve_acts (st : State) : Outcome (unit * State) + Todo :=
  resolve_acts_loop (acts st) st.

End BuildJs.

(** * The vocabulary of the properties *)

(** The context [emit_triggered] builds for a queued action. *)
Definition triggered_context (es : EmitContext) (indent : string) (act : Action)
    : EmitContext :=
  mkEmitContext (act_inst act) (prefix es +:+ indent) None.

(** The text of a counter has no underscore. *)
Fixpoint no_underscore (s : string) : Prop :=
  match s with
  | "" => True
  | String c s' => c ≠ "_"%char ∧ no_underscore s'
  end.

(** The symbols [uid] has handed out in a state, as told by its counters. *)
Definition issued (st : State) (sym : string) : Prop :=
  ∃ nm n, sym = symbol nm n ∧ (0 < n ≤ counter_of st nm)%N.

(** An emission appends lines and memoizes bindings; it changes nothing
    else. *)
Record emits (st st' : State) (ls : list string) : Prop := mkEmits {
  emits_lines : lines st' = lines st ++ ls;
  emits_resolved : resolved st ⊆ resolved st';
  emits_frame : st' = set_lines (lines st') (set_resolved (resolved st') st);
}.

(** The actions of a list emitted one after the other, each in the context
    [ctx] gives it; [chunks] are the lines each of them appends. *)
Inductive emitted_in_order (fuel : nat) (ctx : Action → EmitContext)
  : list Action → State → list (list string) → State → Prop :=
| emitted_nil (st : State) : emitted_in_order fuel ctx [] st [] st
| emitted_cons (act : Action) (rest : list Action) (st st1 st2 : State)
    (chunk : list string) (chunks : list (list string)) :
    Action_emit fuel act (ctx act) st = Ok (tt, st1) →
    emits st st1 chunk →
    emitted_in_order fuel ctx rest st1 chunks st2 →
    emitted_in_order fuel ctx (act :: rest) st (chunk :: chunks) st2.

(** A computation that relates the state it returns to the state it was
    run in by [R]. *)
Definition preserves (R : State → State → Prop) {A : Type} (m : M A) : Prop :=
  ∀ st a st', m st = Ok (a, st') → R st st'.

(** Scheduling and assembly keep what the bindings have memoized. *)
Definition memo_kept (st st' : State) : Prop := resolved st ⊆ resolved st'.

(** Resolving a wait list only memoizes. *)
Definition only_memoizes (st st' : State) : Prop := emits st st' [].

(** Scheduling leaves the import table as it is. *)
Definition same_imports (st st' : State) : Prop := imports st' = imports st.

(** The root action of the join of [act] on [needs], the helper of a need
    and the line of declarations. *)
Definition join_actor (act : Action) (needs : list ValueSlot) (actorVar : string)
    (captures : list string) : Action :=
  mkAction []
    (ActorEmit actorVar (capture_map needs captures) (act_inst act) (emit act))
    (act_inst act).
Definition join_helper (act : Action) (counterVar actorVar : string)
    (nc : ValueSlot * string) : Action :=
  mkAction [RSlot nc.1] (DecrEmit nc.2 nc.1 counterVar actorVar) (act_inst act).
Definition join_declaration (needs : list ValueSlot) (counterVar : string)
    (captures : list string) : string :=
  "var " +:+ counterVar +:+ " = " +:+ pretty (length needs) +:+ ", "
  +:+ join ", " captures +:+ ";".

(** What scheduling an action leaves behind: its entries in the root list,
    its line of declarations and its entries in the queue of each slot. *)
Record Scheduled := mkScheduled {
  root_entries : list Action;
  declarations : list string;
  queue_entries : ValueSlot → list Action;
}.

(** By the needs of the action: a root, a queued action, or a join. *)
Inductive schedules (act : Action) : list ValueSlot → Scheduled → Prop :=
| schedules_root :
    schedules act [] (mkScheduled [act] [] (λ _, []))
| schedules_queued (need : ValueSlot) :
    schedules act [need]
      (mkScheduled [] [] (λ s, if decide (sid need = sid s) then [act] else []))
| schedules_join (n1 n2 : ValueSlot) (needs : list ValueSlot)
    (counterVar actorVar : string) (captures : list string) :
    schedules act (n1 :: n2 :: needs)
      (mkScheduled
         [join_actor act (n1 :: n2 :: needs) actorVar captures]
         [join_declaration (n1 :: n2 :: needs) counterVar captures]
         (λ s, join_helper act counterVar actorVar
                 <$> filter (λ nc, sid nc.1 = sid s)
                       (zip (n1 :: n2 :: needs) captures))).

(** The actions of a list scheduled one after the other; [effects] is what
    each of them leaves. *)
Inductive scheduled_in_order
  : list Action → State → list Scheduled → State → Prop :=
| scheduled_nil (st : State) : scheduled_in_order [] st [] st
| scheduled_cons (act : Action) (rest : list Action) (st st1 st2 st3 : State)
    (needs : list ValueSlot) (e : Scheduled) (effects : list Scheduled) :
    collect_needs (wait act) st = Ok (needs, st1) →
    resolve_act act st = Ok (tt, st2) →
    schedules act needs e →
    roots st2 = roots st ++ root_entries e →
    lines st2 = lines st ++ declarations e →
    (∀ s, queued_of st2 s = queued_of st s ++ queue_entries e s) →
    scheduled_in_order rest st2 effects st3 →
    scheduled_in_order (act :: rest) st (e :: effects) st3.

(** An invariant of a computation. *)
Definition keeps (P : State → Prop) (st st' : State) : Prop := P st → P st'.

(** An action registered by a component definition. *)
Definition user_action (act : Action) : Prop := ∃ body, emit act = UserEmit body.

(** What holds of the state [generate] has built when it calls
    [resolve_acts], whatever the registry and the graph: nothing was
    written, scheduled, queued or resolved yet, the actions are those of the
    component definitions, and the import table has one entry per
    library. *)
Record constructed (st : State) : Prop := mkConstructed {
  constructed_lines : lines st = [];
  constructed_roots : roots st = [];
  constructed_resolved : resolved st = ∅;
  constructed_queued : ∀ i q, queued st !! i = Some q → q = [];
  constructed_acts : Forall user_action (acts st);
  constructed_imports : NoDup (imports st).*1;
}.

(** An action that is not the actor function of a join; the actions in the
    queues of the slots are of this kind. *)
Definition actor_free (act : Action) : Prop :=
  match emit act with
  | ActorEmit _ _ _ _ => False
  | _ => True
  end.
Definition queues_actor_free (st : State) : Prop :=
  ∀ s, Forall actor_free (queued_of st s).

(** A line that starts with a prefix. *)
Definition has_prefix (pre line : string) : Prop := ∃ rest, line = pre +:+ rest.

(** An outcome that is not the exhaustion of the fuel. *)
Definition settled {A} (o : Outcome A) : Prop := o ≠ OutOfFuel.

(** The expansion of a component definition, scheduling and assembly leave
    the name of the template and the table of the instances as they are. *)
Definition same_instances (st st' : State) : Prop :=
  name st' = name st ∧ bound st' = bound st.

(** Scheduling only adds: it leaves what the component definitions have
    declared as it is and extends the lines, the roots, the queues, the
    memoized endpoints and the counters. *)
Record scheduling_extends (st st' : State) : Prop := mkSchedulingExtends {
  extends_name : name st' = name st;
  extends_bound : bound st' = bound st;
  extends_fields : fields st' = fields st;
  extends_imports : imports st' = imports st;
  extends_acts : acts st' = acts st;
  extends_bindings : bindings st' = bindings st;
  extends_next_oid : next_oid st' = next_oid st;
  extends_lines : lines st `prefix_of` lines st';
  extends_roots : roots st `prefix_of` roots st';
  extends_queued : ∀ s, queued_of st s `prefix_of` queued_of st' s;
  extends_resolved : resolved st ⊆ resolved st';
  extends_counters : ∀ nm, (counter_of st nm ≤ counter_of st' nm)%N;
}.

(** The names the component definitions have given to their outputs: the
    symbol of every registered output was handed out by [uid], and two
    registered outputs with the same symbol are one slot. *)
Record named (st : State) : Prop := mkNamed {
  named_issued : ∀ i fm f s,
    fields st !! i = Some fm → fm !! f = Some s → issued st (slot s);
  named_distinct : ∀ i1 fm1 f1 s1 i2 fm2 f2 s2,
    fields st !! i1 = Some fm1 → fm1 !! f1 = Some s1 →
    fields st !! i2 = Some fm2 → fm2 !! f2 = Some s2 →
    slot s1 = slot s2 → s1 = s2;
}.

(** A dependency that is a constant whatever the graph: a literal, or a
    Binding whose source is a literal of the declared type, unresolved or
    resolved to that literal. *)
Definition constant_dep (st : State) (dep : Resolvable) : Prop :=
  match dep with
  | RLit _ => True
  | RBinding b =>
      ∃ l, to b = SrcLit l ∧ lit_type l = binding_type b
           ∧ (resolved_of st b = None ∨ resolved_of st b = Some (TLit l))
  | RSlot _ => False
  end.

(** A dependency that resolves to a literal. *)
Definition resolves_to_literal (st : State) (dep : Resolvable) : Prop :=
  match dep with
  | RLit _ => True
  | RBinding b =>
      (∃ l, to b = SrcLit l ∧ lit_type l = binding_type b)
      ∧ ∀ s, resolved_of st b ≠ Some (TSlot s)
  | RSlot _ => False
  end.

(** The outcomes of a computation in src/build.js and in the later version:
    the same, or the TypeError of build.js where the later version reports
    an object without fields. *)
Definition same_or_no_fields {A} (old new : Outcome A) : Prop :=
  old = new ∨ (old = Throw TypeError ∧ ∃ path, new = Exit (NoFields path)).

(** The type a default value satisfies. *)
Definition default_type (d : JsValue) : string :=
  match d with
  | VString _ => "text"
  | _ => typeof d
  end.

(** ** Scenarios *)

(** The state a computation returns. *)
Definition state_of {A} (o : Outcome (A * State)) : State :=
  match o with
  | Ok (_, st) => st
  | _ => TemplateContext_new ""
  end.

(** The state [generate] has built when it calls [resolve_acts]. *)
Definition expanded (ast : list Use) : State :=
  state_of (for_of ast (expand Components.components) (TemplateContext_new "main")).

(** The lines of a run of [generate] on the registry above. *)
Definition lines_of_generate (ast : list Use) : option (list string) :=
  match generate 8 Components.components ast with
  | Ok (_, st) => Some (lines st)
  | _ => None
  end.

(** The [i]-th registered action and the output [id.field]. *)
Definition nth_action (st : State) (i : nat) : Action :=
  default (mkAction [] (UserEmit Return) (mkInstance 0 ∅ "")) (acts st !! i).

Definition output_of (st : State) (id field : string) : ValueSlot :=
  default (mkSlot 0 "" "" "" (mkInstance 0 ∅ ""))
    (inst ← bound st !! id; fields_of st inst !! field).

(** A text literal bound to the json input of an EncodeJSON. *)
Definition mistyped_binding : Binding :=
  mkBinding 1 (text "{}") "json" "in"
    (mkInstance 0 {[ "in" := text "{}" ]} "EncodeJSON:je").

(** A use-site without arguments. *)
Definition bare_instance : InstanceContext := mkInstance 0 ∅ "WebGLCanvas:canvas".

(** The filename of a ReadText, bound to a text literal. *)
Definition filename_binding : Binding :=
  mkBinding 1 (text "in.json") "text" "filename"
    (mkInstance 0 {[ "filename" := text "in.json" ]} "ReadText:rd").
Definition filename_literal : Terminal :=
  TLit (mkLiteral "text" (VString "in.json")).
Definition filename_resolved : State :=
  set_resolved {[ 1 := filename_literal ]} (TemplateContext_new "main").

(** Two producers and a consumer of both. *)
Definition join_ast : list Use :=
  [ Components.use "ReadText" "A" [("filename", text "a.txt")];
    Components.use "ReadText" "B" [("filename", text "b.txt")];
    Components.use "ConcatText" "C" [("left", ref "A.out"); ("right", ref "B.out")] ].

(** The join of two producers. *)
Definition join_state : State := expanded join_ast.
Definition join_action : Action := nth_action join_state 2.
Definition join_needs : list ValueSlot :=
  [output_of join_state "A" "out"; output_of join_state "B" "out"].

(** A producer and two consumers of its output. *)
Definition fanout_ast : list Use :=
  [ Components.use "ReadText" "rd" [("filename", text "in.txt")];
    Components.use "LogText" "log1" [("in", ref "rd.out")];
    Components.use "LogText" "log2" [("in", ref "rd.out")] ].

(** A root and a queued action. *)
Definition fanout_state : State := expanded fanout_ast.
Definition fanout_scheduled : State := state_of (resolve_acts fanout_state).
Definition fanout_slot : ValueSlot := output_of fanout_state "rd" "out".

(** The context in which the callback of the producer triggers its slot. *)
Definition producer_context : EmitContext :=
  mkEmitContext (act_inst (nth_action fanout_state 0)) "" None.

(** The context of the body of a join whose first need is the slot of the
    producer. *)
Definition renaming_context : EmitContext :=
  mkEmitContext (act_inst (nth_action fanout_state 0)) "  "
    (Some {[ slot fanout_slot := "out_1_1" ]}).

(** The graph at the end of build.js: scheduled and assembled. *)
Definition main_expanded : State := expanded Components.ast.
Definition main_scheduled : State := state_of (resolve_acts main_expanded).
Definition main_emitted : State := state_of (emit_code 8 main_scheduled).

(** A producer, a parser of its output and an encoder of the parsed value:
    the callback of ParseJSON triggers its output with an empty indent. *)
Definition parse_ast : list Use :=
  [ Components.use "ReadText" "rd" [("filename", text "in.json")];
    Components.use "ParseJSON" "jp" [("in", ref "rd.out")];
    Components.use "EncodeJSON" "je" [("in", ref "jp.out")] ].
Definition parse_state : State := expanded parse_ast.
Definition parse_scheduled : State := state_of (resolve_acts parse_state).
Definition parsed_slot : ValueSlot := output_of parse_state "jp" "out".

(** The context in which the callback of the parser runs: the producer
    triggers its slot with an indent of two spaces. *)
Definition parser_context : EmitContext :=
  triggered_context (root_context (nth_action parse_state 0)) "  "
    (nth_action parse_state 1).

(** The line of the encoder. *)
Definition encoder_line : string := "  const out_3 = JSON.stringify(out_2);".

(** An instance with one output, registered under the id 'rd'. *)
Definition rd_instance : InstanceContext := mkInstance 0 ∅ "ReadText:rd".
Definition rd_out : ValueSlot := mkSlot 1 "text" "out_1" "out" rd_instance.
Definition rd_state : State :=
  set_bound {[ "rd" := rd_instance ]}
    (set_fields {[ 0 := {[ "out" := rd_out ]} ]} (TemplateContext_new "main")).

(** A binding of a text input to the instance 'rd' itself, and one to an
    instance that does not exist. *)
Definition instance_binding : Binding :=
  mkBinding 2 (ref "rd") "text" "in" (mkInstance 3 ∅ "LogText:log").
Definition dangling_binding : Binding :=
  mkBinding 2 (ref "nope.out") "text" "in" (mkInstance 3 ∅ "LogText:log").

(** A use-site of a kind that the registry does not export, and a second
    use-site under the id 'log1'. *)
Definition unregistered_use : Use := Components.use "DOMCanvas" "canvas" [].
Definition duplicate_use : Use :=
  Components.use "LogText" "log1" [("in", ref "rd.out")].

(** A use-site of DOMCanvas without arguments, its input 'width' (declared
    as an integer with the default 100) and the state after the declaration
    of that input. *)
Definition dom_canvas : InstanceContext := mkInstance 0 ∅ "DOMCanvas:canvas".
Definition width_binding : Binding :=
  mkBinding 0 (SrcLit (mkLiteral "number" (VNumber 100))) "integer" "width" dom_canvas.
Definition width_declared : State :=
  state_of (cs_input dom_canvas "width" "integer" (Some (VNumber 100))
              (TemplateContext_new "main")).

(** The input 'alpha' of a WebGLCanvas without arguments (declared as a
    boolean with the default false). *)
Definition alpha_binding : Binding :=
  mkBinding 0 (SrcLit (mkLiteral "boolean" (VBool false))) "boolean" "alpha"
    bare_instance.
Definition alpha_literal : Terminal := TLit (mkLiteral "boolean" (VBool false)).
Definition alpha_resolved : State :=
  set_resolved {[ 0 := alpha_literal ]} (TemplateContext_new "main").

(** The state after a first import of 'fs'. *)
Definition fs_imported : State :=
  state_of (cs_imports rd_instance "fs" (TemplateContext_new "main")).

(** The Binding of the input of the first consumer of the producer. *)
Definition log_binding : Binding :=
  match wait (nth_action fanout_state 1) with
  | RBinding b :: _ => b
  | _ => filename_binding
  end.

(** A producer and a consumer of a path that goes on past the output of the
    producer. *)
Definition past_output_ast : list Use :=
  [ Components.use "ReadText" "rd" [("filename", text "in.txt")];
    Components.use "ParseJSON" "p" [("in", ref "rd.out.length")] ].
Definition past_output_state : State := expanded past_output_ast.

(** * Properties *)


(** ** Symbols *)


Lemma app_nil_s (s : string) : "" +:+ s = s.
Proof. reflexivity. Qed.

Lemma app_cons_s (c : ascii) (s t : string) :
  String c s +:+ t = String c (s +:+ t).
Proof. reflexivity. Qed.

Lemma app_assoc_s (s t u : string) : (s +:+ t) +:+ u = s +:+ t +:+ u.
Proof.
  induction s as [|c s IH]; [done|].
  by rewrite !app_cons_s, IH.
Qed.

Lemma no_underscore_app_underscore (s t : string) :
  ¬ no_underscore (s +:+ String "_"%char t).
Proof.
  induction s as [|c s IH]; rewrite ?app_nil_s, ?app_cons_s; simpl.
  - intros [? _]. done.
  - intros [_ ?]. done.
Qed.

Lemma pretty_N_char_no_underscore (x : N) : pretty_N_char x ≠ "_"%char.
Proof. unfold pretty_N_char. by repeat case_match. Qed.

Lemma pretty_N_go_no_underscore (x : N) (s : string) :
  no_underscore s → no_underscore (pretty_N_go x s).
Proof.
  revert s. induction (N.lt_wf_0 x) as [x _ IH]; intros s Hs.
  destruct (decide (x = 0)%N) as [->|Hx].
  - by rewrite pretty_N_go_0.
  - rewrite pretty_N_go_step by lia. apply IH.
    + apply N.div_lt; lia.
    + split; [apply pretty_N_char_no_underscore | done].
Qed.

Lemma pretty_N_no_underscore (n : N) : no_underscore (pretty n).
Proof.
  unfold pretty, pretty_N. case_decide.
  - simpl. done.
  - by apply pretty_N_go_no_underscore.
Qed.

(** A symbol splits at its last underscore. *)
Lemma underscore_split_inj (a b d1 d2 : string) :
  no_underscore d1 → no_underscore d2 →
  a +:+ String "_"%char d1 = b +:+ String "_"%char d2 → a = b ∧ d1 = d2.
Proof.
  intros H1 H2. revert b.
  induction a as [|c a IH]; intros [|c' b];
    rewrite ?app_nil_s, ?app_cons_s; intros Heq.
  - by simplify_eq.
  - simplify_eq. by destruct (no_underscore_app_underscore b d2).
  - simplify_eq. by destruct (no_underscore_app_underscore a d1).
  - simplify_eq. destruct (IH b) as [-> ->]; done.
Qed.

Lemma symbol_inj (nm1 nm2 : string) (n1 n2 : N) :
  symbol nm1 n1 = symbol nm2 n2 → nm1 = nm2 ∧ n1 = n2.
Proof.
  unfold symbol. intros Heq.
  apply underscore_split_inj in Heq as [-> Heq];
    try apply pretty_N_no_underscore.
  split; [done|]. by apply (inj pretty).
Qed.

Lemma symbol_nonempty (nm : string) (n : N) : symbol nm n ≠ "".
Proof. unfold symbol. by destruct nm. Qed.

Lemma counter_of_uid_eq (st : State) (nm : string) :
  counter_of (set_uidMap (<[nm := (counter_of st nm + 1)%N]> (uidMap st)) st) nm
  = (counter_of st nm + 1)%N.
Proof. unfold counter_of at 1. simpl. by rewrite lookup_insert_eq. Qed.

Lemma counter_of_uid_ne (st : State) (nm nm' : string) (n : N) :
  nm ≠ nm' → counter_of (set_uidMap (<[nm := n]> (uidMap st)) st) nm' = counter_of st nm'.
Proof. intros. unfold counter_of. simpl. by rewrite lookup_insert_ne. Qed.

Lemma uid_counter_mono (st st' : State) (nm sym : string) :
  uid nm st = Ok (sym, st') → ∀ nm', (counter_of st nm' ≤ counter_of st' nm')%N.
Proof.
  unfold uid. intros [= <- <-] nm'.
  destruct (decide (nm = nm')) as [->|Hne].
  - rewrite counter_of_uid_eq. lia.
  - by rewrite counter_of_uid_ne.
Qed.

(** A sequence of calls: the numbers of the symbols. *)
Lemma uid_sequence (names : list string) (st : State) :
  ∃ (ns : list N) (st' : State),
    map_of names uid st = Ok (zip_with symbol names ns, st')
    ∧ length ns = length names
    ∧ (∀ i nm n, names !! i = Some nm → ns !! i = Some n →
         (counter_of st nm < n ≤ counter_of st' nm)%N)
    ∧ (∀ i j nm ni nj, i < j → names !! i = Some nm → names !! j = Some nm →
         ns !! i = Some ni → ns !! j = Some nj → (ni < nj)%N)
    ∧ (∀ nm, (counter_of st nm ≤ counter_of st' nm)%N)
    ∧ st' = set_uidMap (uidMap st') st.
Proof.
  revert st. induction names as [|nm names IH]; intros st.
  - exists [], st. simpl. repeat split; try done; try lia.
    by destruct st.
  - set (st1 := set_uidMap (<[nm := (counter_of st nm + 1)%N]> (uidMap st)) st).
    destruct (IH st1) as (ns & st' & Hrun & Hlen & Hrange & Hinc & Hmono & Hst').
    exists ((counter_of st nm + 1)%N :: ns), st'.
    assert (Hst1 : ∀ nm', (counter_of st nm' ≤ counter_of st1 nm')%N).
    { by apply (uid_counter_mono st st1 nm (symbol nm (counter_of st nm + 1))). }
    split; [|split; [|split; [|split; [|split]]]].
    + simpl. unfold bind at 1. unfold uid at 1. fold st1.
      unfold bind at 1. rewrite Hrun. done.
    + simpl. by rewrite Hlen.
    + intros [|i] nm' n Hnm Hn; simplify_eq/=.
      * specialize (Hmono nm'). unfold st1 in Hmono.
        rewrite counter_of_uid_eq in Hmono. lia.
      * specialize (Hrange i nm' n Hnm Hn). specialize (Hst1 nm'). lia.
    + intros [|i] [|j] nm' ni nj Hlt Hi Hj Hni Hnj; simplify_eq/=; try lia.
      * specialize (Hrange j nm' nj Hj Hnj). unfold st1 in Hrange.
        rewrite counter_of_uid_eq in Hrange. lia.
      * apply (Hinc i j nm' ni nj); [lia|done..].
    + intros nm'. specialize (Hmono nm'). specialize (Hst1 nm'). lia.
    + rewrite Hst' at 1. by destruct st.
Qed.

(** The symbols of a sequence of calls are distinct and new. *)
Lemma uid_sequence_fresh (names : list string) (st : State) :
  ∃ (ns : list N) (st' : State),
    map_of names uid st = Ok (zip_with symbol names ns, st')
    ∧ length ns = length names
    ∧ NoDup (zip_with symbol names ns)
    ∧ (∀ sym, sym ∈ zip_with symbol names ns → ¬ issued st sym)
    ∧ st' = set_uidMap (uidMap st') st.
Proof.
  destruct (uid_sequence names st) as (ns & st' & Hrun & Hlen & Hrange & Hinc & _ & Hst').
  exists ns, st'. do 2 (split; [done|]). split; [|split; [|done]].
  - apply NoDup_alt. intros i j sym Hi Hj.
    apply lookup_zip_with_Some in Hi as (nm1 & n1 & -> & Hnm1 & Hn1).
    apply lookup_zip_with_Some in Hj as (nm2 & n2 & Heq & Hnm2 & Hn2).
    apply symbol_inj in Heq as [<- <-].
    destruct (Nat.lt_trichotomy i j) as [Hlt|[->|Hlt]]; [|done|].
    + specialize (Hinc i j nm1 n1 n1 Hlt Hnm1 Hnm2 Hn1 Hn2). lia.
    + specialize (Hinc j i nm1 n1 n1 Hlt Hnm2 Hnm1 Hn2 Hn1). lia.
  - intros sym Hin (nm' & n' & Heq & Hn').
    apply list_elem_of_lookup in Hin as [i Hi].
    apply lookup_zip_with_Some in Hi as (nm & n & -> & Hnm & Hn).
    apply symbol_inj in Heq as [<- <-].
    specialize (Hrange i nm n Hnm Hn). lia.
Qed.

(** ** The outcome monad *)

Section Monad.
Context {A B : Type}.

Lemma bind_Ok_inv (m : M A) (f : A → M B) (st st' : State) (b : B) :
  bind m f st = Ok (b, st') →
  ∃ a st1, m st = Ok (a, st1) ∧ f a st1 = Ok (b, st').
Proof.
  unfold bind. destruct (m st) as [[a st1]| | |]; try done. eauto.
Qed.

Lemma bind_Ok (m : M A) (f : A → M B) (st st1 : State) (a : A) :
  m st = Ok (a, st1) → bind m f st = f a st1.
Proof. unfold bind. by intros ->. Qed.

Lemma bind_ext (m : M A) (f g : A → M B) (st : State) :
  (∀ a st1, f a st1 = g a st1) → bind m f st = bind m g st.
Proof. intros H. unfold bind. destruct (m st) as [[a st1]| | |]; auto. Qed.
End Monad.

Lemma bind_assoc {A B C} (m : M A) (f : A → M B) (g : B → M C) (st : State) :
  bind (bind m f) g st = bind m (λ a, bind (f a) g) st.
Proof. unfold bind. by destruct (m st) as [[a st1]| | |]. Qed.

Ltac inv_bind H :=
  let a := fresh "a" in
  let st := fresh "st" in
  let H1 := fresh H in
  apply bind_Ok_inv in H as (a & st & H1 & H).

(** ** Resolution *)

Section Resolution.

(** Looking a path up reads the state and leaves it as it is. *)
Lemma resolve_path_state (path : list string) (st st' : State) (e : option Endpoint) :
  resolve_path path st = Ok (e, st') → st' = st.
Proof.
  unfold resolve_path. intros H.
  destruct path as [|id rest]; [by simplify_eq|].
  destruct (bound st !! id) as [inst|]; [|by simplify_eq].
  destruct (resolve_fields st (id :: rest) (EInst inst) rest); by simplify_eq.
Qed.

Lemma Source_resolve_state (src : Source) (st st' : State) (e : option Endpoint) :
  Source_resolve src st = Ok (e, st') → st' = st.
Proof.
  destruct src as [r|l]; simpl.
  - apply resolve_path_state.
  - unfold ret. by intros [= _ <-].
Qed.

(** The two ways [Binding.resolve] returns. *)
Lemma Binding_resolve_Ok (b : Binding) (st st' : State) (r : Terminal) :
  Binding_resolve b st = Ok (r, st') →
  (resolved_of st b = Some r ∧ st' = st)
  ∨ (resolved_of st b = None
     ∧ st' = set_resolved (<[bid b := r]> (resolved st)) st
     ∧ terminal_type r = binding_type b
     ∧ ∃ e, Source_resolve (to b) st = Ok (Some e, st) ∧ as_terminal e = Some r).
Proof.
  unfold Binding_resolve. intros H.
  destruct (resolved_of st b) as [r0|] eqn:Hmemo; [left; by simplify_eq|right].
  destruct (Source_resolve (to b) st) as [[[e|] st1]| | |] eqn:Hsrc; try done.
  apply Source_resolve_state in Hsrc as Hst; subst st1.
  destruct (as_terminal e) as [r1|] eqn:Hterm; [|done].
  case_decide; [|done]. simplify_eq. eauto 10.
Qed.

Lemma Binding_resolve_memo (b : Binding) (st : State) (r : Terminal) :
  resolved_of st b = Some r → Binding_resolve b st = Ok (r, st).
Proof. unfold Binding_resolve. by intros ->. Qed.

(** A Binding on a Reference that resolves to [null] reads [ref.type] of
    [null]. *)
Lemma Binding_resolve_null (b : Binding) (st : State) :
  resolved_of st b = None →
  Source_resolve (to b) st = Ok (None, st) →
  Binding_resolve b st = Throw TypeError.
Proof. unfold Binding_resolve. by intros -> ->. Qed.

End Resolution.

(** ** Emission: what it changes *)

Lemma emits_refl (st : State) : emits st st [].
Proof. split; [by rewrite app_nil_r|done|by destruct st]. Qed.

Lemma emits_trans (st st1 st2 : State) (l1 l2 : list string) :
  emits st st1 l1 → emits st1 st2 l2 → emits st st2 (l1 ++ l2).
Proof.
  intros [Hl1 Hr1 Hf1] [Hl2 Hr2 Hf2]. split.
  - by rewrite Hl2, Hl1, app_assoc.
  - by etrans.
  - rewrite Hf2 at 1. rewrite Hf1 at 1. by destruct st.
Qed.

Lemma emits_queued_of (st st' : State) (ls : list string) (s : ValueSlot) :
  emits st st' ls → queued_of st' s = queued_of st s.
Proof. intros [_ _ ->]. done. Qed.

Lemma emits_roots (st st' : State) (ls : list string) :
  emits st st' ls → roots st' = roots st.
Proof. intros [_ _ ->]. done. Qed.

Lemma Binding_resolve_emits (b : Binding) (st st' : State) (r : Terminal) :
  Binding_resolve b st = Ok (r, st') → emits st st' [].
Proof.
  intros [[_ ->]|(Hnone & -> & _)]%Binding_resolve_Ok; [apply emits_refl|].
  split; simpl.
  - by rewrite app_nil_r.
  - by apply insert_subseteq.
  - by destruct st.
Qed.

Lemma resolve_emits (dep : Resolvable) (st st' : State) (r : Terminal) :
  resolve dep st = Ok (r, st') → emits st st' [].
Proof.
  destruct dep as [b|s|l]; simpl.
  - apply Binding_resolve_emits.
  - intros [= _ <-]. apply emits_refl.
  - intros [= _ <-]. apply emits_refl.
Qed.

Lemma EmitContext_string_emits (es : EmitContext) (dep : Resolvable)
    (st st' : State) (txt : string) :
  EmitContext_string es dep st = Ok (txt, st') → emits st st' [].
Proof.
  unfold EmitContext_string. intros H. inv_bind H.
  apply resolve_emits in H0.
  assert (st0 = st') as <-; [|done].
  destruct a as [s|l]; [|by unfold ret in H; simplify_eq].
  destruct (captureMap es) as [cm|]; [|by unfold ret in H; simplify_eq].
  destruct (cm !! slot s); [|by unfold ret in H; simplify_eq].
  case_decide; by unfold ret in H; simplify_eq.
Qed.

Lemma EmitContext_emit_run (es : EmitContext) (code : string) (st : State) :
  EmitContext_emit es code st = Ok (tt, set_lines (lines st ++ [prefix es +:+ code]) st).
Proof. reflexivity. Qed.

Lemma EmitContext_emit_emits (es : EmitContext) (code : string) (st st' : State) :
  EmitContext_emit es code st = Ok (tt, st') → emits st st' [prefix es +:+ code].
Proof.
  rewrite EmitContext_emit_run. intros [= <-]. split; simpl; [done..|by destruct st].
Qed.

Lemma for_of_emits {A} (l : list A) (body : A → M unit) :
  (∀ x st st', body x st = Ok (tt, st') → ∃ ls, emits st st' ls) →
  ∀ st st', for_of l body st = Ok (tt, st') → ∃ ls, emits st st' ls.
Proof.
  intros Hbody. induction l as [|x l IH]; intros st st' H; simpl in H.
  - unfold ret in H. simplify_eq. eexists. apply emits_refl.
  - inv_bind H. destruct a. apply Hbody in H0 as [l1 H1].
    apply IH in H as [l2 H2]. eexists. by eapply emits_trans.
Qed.

Section EmissionFrame.
Variable call_emit : Action → EmitContext → M unit.
Hypothesis call_emit_emits : ∀ act es st st',
  call_emit act es st = Ok (tt, st') → ∃ ls, emits st st' ls.

Lemma EmitContext_emit_triggered_emits (es : EmitContext) (r : Obj)
    (indent : string) (st st' : State) :
  EmitContext_emit_triggered call_emit es r indent st = Ok (tt, st') →
  ∃ ls, emits st st' ls.
Proof.
  unfold EmitContext_emit_triggered. destruct r; try done.
  case_decide as Hmode; [done|]. intros H. inv_bind H.
  unfold get in H0. simplify_eq.
  eapply for_of_emits; [|exact H]. intros act s1 s2 Hact.
  exact (call_emit_emits _ _ _ _ Hact).
Qed.

Lemma run_script_emits (k : Script) (es : EmitContext) (st st' : State) :
  run_script call_emit k es st = Ok (tt, st') → ∃ ls, emits st st' ls.
Proof.
  revert st. induction k as [|dep k IH|code k IH|r indent k IH]; intros st H;
    simpl in H.
  - unfold ret in H. simplify_eq. eexists. apply emits_refl.
  - inv_bind H. apply EmitContext_string_emits in H0.
    apply IH in H as [ls H]. eexists. by eapply emits_trans.
  - inv_bind H. destruct a. apply EmitContext_emit_emits in H0.
    apply IH in H as [ls H]. eexists. by eapply emits_trans.
  - inv_bind H. destruct a. apply EmitContext_emit_triggered_emits in H0 as [l1 H0].
    apply IH in H as [ls H]. eexists. by eapply emits_trans.
Qed.

Lemma run_emitter_emits (e : Emitter) (es : EmitContext) (st st' : State) :
  run_emitter call_emit e es st = Ok (tt, st') → ∃ ls, emits st st' ls.
Proof.
  revert es st st'.
  induction e as [body|actorVar cm inst e IH|capture need counterVar actorVar];
    intros es st st' H; simpl in H.
  - by eapply run_script_emits.
  - inv_bind H. destruct a. apply EmitContext_emit_emits in H0.
    inv_bind H. destruct a. apply IH in H1 as [l1 H1].
    apply EmitContext_emit_emits in H.
    eexists. eapply emits_trans; [done|]. by eapply emits_trans.
  - inv_bind H. destruct a. apply EmitContext_emit_emits in H0.
    apply EmitContext_emit_emits in H.
    eexists. by eapply emits_trans.
Qed.
End EmissionFrame.

Lemma Action_emit_emits (fuel : nat) (act : Action) (es : EmitContext) (st st' : State) :
  Action_emit fuel act es st = Ok (tt, st') → ∃ ls, emits st st' ls.
Proof.
  revert act es st st'. induction fuel as [|fuel IH]; intros act es st st' H.
  - done.
  - simpl in H. by eapply run_emitter_emits.
Qed.

Lemma emitted_in_order_emits (fuel : nat) (ctx : Action → EmitContext)
    (l : list Action) (st st' : State) (chunks : list (list string)) :
  emitted_in_order fuel ctx l st chunks st' → emits st st' (concat chunks).
Proof.
  induction 1 as [|act rest st st1 st2 chunk chunks Hrun Hemits _ IH]; simpl.
  - apply emits_refl.
  - by eapply emits_trans.
Qed.

Lemma emitted_in_order_length (fuel : nat) (ctx : Action → EmitContext)
    (l : list Action) (st st' : State) (chunks : list (list string)) :
  emitted_in_order fuel ctx l st chunks st' → length chunks = length l.
Proof. induction 1; simpl; by f_equal. Qed.

Lemma for_of_emitted_in_order (fuel : nat) (ctx : Action → EmitContext)
    (l : list Action) (st st' : State) :
  for_of l (λ act, Action_emit fuel act (ctx act)) st = Ok (tt, st') →
  ∃ chunks, emitted_in_order fuel ctx l st chunks st'.
Proof.
  revert st. induction l as [|act l IH]; intros st H; simpl in H.
  - unfold ret in H. simplify_eq. eexists. constructor.
  - inv_bind H. destruct a. destruct (Action_emit_emits _ _ _ _ _ H0) as [chunk Hc].
    apply IH in H as [chunks H]. eexists. by econstructor.
Qed.

Lemma emitted_in_order_for_of (fuel : nat) (ctx : Action → EmitContext)
    (l : list Action) (st st' : State) (chunks : list (list string)) :
  emitted_in_order fuel ctx l st chunks st' →
  for_of l (λ act, Action_emit fuel act (ctx act)) st = Ok (tt, st').
Proof.
  induction 1 as [|act rest st st1 st2 chunk chunks Hrun _ _ IH]; simpl.
  - done.
  - by rewrite (bind_Ok _ _ _ _ _ Hrun).
Qed.

(** ** Triggering a slot *)

Lemma emit_triggered_slot (fuel : nat) (es : EmitContext) (s : ValueSlot)
    (indent : string) (st : State) :
  emit_triggered fuel es (ObjSlot s) indent st
  = for_of (queued_of st s)
      (λ act, Action_emit fuel act (triggered_context es indent act)) st.
Proof.
  unfold emit_triggered, EmitContext_emit_triggered.
  case_decide as Hmode; [by simplify_eq/=|]. done.
Qed.

Lemma emit_triggered_not_slot (fuel : nat) (es : EmitContext) (r : Obj)
    (indent : string) (st : State) :
  (∀ s, r ≠ ObjSlot s) → emit_triggered fuel es r indent st = Exit RequiresLocalSlot.
Proof. intros Hr. destruct r; try done. by destruct (Hr s). Qed.

(** Rendering a dependency that resolves to a slot. *)
Lemma EmitContext_string_slot (es : EmitContext) (dep : Resolvable) (s : ValueSlot)
    (st st' : State) :
  resolve dep st = Ok (TSlot s, st') →
  EmitContext_string es dep st
  = Ok (match captureMap es with
        | Some captures =>
            match captures !! slot s with
            | Some rename => if decide (rename = "") then slot s else rename
            | None => slot s
            end
        | None => slot s
        end, st').
Proof.
  intros Hres. unfold EmitContext_string. rewrite (bind_Ok _ _ _ _ _ Hres).
  destruct (captureMap es) as [cm|]; [|done].
  destruct (cm !! slot s); [|done]. by case_decide.
Qed.

(** ** Relations between the state before and after a computation *)

Section Preserves.
Context (R : State → State → Prop) `{!PreOrder R}.
Local Abbreviation preserves := (preserves R).

Lemma preserves_ret {A} (a : A) : preserves (ret a).
Proof. intros st a' st' [= _ <-]. reflexivity. Qed.

Lemma preserves_get : preserves get.
Proof. intros st a' st' [= _ <-]. reflexivity. Qed.

Lemma preserves_modify (f : State → State) :
  (∀ st, R st (f st)) → preserves (modify f).
Proof. intros Hf st a' st' H. unfold modify in H. simplify_eq. apply Hf. Qed.

Lemma preserves_bind {A B} (m : M A) (f : A → M B) :
  preserves m → (∀ a, preserves (f a)) → preserves (bind m f).
Proof.
  intros Hm Hf st b st' H. inv_bind H.
  etrans; [by eapply Hm|by eapply Hf].
Qed.

Lemma preserves_for_of {A} (l : list A) (body : A → M unit) :
  (∀ x, preserves (body x)) → preserves (for_of l body).
Proof.
  intros Hbody. induction l as [|x l IH]; simpl.
  - apply preserves_ret.
  - apply preserves_bind; [apply Hbody|]. intros _. apply IH.
Qed.

Lemma preserves_map_of {A B} (l : list A) (f : A → M B) :
  (∀ x, preserves (f x)) → preserves (map_of l f).
Proof.
  intros Hf. induction l as [|x l IH]; simpl.
  - apply preserves_ret.
  - apply preserves_bind; [apply Hf|]. intros y.
    apply preserves_bind; [apply IH|]. intros ys. apply preserves_ret.
Qed.
End Preserves.

Global Instance memo_kept_preorder : PreOrder memo_kept.
Proof.
  split.
  - intros st. unfold memo_kept. reflexivity.
  - intros st1 st2 st3. unfold memo_kept. intros. by etrans.
Qed.

Lemma memo_kept_resolved_of (st st' : State) (b : Binding) (t : Terminal) :
  memo_kept st st' → resolved_of st b = Some t → resolved_of st' b = Some t.
Proof. unfold memo_kept, resolved_of. intros Hsub H. by eapply lookup_weaken. Qed.

Lemma modify_memo_kept (f : State → State) :
  (∀ st, resolved (f st) = resolved st) → preserves memo_kept (modify f).
Proof.
  intros Hf. apply preserves_modify. intros st. unfold memo_kept. by rewrite Hf.
Qed.

Lemma uid_memo_kept (nm : string) : preserves memo_kept (uid nm).
Proof. intros st a st' [= _ <-]. unfold memo_kept. simpl. reflexivity. Qed.

Lemma resolve_memo_kept (dep : Resolvable) : preserves memo_kept (resolve dep).
Proof. intros st a st' H. by apply resolve_emits in H as []. Qed.

Lemma collect_needs_memo_kept (deps : list Resolvable) :
  preserves memo_kept (collect_needs deps).
Proof.
  induction deps as [|dep deps IH]; simpl.
  - apply preserves_ret; apply _.
  - apply preserves_bind; [apply _|apply resolve_memo_kept|].
    intros r. apply preserves_bind; [apply _|done|].
    intros needs. apply preserves_ret; apply _.
Qed.

Lemma synthesize_join_memo_kept (act : Action) (needs : list ValueSlot) :
  preserves memo_kept (synthesize_join act needs).
Proof.
  unfold synthesize_join.
  repeat first
    [ apply uid_memo_kept
    | apply modify_memo_kept; done
    | apply preserves_bind; [apply _| |intros ?]
    | apply preserves_map_of; [apply _|intros ?]
    | apply preserves_for_of; [apply _|intros ?] ].
Qed.

Lemma resolve_act_memo_kept (act : Action) : preserves memo_kept (resolve_act act).
Proof.
  unfold resolve_act.
  apply preserves_bind; [apply _|apply collect_needs_memo_kept|].
  intros [|need [|need' needs]].
  - by apply modify_memo_kept.
  - by apply modify_memo_kept.
  - apply synthesize_join_memo_kept.
Qed.

Lemma resolve_acts_memo_kept : preserves memo_kept resolve_acts.
Proof.
  unfold resolve_acts.
  apply preserves_bind; [apply _|apply preserves_get; apply _|].
  intros st. apply preserves_for_of; [apply _|apply resolve_act_memo_kept].
Qed.

Lemma emit_code_memo_kept (fuel : nat) : preserves memo_kept (emit_code fuel).
Proof.
  unfold emit_code.
  apply preserves_bind; [apply _|apply preserves_get; apply _|]. intros st.
  apply preserves_bind; [apply _| |].
  { apply preserves_for_of; [apply _|]. intros imp. by apply modify_memo_kept. }
  intros _. apply preserves_bind; [apply _| |].
  { by apply modify_memo_kept. }
  intros _. apply preserves_for_of; [apply _|]. intros act s1 [] s2 H.
  by apply Action_emit_emits in H as [ls []].
Qed.

(** ** The API of component definitions: outputs *)

Lemma cs_output_run (cs : InstanceContext) (nm type : string) (st : State) :
  ∃ dep st', cs_output cs nm type st = Ok (dep, st')
    ∧ dep = mkSlot (next_oid st) type (symbol nm (counter_of st nm + 1)) nm cs
    ∧ fields_of st' cs !! nm = Some dep
    ∧ bound st' = bound st.
Proof.
  eexists _, _. split; [reflexivity|]. split; [done|]. split; [|done].
  unfold fields_of. simpl. rewrite lookup_insert_eq. simpl.
  by rewrite lookup_insert_eq.
Qed.

(** ** Scheduling *)

Global Instance only_memoizes_preorder : PreOrder only_memoizes.
Proof.
  split.
  - intros st. apply emits_refl.
  - intros st1 st2 st3 H1 H2. exact (emits_trans _ _ _ [] [] H1 H2).
Qed.

Lemma collect_needs_emits (deps : list Resolvable) (st st' : State)
    (needs : list ValueSlot) :
  collect_needs deps st = Ok (needs, st') → emits st st' [].
Proof.
  revert st needs st'. change (preserves only_memoizes (collect_needs deps)).
  induction deps as [|dep deps IH]; simpl.
  - apply preserves_ret; apply _.
  - apply preserves_bind; [apply _| |].
    { intros st r st' H. by apply resolve_emits in H. }
    intros r. apply preserves_bind; [apply _|done|].
    intros needs. apply preserves_ret; apply _.
Qed.

Lemma emits_nil_inv (st st' : State) :
  emits st st' [] →
  lines st' = lines st ∧ roots st' = roots st ∧ queued st' = queued st
  ∧ uidMap st' = uidMap st ∧ imports st' = imports st.
Proof.
  intros [Hl _ Hf]. rewrite app_nil_r in Hl. rewrite Hf. simpl. by rewrite Hl.
Qed.

Lemma resolve_act_needs (act : Action) (st st1 : State) (needs : list ValueSlot) :
  collect_needs (wait act) st = Ok (needs, st1) →
  resolve_act act st
  = match needs with
    | [] => roots_push act
    | [need] => queued_push need act
    | _ => synthesize_join act needs
    end st1.
Proof. intros H. unfold resolve_act. by rewrite (bind_Ok _ _ _ _ _ H). Qed.

Lemma queued_of_push (st : State) (need s : ValueSlot) (act : Action) :
  queued_of (set_queued (<[sid need := queued_of st need ++ [act]]> (queued st)) st) s
  = if decide (sid need = sid s) then queued_of st s ++ [act] else queued_of st s.
Proof.
  unfold queued_of at 1. simpl. case_decide as Hsid.
  - rewrite Hsid, lookup_insert_eq. simpl. unfold queued_of. by rewrite Hsid.
  - by rewrite lookup_insert_ne.
Qed.

(** The loop of [emit_code] over the import table. *)
Lemma for_of_lines_push {A} (l : list A) (f : A → string) (st : State) :
  for_of l (λ x, lines_push (f x)) st
  = Ok (tt, set_lines (lines st ++ (f <$> l)) st).
Proof.
  revert st. induction l as [|x l IH]; intros st; simpl.
  - unfold ret. rewrite app_nil_r. by destruct st.
  - unfold bind, lines_push at 1, modify. rewrite IH. simpl.
    by rewrite <- app_assoc.
Qed.

(** [emit_code] returns exactly when the roots, emitted one after the
    other at top level, all return. *)
Lemma emit_code_Ok (fuel : nat) (st st' : State) :
  emit_code fuel st = Ok (tt, st') ↔
  ∃ chunks,
    emitted_in_order fuel root_context (roots st)
      (set_lines (lines st ++ (import_line <$> imports st) ++ [""]) st) chunks st'.
Proof.
  unfold emit_code, bind at 1, get.
  unfold bind at 1. rewrite for_of_lines_push.
  unfold bind at 1, lines_push at 1, modify. simpl.
  rewrite <- app_assoc. split.
  - intros H. by apply for_of_emitted_in_order in H.
  - intros [chunks H]. by apply emitted_in_order_for_of in H.
Qed.

Lemma map_of_fmap {A B C} (f : A → B) (g : B → M C) (l : list A) (st : State) :
  map_of (f <$> l) g st = map_of l (λ x, g (f x)) st.
Proof.
  revert st. induction l as [|x l IH]; intros st; simpl; [done|].
  apply bind_ext. intros y st1. unfold bind. by rewrite IH.
Qed.

Lemma map_of_cons_Ok {A B} (x : A) (l : list A) (f : A → M B) (st st' : State)
    (ys : list B) :
  map_of (x :: l) f st = Ok (ys, st') →
  ∃ y ys' st1, f x st = Ok (y, st1) ∧ map_of l f st1 = Ok (ys', st') ∧ ys = y :: ys'.
Proof.
  simpl. intros H. inv_bind H. inv_bind H. unfold ret in H. simplify_eq. eauto 10.
Qed.

(** The loop of the join branch over the needs. *)
Lemma for_of_queued_push (l : list (ValueSlot * string))
    (mk : ValueSlot * string → Action) (st : State) :
  ∃ st', for_of l (λ nc, queued_push nc.1 (mk nc)) st = Ok (tt, st')
    ∧ (∀ s, queued_of st' s
            = queued_of st s ++ (mk <$> filter (λ nc, sid nc.1 = sid s) l))
    ∧ st' = set_queued (queued st') st.
Proof.
  revert st. induction l as [|nc l IH]; intros st.
  - exists st. split; [done|]. split; [|by destruct st].
    intros s. by rewrite filter_nil, app_nil_r.
  - set (st1 := set_queued (<[sid nc.1 := queued_of st nc.1 ++ [mk nc]]> (queued st)) st).
    destruct (IH st1) as (st' & Hrun & Hq & Hframe).
    exists st'. split; [|split].
    + simpl. unfold bind, queued_push at 1, modify. exact Hrun.
    + intros s. rewrite Hq. unfold st1. rewrite queued_of_push.
      case_decide as Hsid.
      * rewrite filter_cons_True by done. simpl. by rewrite <- app_assoc.
      * by rewrite filter_cons_False by done.
    + rewrite Hframe at 1. by destruct st.
Qed.

Lemma fold_left_capture_absent (l : list (ValueSlot * string))
    (m : gmap string string) (k : string) :
  (∀ nc, nc ∈ l → slot nc.1 ≠ k) →
  fold_left (λ m nc, <[slot nc.1 := nc.2]> m) l m !! k = m !! k.
Proof.
  revert m. induction l as [|nc l IH]; intros m Hl; simpl; [done|].
  rewrite IH.
  - apply lookup_insert_ne. apply Hl. by left.
  - intros nc' Hin. apply Hl. by right.
Qed.

Lemma fold_left_capture_last (l : list (ValueSlot * string))
    (m : gmap string string) (i : nat) (nc : ValueSlot * string) :
  l !! i = Some nc →
  (∀ j nc', i < j → l !! j = Some nc' → slot nc'.1 ≠ slot nc.1) →
  fold_left (λ m nc, <[slot nc.1 := nc.2]> m) l m !! slot nc.1 = Some nc.2.
Proof.
  revert m i. induction l as [|nc0 l IH]; intros m i Hi Hlast; [done|].
  destruct i as [|i]; simpl in *.
  - simplify_eq. rewrite fold_left_capture_absent.
    + apply lookup_insert_eq.
    + intros nc' [j Hj]%list_elem_of_lookup.
      apply (Hlast (S j) nc'); [lia|done].
  - apply (IH _ i); [done|]. intros j nc' Hlt Hj.
    apply (Hlast (S j) nc'); [lia|done].
Qed.

(** The rename map sends the symbol of a need to the capture of the last
    need that has this symbol. *)
Lemma capture_map_lookup (needs : list ValueSlot) (captures : list string)
    (i : nat) (need : ValueSlot) (c : string) :
  needs !! i = Some need → captures !! i = Some c →
  (∀ j need', i < j → needs !! j = Some need' → slot need' ≠ slot need) →
  capture_map needs captures !! slot need = Some c.
Proof.
  intros Hneed Hc Hlast. unfold capture_map.
  apply (fold_left_capture_last _ _ i (need, c)).
  - apply lookup_zip_with_Some. eauto.
  - intros j [need' c'] Hlt Hj. simpl.
    apply lookup_zip_with_Some in Hj as (? & ? & ? & Hj & _). simplify_eq.
    by eapply Hlast.
Qed.

Section JoinSynthesis.
Variables (act : Action) (needs : list ValueSlot).
Local Abbreviation join_actor := (join_actor act needs).
Local Abbreviation join_helper := (join_helper act).
Local Abbreviation join_declaration := (join_declaration needs).

Lemma synthesize_join_run (st : State) :
  ∃ (kc ka : N) (ks : list N) (st' : State),
    let counterVar := symbol "counter" kc in
    let actorVar := symbol "actor" ka in
    let captures := zip_with symbol (slot <$> needs) ks in
    synthesize_join act needs st = Ok (tt, st')
    ∧ length ks = length needs
    ∧ NoDup (counterVar :: actorVar :: captures)
    ∧ (∀ sym, sym ∈ counterVar :: actorVar :: captures → ¬ issued st sym)
    ∧ lines st' = lines st ++ [join_declaration counterVar captures]
    ∧ roots st' = roots st ++ [join_actor actorVar captures]
    ∧ (∀ s, queued_of st' s
            = queued_of st s
              ++ (join_helper counterVar actorVar
                    <$> filter (λ nc, sid nc.1 = sid s) (zip needs captures))).
Proof.
  destruct (uid_sequence_fresh ("counter" :: "actor" :: (slot <$> needs)) st)
    as (ns & st4 & Hrun & Hlen & Hnodup & Hfresh & Hst4).
  destruct ns as [|kc [|ka ks]]; simpl in Hlen; try lia.
  rewrite length_fmap in Hlen.
  exists kc, ka, ks. simpl in Hnodup, Hfresh.
  apply map_of_cons_Ok in Hrun as (c & ys1 & st2 & Hrun0 & Hrun & Hc).
  apply map_of_cons_Ok in Hrun as (a & ys2 & st3 & Hrun3 & Hrun2 & Ha).
  simpl in Hc. simplify_eq.
  rewrite map_of_fmap in Hrun2.
  set (counterVar := symbol "counter" kc) in *.
  set (actorVar := symbol "actor" ka) in *.
  set (captures := zip_with symbol (slot <$> needs) ks) in *.
  set (s6 := set_roots (roots st4 ++ [join_actor actorVar captures])
               (set_lines (lines st4 ++ [join_declaration counterVar captures]) st4)).
  destruct (for_of_queued_push (zip needs captures)
              (join_helper counterVar actorVar) s6) as (st' & Hfor & Hq & Hframe).
  exists st'. simpl.
  assert (Hlines : lines st4 = lines st) by (by rewrite Hst4).
  assert (Hroots : roots st4 = roots st) by (by rewrite Hst4).
  assert (Hqueued : queued st4 = queued st) by (by rewrite Hst4).
  split; [|split; [lia|split; [done|split; [done|split; [|split]]]]].
  - unfold synthesize_join.
    rewrite (bind_Ok _ _ _ _ _ Hrun0), (bind_Ok _ _ _ _ _ Hrun3),
      (bind_Ok _ _ _ _ _ Hrun2).
    unfold bind, lines_push, roots_push, modify. exact Hfor.
  - rewrite Hframe. simpl. by rewrite Hlines.
  - rewrite Hframe. simpl. by rewrite Hroots.
  - intros s. rewrite Hq. f_equal. unfold queued_of, s6. simpl.
    by rewrite Hqueued.
Qed.
End JoinSynthesis.

Lemma scheduled_in_order_effect (l : list Action) (st st' : State)
    (effects : list Scheduled) :
  scheduled_in_order l st effects st' →
  roots st' = roots st ++ concat (root_entries <$> effects)
  ∧ lines st' = lines st ++ concat (declarations <$> effects)
  ∧ ∀ s, queued_of st' s
         = queued_of st s ++ concat ((λ e, queue_entries e s) <$> effects).
Proof.
  induction 1 as [|act rest st st1 st2 st3 needs e effects
                   _ _ _ Hr Hl Hq _ (IHr & IHl & IHq)]; simpl.
  - rewrite !app_nil_r. split; [done|]. split; [done|].
    intros s. by rewrite app_nil_r.
  - rewrite IHr, IHl, Hr, Hl, !app_assoc. split; [done|]. split; [done|].
    intros s. by rewrite IHq, Hq, app_assoc.
Qed.

Lemma resolve_act_scheduled (act : Action) (st st2 : State) :
  resolve_act act st = Ok (tt, st2) →
  ∃ needs st1 e,
    collect_needs (wait act) st = Ok (needs, st1)
    ∧ schedules act needs e
    ∧ roots st2 = roots st ++ root_entries e
    ∧ lines st2 = lines st ++ declarations e
    ∧ ∀ s, queued_of st2 s = queued_of st s ++ queue_entries e s.
Proof.
  intros H. unfold resolve_act in H. inv_bind H. rename a into needs.
  exists needs, st0.
  apply collect_needs_emits in H0 as Hmemo.
  apply emits_nil_inv in Hmemo as (Hlines & Hroots & Hqueued & _).
  assert (Hq : ∀ s, queued_of st0 s = queued_of st s).
  { intros s. unfold queued_of. by rewrite Hqueued. }
  destruct needs as [|n1 [|n2 needs]].
  - eexists. split; [done|]. split; [constructor|].
    unfold roots_push, modify in H. simplify_eq. simpl.
    rewrite Hroots, Hlines, app_nil_r. do 2 (split; [done|]).
    intros s. by rewrite app_nil_r, <- Hq.
  - eexists. split; [done|]. split; [constructor|].
    unfold queued_push, modify in H. simplify_eq. simpl.
    rewrite Hroots, Hlines, !app_nil_r. do 2 (split; [done|]).
    intros s. rewrite queued_of_push, Hq. case_decide; [done|].
    by rewrite app_nil_r.
  - destruct (synthesize_join_run act (n1 :: n2 :: needs) st0)
      as (kc & ka & ks & st' & Hrun & _ & _ & _ & Hl & Hr & Hqueue).
    rewrite Hrun in H. simplify_eq.
    eexists. split; [done|]. split; [constructor|]. simpl.
    rewrite Hr, Hl, Hroots, Hlines. do 2 (split; [reflexivity|]).
    intros s. rewrite Hqueue, Hq. reflexivity.
Qed.

Lemma for_of_resolve_act_scheduled (l : list Action) (st st' : State) :
  for_of l resolve_act st = Ok (tt, st') →
  ∃ effects, scheduled_in_order l st effects st'.
Proof.
  revert st. induction l as [|act l IH]; intros st H; simpl in H.
  - unfold ret in H. simplify_eq. eexists. constructor.
  - inv_bind H. destruct a.
    destruct (resolve_act_scheduled _ _ _ H0)
      as (needs & st1 & e & Hn & He & Hr & Hl & Hq).
    apply IH in H as (effects & H). eexists. by econstructor.
Qed.

Lemma resolve_acts_scheduled (st st' : State) :
  resolve_acts st = Ok (tt, st') →
  ∃ effects, scheduled_in_order (acts st) st effects st'.
Proof.
  intros H. unfold resolve_acts, bind at 1, get in H.
  by apply for_of_resolve_act_scheduled.
Qed.

Lemma emitted_in_order_app_inv (fuel : nat) (ctx : Action → EmitContext)
    (l1 l2 : list Action) (st st' : State) (chunks : list (list string)) :
  emitted_in_order fuel ctx (l1 ++ l2) st chunks st' →
  ∃ s c1 c2, chunks = c1 ++ c2
    ∧ emitted_in_order fuel ctx l1 st c1 s
    ∧ emitted_in_order fuel ctx l2 s c2 st'.
Proof.
  revert st chunks. induction l1 as [|act l1 IH]; intros st chunks H; simpl in H.
  - exists st, [], chunks. split; [done|]. split; [constructor|done].
  - inversion H as [|? ? ? st1 ? chunk chunks' Hrun Hemits Hrest]; subst.
    apply IH in Hrest as (s & c1 & c2 & -> & H1 & H2).
    exists s, (chunk :: c1), c2. split; [done|]. split; [|done].
    by econstructor.
Qed.

Lemma Action_emit_helper (counterVar actorVar : string) (act : Action)
    (nc : ValueSlot * string) (fuel : nat) (es : EmitContext) (st : State) :
  Action_emit (S fuel) (join_helper act counterVar actorVar nc) es st
  = Ok (tt, set_lines
              (lines st ++ [prefix es +:+ nc.2 +:+ " = " +:+ slot nc.1 +:+ ";";
                            prefix es +:+ "if (!--" +:+ counterVar +:+ ") "
                            +:+ actorVar +:+ "();"]) st).
Proof.
  simpl. unfold bind, EmitContext_emit, modify. simpl.
  by rewrite <- app_assoc.
Qed.

(** ** The import table *)

Global Instance same_imports_preorder : PreOrder same_imports.
Proof.
  split.
  - by intros st.
  - intros st1 st2 st3. unfold same_imports. congruence.
Qed.

Lemma resolve_act_same_imports (act : Action) : preserves same_imports (resolve_act act).
Proof.
  unfold resolve_act. apply preserves_bind; [apply _| |].
  { intros st needs st' H. apply collect_needs_emits in H.
    by apply emits_nil_inv in H as (_ & _ & _ & _ & ?). }
  intros [|n1 [|n2 needs]]; [by apply preserves_modify..|].
  unfold synthesize_join.
  repeat first
    [ apply preserves_modify; done
    | apply preserves_bind; [apply _| |intros ?]
    | apply preserves_map_of; [apply _|intros ?]
    | apply preserves_for_of; [apply _|intros ?]
    | by intros ? ? ? [= _ <-] ].
Qed.

Lemma resolve_acts_same_imports : preserves same_imports resolve_acts.
Proof.
  unfold resolve_acts. apply preserves_bind; [apply _|apply preserves_get; apply _|].
  intros st. apply preserves_for_of; [apply _|apply resolve_act_same_imports].
Qed.

Lemma Map_get_set (m : list (string * string)) (k v : string) :
  Map_get (Map_set m k v) k = Some v.
Proof.
  induction m as [|[k' v'] m IH]; simpl.
  - by rewrite decide_True.
  - case_decide as Hk; simpl.
    + by rewrite decide_True.
    + by rewrite decide_False.
Qed.

Lemma Map_set_keys (m : list (string * string)) (k v : string) :
  (Map_set m k v).*1 = if decide (k ∈ m.*1) then m.*1 else m.*1 ++ [k].
Proof.
  induction m as [|[k' v'] m IH]; [done|].
  change (Map_set ((k', v') :: m) k v)
    with (if decide (k' = k) then (k, v) :: m else (k', v') :: Map_set m k v).
  rewrite !fmap_cons. change ((k', v').1) with k'.
  destruct (decide (k' = k)) as [->|Hne].
  - rewrite decide_True; [done|]. by left.
  - rewrite fmap_cons, IH. change ((k', v').1) with k'.
    destruct (decide (k ∈ m.*1)) as [Hin|Hin].
    + rewrite decide_True; [done|]. by right.
    + rewrite decide_False; [done|]. intros [->|?]%elem_of_cons; done.
Qed.

Lemma Map_set_NoDup (m : list (string * string)) (k v : string) :
  NoDup m.*1 → NoDup (Map_set m k v).*1.
Proof.
  intros Hm. rewrite Map_set_keys. case_decide as Hin; [done|].
  apply NoDup_app. split; [done|]. split; [|apply NoDup_singleton].
  intros x Hx ->%list_elem_of_singleton. done.
Qed.

(** One entry per library: a library is declared by the first call of
    [cs.imports] that names it, a later call returns the symbol of the
    first. *)
Lemma cs_imports_once (cs cs' : InstanceContext) (lib sym : string) (st st' : State) :
  cs_imports cs lib st = Ok (sym, st') →
  cs_imports cs' lib st' = Ok (sym, st')
  ∧ (NoDup (imports st).*1 → NoDup (imports st').*1).
Proof.
  unfold cs_imports, bind at 1, get. intros H.
  assert (Hdeclare :
    match libs lib with
    | Some _ =>
        let* sym := uid lib in
        modify (λ st, set_imports (Map_set (imports st) lib sym) st) ;;; ret sym
    | None => error (UnknownImport lib (InstanceContext_path st cs))
    end st = Ok (sym, st') →
    (let* st := get in
     match Map_get (imports st) lib with
     | Some sym0 =>
         if decide (sym0 = "")
         then match libs lib with
              | Some _ =>
                  let* sym := uid lib in
                  modify (λ st, set_imports (Map_set (imports st) lib sym) st) ;;;
                  ret sym
              | None => error (UnknownImport lib (InstanceContext_path st cs'))
              end
         else ret sym0
     | None =>
         match libs lib with
         | Some _ =>
             let* sym := uid lib in
             modify (λ st, set_imports (Map_set (imports st) lib sym) st) ;;; ret sym
         | None => error (UnknownImport lib (InstanceContext_path st cs'))
         end
     end) st' = Ok (sym, st')
    ∧ (NoDup (imports st).*1 → NoDup (imports st').*1)).
  { destruct (libs lib); [|done]. intros Hrun.
    unfold bind, uid, modify, ret in Hrun. simplify_eq. simpl. split.
    - unfold bind, get. simpl. rewrite Map_get_set.
      rewrite decide_False; [done|apply symbol_nonempty].
    - apply Map_set_NoDup. }
  destruct (Map_get (imports st) lib) as [sym0|] eqn:Hget; [|by apply Hdeclare].
  case_decide as Hempty; [by apply Hdeclare|].
  unfold ret in H. simplify_eq. split; [|done].
  unfold bind, get. rewrite Hget. by rewrite decide_False.
Qed.

(** ** The state built by the component definitions *)

Global Instance keeps_preorder (P : State → Prop) : PreOrder (keeps P).
Proof.
  split.
  - intros st H. exact H.
  - intros st1 st2 st3 H1 H2 H. by apply H2, H1.
Qed.

Lemma constructed_new (nm : string) : constructed (TemplateContext_new nm).
Proof. split; simpl; try done. apply NoDup_nil_2. Qed.

Lemma uid_constructed (nm : string) : preserves (keeps constructed) (uid nm).
Proof. intros st sym st' [= _ <-] []. by split. Qed.

Lemma cs_imports_constructed (cs : InstanceContext) (lib : string) :
  preserves (keeps constructed) (cs_imports cs lib).
Proof.
  intros st sym st' Hrun Hst.
  destruct (cs_imports_once cs cs lib sym st st' Hrun) as [_ Hnodup].
  assert (Hframe : ∃ im um, st' = set_imports im (set_uidMap um st)).
  { unfold cs_imports, bind at 1, get in Hrun.
    assert (Hdeclare : ∀ s0 : State,
      match libs lib with
      | Some _ =>
          let* sym := uid lib in
          modify (λ st, set_imports (Map_set (imports st) lib sym) st) ;;; ret sym
      | None => error (UnknownImport lib (InstanceContext_path s0 cs))
      end st = Ok (sym, st') → ∃ im um, st' = set_imports im (set_uidMap um st)).
    { intros s0. destruct (libs lib); [|done]. intros H.
      unfold bind, uid, modify, ret in H. simplify_eq. eauto. }
    destruct (Map_get (imports st) lib) as [sym0|]; [|by eapply Hdeclare].
    case_decide; [by eapply Hdeclare|].
    unfold ret in Hrun. simplify_eq. exists (imports st'), (uidMap st').
    by destruct st'. }
  destruct Hframe as (im & um & ->), Hst. split; try done. by apply Hnodup.
Qed.

Lemma ValueSlot_new_constructed (nm type sym : string) (inst : InstanceContext) :
  preserves (keeps constructed) (ValueSlot_new nm type sym inst).
Proof.
  intros st dep st' [= _ <-] []. split; simpl; try done.
  intros i q. rewrite lookup_insert. case_decide; [by intros [= <-]|eauto].
Qed.

Lemma cs_output_constructed (cs : InstanceContext) (nm type : string) :
  preserves (keeps constructed) (cs_output cs nm type).
Proof.
  unfold cs_output.
  apply preserves_bind; [apply _|apply uid_constructed|]. intros sym.
  apply preserves_bind; [apply _|apply ValueSlot_new_constructed|]. intros dep.
  apply preserves_bind; [apply _| |intros _; apply preserves_ret; apply _].
  apply preserves_modify. intros st []. by split.
Qed.

Lemma cs_slot_constructed (cs : InstanceContext) (nm type : string) :
  preserves (keeps constructed) (cs_slot cs nm type).
Proof.
  unfold cs_slot.
  apply preserves_bind; [apply _|apply uid_constructed|]. intros sym.
  apply ValueSlot_new_constructed.
Qed.

Lemma cs_input_constructed (cs : InstanceContext) (nm type : string)
    (defaultValue : option JsValue) :
  preserves (keeps constructed) (cs_input cs nm type defaultValue).
Proof.
  unfold cs_input, bind_to.
  apply preserves_bind; [apply _| |].
  - intros st b st' Hrun []. unfold Binding_new in Hrun.
    assert (st' = set_next_oid (S (next_oid st))
                    (set_resolved (delete (next_oid st) (resolved st)) st)) as ->.
    { destruct (args cs !! nm); [by simplify_eq|].
      destruct defaultValue as [[]|]; by simplify_eq. }
    split; simpl; try done. rewrite constructed_resolved0. apply delete_empty.
  - intros dep.
    apply preserves_bind; [apply _| |intros _; apply preserves_ret; apply _].
    apply preserves_modify. intros st []. by split.
Qed.

Lemma cs_action_constructed (cs : InstanceContext) (deps : list Resolvable)
    (emit : Script) :
  preserves (keeps constructed) (cs_action cs deps emit).
Proof.
  apply preserves_modify. intros st []. split; simpl; try done.
  apply Forall_app. split; [done|]. apply Forall_singleton. by eexists.
Qed.

Lemma run_defn_constructed (defn : Defn) (cs : InstanceContext) :
  preserves (keeps constructed) (run_defn defn cs).
Proof.
  induction defn as [|lib k IH|nm k IH|nm type k IH|nm type k IH
                     |nm type defaultValue k IH|deps emit k IH]; simpl.
  - apply preserves_ret; apply _.
  - apply preserves_bind; [apply _|apply cs_imports_constructed|done].
  - apply preserves_bind; [apply _|apply uid_constructed|done].
  - apply preserves_bind; [apply _|apply cs_slot_constructed|done].
  - apply preserves_bind; [apply _|apply cs_output_constructed|done].
  - apply preserves_bind; [apply _|apply cs_input_constructed|done].
  - apply preserves_bind; [apply _|apply cs_action_constructed|done].
Qed.

Lemma expand_constructed (components : string → option Defn) (item : Use) :
  preserves (keeps constructed) (expand components item).
Proof.
  unfold expand. destruct (components (use_is item)) as [defn|]; [|done].
  apply preserves_bind; [apply _| |].
  { intros st cs st' [= _ <-] []. by split. }
  intros cs. apply preserves_bind; [apply _| |intros _; apply run_defn_constructed].
  intros st [] st' Hrun []. unfold bind_inst in Hrun.
  destruct (bound st !! use_id item); [done|]. simplify_eq. by split.
Qed.

(** Whatever the registry and the graph, the state that [generate] hands to
    [resolve_acts] is a constructed one. *)
Lemma expansion_constructed (components : string → option Defn) (ast : list Use)
    (st : State) :
  for_of ast (expand components) (TemplateContext_new "main") = Ok (tt, st) →
  constructed st.
Proof.
  intros Hrun.
  apply (preserves_for_of (keeps constructed) ast (expand components)
           (expand_constructed components) _ _ _ Hrun).
  apply constructed_new.
Qed.

Lemma generate_Ok (fuel : nat) (components : string → option Defn) (ast : list Use)
    (st2 : State) :
  generate fuel components ast = Ok (tt, st2) ↔
  ∃ st st1,
    for_of ast (expand components) (TemplateContext_new "main") = Ok (tt, st)
    ∧ resolve_acts st = Ok (tt, st1)
    ∧ emit_code fuel st1 = Ok (tt, st2).
Proof.
  unfold generate. split.
  - intros H. inv_bind H. inv_bind H. destruct a, a0. eauto.
  - intros (st & st1 & H0 & H1 & H2).
    by rewrite (bind_Ok _ _ _ _ _ H0), (bind_Ok _ _ _ _ _ H1).
Qed.

(** ** Fuel *)

Lemma bind_settled {A B} (m1 m2 : M A) (f1 f2 : A → M B) (st : State) :
  (settled (m1 st) → m2 st = m1 st) →
  (∀ a st', settled (f1 a st') → f2 a st' = f1 a st') →
  settled (bind m1 f1 st) → bind m2 f2 st = bind m1 f1 st.
Proof.
  unfold bind, settled. intros Hm Hf H.
  destruct (m1 st) as [[a st1]| | |]; [| | |done].
  - rewrite Hm by done. by apply Hf.
  - by rewrite Hm.
  - by rewrite Hm.
Qed.

Lemma for_of_settled {A} (l : list A) (b1 b2 : A → M unit) (st : State) :
  (∀ x st', settled (b1 x st') → b2 x st' = b1 x st') →
  settled (for_of l b1 st) → for_of l b2 st = for_of l b1 st.
Proof.
  intros Hb. revert st. induction l as [|x l IH]; intros st H; simpl in *; [done|].
  apply bind_settled; auto.
Qed.

Section FuelRefinement.
Variables call1 call2 : Action → EmitContext → M unit.
Hypothesis call_settled : ∀ act es st,
  settled (call1 act es st) → call2 act es st = call1 act es st.

Lemma EmitContext_emit_triggered_settled (es : EmitContext) (r : Obj)
    (indent : string) (st : State) :
  settled (EmitContext_emit_triggered call1 es r indent st) →
  EmitContext_emit_triggered call2 es r indent st
  = EmitContext_emit_triggered call1 es r indent st.
Proof.
  unfold EmitContext_emit_triggered. destruct r; try done.
  case_decide as Hmode; [done|]. intros H.
  apply bind_settled; [done| |done].
  intros st0 st' H'. apply for_of_settled; [|done].
  intros act s1. apply call_settled.
Qed.

Lemma run_script_settled (k : Script) (es : EmitContext) (st : State) :
  settled (run_script call1 k es st) →
  run_script call2 k es st = run_script call1 k es st.
Proof.
  revert st. induction k as [|dep k IH|code k IH|r indent k IH]; intros st H;
    simpl in *; [done|..].
  - apply bind_settled; auto.
  - apply bind_settled; auto.
  - apply bind_settled; auto. apply EmitContext_emit_triggered_settled.
Qed.

Lemma run_emitter_settled (e : Emitter) (es : EmitContext) (st : State) :
  settled (run_emitter call1 e es st) →
  run_emitter call2 e es st = run_emitter call1 e es st.
Proof.
  revert es st.
  induction e as [body|actorVar cm inst e IH|capture need counterVar actorVar];
    intros es st H; simpl in *; [|apply bind_settled; auto|done].
  - by apply run_script_settled.
  - intros _ st1 H1. apply bind_settled; auto.
Qed.
End FuelRefinement.

(** An emission that is settled with some fuel has the same outcome with
    any more. *)
Lemma Action_emit_fuel (fuel fuel' : nat) (act : Action) (es : EmitContext)
    (st : State) :
  fuel ≤ fuel' →
  settled (Action_emit fuel act es st) →
  Action_emit fuel' act es st = Action_emit fuel act es st.
Proof.
  revert fuel' act es st. induction fuel as [|fuel IH]; intros fuel' act es st Hle H.
  - by destruct H.
  - destruct fuel' as [|fuel']; [lia|]. simpl in *.
    apply run_emitter_settled; [|done].
    intros act' es' st'. apply IH. lia.
Qed.

Lemma emit_code_fuel (fuel fuel' : nat) (st : State) :
  fuel ≤ fuel' →
  settled (emit_code fuel st) → emit_code fuel' st = emit_code fuel st.
Proof.
  intros Hle. unfold emit_code. intros H.
  apply bind_settled; [done| |done]. intros st0 st1 H1.
  apply bind_settled; [done| |done]. intros _ st2 H2.
  apply bind_settled; [done| |done]. intros _ st3 H3.
  apply for_of_settled; [|done]. intros act s1. by apply Action_emit_fuel.
Qed.

Lemma generate_fuel (fuel fuel' : nat) (components : string → option Defn)
    (ast : list Use) :
  fuel ≤ fuel' →
  settled (generate fuel components ast) →
  generate fuel' components ast = generate fuel components ast.
Proof.
  intros Hle. unfold generate. intros H.
  apply bind_settled; [done| |done]. intros _ st1 H1.
  apply bind_settled; [done| |done]. intros _ st2. by apply emit_code_fuel.
Qed.

(** ** Indentation *)

Lemma has_prefix_app (pre indent line : string) :
  has_prefix (pre +:+ indent) line → has_prefix pre line.
Proof. intros [rest ->]. exists (indent +:+ rest). apply app_assoc_s. Qed.

Lemma emits_queues_actor_free (st st' : State) (ls : list string) :
  emits st st' ls → queues_actor_free st → queues_actor_free st'.
Proof. intros H Hq s. rewrite (emits_queued_of _ _ _ _ H). apply Hq. Qed.

Section Prefixed.
Variable call_emit : Action → EmitContext → M unit.
Hypothesis call_prefixed : ∀ act es st st',
  actor_free act → queues_actor_free st →
  call_emit act es st = Ok (tt, st') →
  ∃ ls, emits st st' ls ∧ Forall (has_prefix (prefix es)) ls.

Lemma for_of_prefixed (pre : string) (l : list Action) (st st' : State) :
  Forall actor_free l → queues_actor_free st →
  for_of l (λ act, call_emit act (mkEmitContext (act_inst act) pre None)) st
  = Ok (tt, st') →
  ∃ ls, emits st st' ls ∧ Forall (has_prefix pre) ls.
Proof.
  revert st. induction l as [|act l IH]; intros st Hl Hq H; simpl in H.
  - unfold ret in H. simplify_eq. exists []. split; [apply emits_refl|done].
  - inv_bind H. destruct a. apply Forall_cons in Hl as [Hact Hl].
    apply call_prefixed in H0 as (l1 & He1 & Hp1); [|done..].
    apply IH in H as (l2 & He2 & Hp2); [|done|by eapply emits_queues_actor_free].
    exists (l1 ++ l2). split; [by eapply emits_trans|by apply Forall_app].
Qed.

Lemma EmitContext_emit_triggered_prefixed (es : EmitContext) (r : Obj)
    (indent : string) (st st' : State) :
  queues_actor_free st →
  EmitContext_emit_triggered call_emit es r indent st = Ok (tt, st') →
  ∃ ls, emits st st' ls ∧ Forall (has_prefix (prefix es +:+ indent)) ls.
Proof.
  intros Hq. unfold EmitContext_emit_triggered. destruct r; try done.
  case_decide as Hmode; [done|]. intros H. inv_bind H.
  unfold get in H0. simplify_eq. by eapply for_of_prefixed.
Qed.

Lemma run_script_prefixed (k : Script) (es : EmitContext) (st st' : State) :
  queues_actor_free st →
  run_script call_emit k es st = Ok (tt, st') →
  ∃ ls, emits st st' ls ∧ Forall (has_prefix (prefix es)) ls.
Proof.
  revert st. induction k as [|dep k IH|code k IH|r indent k IH]; intros st Hq H;
    simpl in H.
  - unfold ret in H. simplify_eq. exists []. split; [apply emits_refl|done].
  - inv_bind H. apply EmitContext_string_emits in H0.
    apply IH in H as (ls & He & Hp); [|by eapply emits_queues_actor_free].
    exists ls. split; [|done]. exact (emits_trans _ _ _ [] ls H0 He).
  - inv_bind H. destruct a. apply EmitContext_emit_emits in H0.
    apply IH in H as (ls & He & Hp); [|by eapply emits_queues_actor_free].
    eexists. split; [by eapply emits_trans|].
    apply Forall_app. split; [|done]. apply Forall_singleton. by eexists.
  - inv_bind H. destruct a.
    apply EmitContext_emit_triggered_prefixed in H0 as (l1 & He1 & Hp1); [|done].
    apply IH in H as (ls & He & Hp); [|by eapply emits_queues_actor_free].
    eexists. split; [by eapply emits_trans|].
    apply Forall_app. split; [|done].
    eapply Forall_impl; [done|]. intros line. apply has_prefix_app.
Qed.

Lemma run_emitter_prefixed (e : Emitter) (es : EmitContext) (st st' : State) :
  match e with ActorEmit _ _ _ _ => False | _ => True end →
  queues_actor_free st →
  run_emitter call_emit e es st = Ok (tt, st') →
  ∃ ls, emits st st' ls ∧ Forall (has_prefix (prefix es)) ls.
Proof.
  destruct e as [body|actorVar cm inst e|capture need counterVar actorVar];
    intros He Hq H; simpl in H; [|done|].
  - by eapply run_script_prefixed.
  - inv_bind H. destruct a. apply EmitContext_emit_emits in H0.
    apply EmitContext_emit_emits in H.
    eexists. split; [by eapply emits_trans|].
    apply Forall_app. split; apply Forall_singleton; by eexists.
Qed.
End Prefixed.

(** Every line an action other than an actor function emits starts with
    the prefix of its context. *)
Lemma Action_emit_prefixed (fuel : nat) (act : Action) (es : EmitContext)
    (st st' : State) :
  actor_free act → queues_actor_free st →
  Action_emit fuel act es st = Ok (tt, st') →
  ∃ ls, emits st st' ls ∧ Forall (has_prefix (prefix es)) ls.
Proof.
  revert act es st st'. induction fuel as [|fuel IH]; intros act es st st' Ha Hq H.
  - done.
  - simpl in H. by eapply run_emitter_prefixed.
Qed.

Lemma emit_triggered_prefixed (fuel : nat) (es : EmitContext) (r : Obj)
    (indent : string) (st st' : State) :
  queues_actor_free st →
  emit_triggered fuel es r indent st = Ok (tt, st') →
  ∃ ls, emits st st' ls ∧ Forall (has_prefix (prefix es +:+ indent)) ls.
Proof.
  apply EmitContext_emit_triggered_prefixed. apply Action_emit_prefixed.
Qed.

(** Scheduling queues actions of component definitions and helpers, never
    an actor function. *)
Lemma queued_push_actor_free (need : ValueSlot) (act : Action) :
  actor_free act → preserves (keeps queues_actor_free) (queued_push need act).
Proof.
  intros Ha. apply preserves_modify. intros st Hq s.
  rewrite queued_of_push. case_decide; [|done].
  apply Forall_app. split; [done|by apply Forall_singleton].
Qed.

Lemma resolve_act_actor_free (act : Action) :
  actor_free act → preserves (keeps queues_actor_free) (resolve_act act).
Proof.
  intros Ha st [] st' Hrun Hq. unfold resolve_act in Hrun. inv_bind Hrun.
  apply collect_needs_emits in Hrun0.
  apply (emits_queues_actor_free _ _ _ Hrun0) in Hq.
  destruct a as [|n1 [|n2 needs]].
  - unfold roots_push, modify in Hrun. by simplify_eq.
  - by eapply queued_push_actor_free.
  - destruct (synthesize_join_run act (n1 :: n2 :: needs) st0)
      as (kc & ka & ks & st2 & Hjoin & _ & _ & _ & _ & _ & Hqueue).
    rewrite Hjoin in Hrun. simplify_eq. intros s. rewrite Hqueue.
    apply Forall_app. split; [done|]. by apply Forall_fmap, Forall_true.
Qed.

Lemma resolve_acts_actor_free (st st' : State) :
  constructed st → resolve_acts st = Ok (tt, st') → queues_actor_free st'.
Proof.
  intros Hst Hrun. unfold resolve_acts, bind at 1, get in Hrun.
  assert (Hacts : Forall actor_free (acts st)).
  { eapply Forall_impl; [apply Hst|]. intros act [body Hbody].
    unfold actor_free. by rewrite Hbody. }
  assert (Hq : queues_actor_free st).
  { intros s. unfold queued_of. destruct (queued st !! sid s) as [q|] eqn:Hlook; [|done].
    by rewrite (constructed_queued _ Hst _ _ Hlook). }
  revert Hrun Hq. generalize st at 2 3 as s0. 
  induction Hacts as [|act l Ha _ IH]; intros s0 Hrun Hq; simpl in Hrun.
  - unfold ret in Hrun. by simplify_eq.
  - inv_bind Hrun. destruct a. eapply IH; [done|].
    by eapply resolve_act_actor_free.
Qed.

(** ** Strings *)

Lemma app_s_nil (s : string) : s +:+ "" = s.
Proof. induction s as [|c s IH]; [done|]. by rewrite app_cons_s, IH. Qed.

Lemma rev_app_app (s t : string) : String.rev_app s t = String.rev s +:+ t.
Proof.
  unfold String.rev. revert t. induction s as [|c s IH]; intros t; simpl; [done|].
  rewrite (IH (String c t)), (IH (String c "")). by rewrite app_assoc_s.
Qed.

Lemma split_go_nonempty (sep : ascii) (cur s : string) : split_go sep cur s ≠ [].
Proof.
  revert cur. induction s as [|c s IH]; intros cur; simpl; [done|].
  case_decide; [done|apply IH].
Qed.

Lemma join_cons (sep x : string) (l : list string) :
  l ≠ [] → join sep (x :: l) = x +:+ sep +:+ join sep l.
Proof. by destruct l. Qed.

Lemma join_split_go (sep : ascii) (cur s : string) :
  join (String sep "") (split_go sep cur s) = String.rev cur +:+ s.
Proof.
  revert cur. induction s as [|c s IH]; intros cur; simpl.
  - by rewrite app_s_nil.
  - case_decide as Hc.
    + rewrite join_cons by apply split_go_nonempty. rewrite IH. by subst c.
    + rewrite IH. unfold String.rev at 1. simpl. rewrite rev_app_app.
      by rewrite app_assoc_s.
Qed.

(** ** Paths *)

Lemma resolve_fields_slot (st : State) (whole : list string) (s : ValueSlot)
    (rest : list string) (e : Endpoint) :
  resolve_fields st whole (ESlot s) rest = Ok e → rest = [] ∧ e = ESlot s.
Proof. destruct rest; simpl; [by intros [= <-]|done]. Qed.

(** ** What scheduling extends *)

Global Instance scheduling_extends_preorder : PreOrder scheduling_extends.
Proof.
  split.
  - intros st. split; try done.
  - intros st1 st2 st3 H1 H2. destruct H1, H2. split; try congruence.
    + etrans; eassumption.
    + etrans; eassumption.
    + intros s. etrans; eauto.
    + etrans; eassumption.
    + intros nm. etrans; eauto.
Qed.

Lemma emits_extends (st st' : State) (ls : list string) :
  emits st st' ls → scheduling_extends st st'.
Proof.
  intros [Hl Hr Hf]. split; try (rewrite Hf; done); try done.
  rewrite Hl. by apply prefix_app_r.
Qed.

Lemma uid_extends (nm : string) : preserves scheduling_extends (uid nm).
Proof.
  intros st sym st' Hrun. pose proof (uid_counter_mono _ _ _ _ Hrun) as Hmono.
  unfold uid in Hrun. simplify_eq. by split.
Qed.

Lemma roots_push_extends (act : Action) : preserves scheduling_extends (roots_push act).
Proof.
  apply preserves_modify. intros st. split; simpl; try done.
  by apply prefix_app_r.
Qed.

Lemma lines_push_extends (line : string) : preserves scheduling_extends (lines_push line).
Proof.
  apply preserves_modify. intros st. split; simpl; try done.
  by apply prefix_app_r.
Qed.

Lemma queued_push_extends (need : ValueSlot) (act : Action) :
  preserves scheduling_extends (queued_push need act).
Proof.
  apply preserves_modify. intros st. split; simpl; try done.
  intros s. rewrite queued_of_push. case_decide; [by apply prefix_app_r|done].
Qed.

Lemma collect_needs_extends (deps : list Resolvable) :
  preserves scheduling_extends (collect_needs deps).
Proof. intros st needs st' H. by apply collect_needs_emits, emits_extends in H. Qed.

Lemma resolve_act_extends (act : Action) : preserves scheduling_extends (resolve_act act).
Proof.
  unfold resolve_act. apply preserves_bind; [apply _|apply collect_needs_extends|].
  intros [|n1 [|n2 needs]];
    [apply roots_push_extends|apply queued_push_extends|].
  unfold synthesize_join.
  repeat first
    [ apply uid_extends
    | apply lines_push_extends
    | apply roots_push_extends
    | apply queued_push_extends
    | apply preserves_map_of; [apply _|intros ?]
    | apply preserves_for_of; [apply _|intros ?]
    | apply preserves_bind; [apply _| |intros ?] ].
Qed.

Lemma resolve_acts_extends : preserves scheduling_extends resolve_acts.
Proof.
  unfold resolve_acts. apply preserves_bind; [apply _|apply preserves_get; apply _|].
  intros st. apply preserves_for_of; [apply _|apply resolve_act_extends].
Qed.

Lemma emit_code_emits (fuel : nat) (st st' : State) :
  emit_code fuel st = Ok (tt, st') →
  ∃ ls, emits st st' ((import_line <$> imports st) ++ [""] ++ ls).
Proof.
  intros (chunks & H)%emit_code_Ok. apply emitted_in_order_emits in H.
  exists (concat chunks). destruct H as [Hl Hr Hf]. simpl in *. split.
  - rewrite Hl. by rewrite <- !app_assoc.
  - done.
  - rewrite Hf at 1. by destruct st.
Qed.

(** ** The table of the instances *)

Global Instance same_instances_preorder : PreOrder same_instances.
Proof.
  split.
  - by intros st.
  - intros st1 st2 st3 [] []. split; congruence.
Qed.

Lemma uid_same_instances (nm : string) : preserves same_instances (uid nm).
Proof. by intros st sym st' [= _ <-]. Qed.

Lemma cs_imports_same_instances (cs : InstanceContext) (lib : string) :
  preserves same_instances (cs_imports cs lib).
Proof.
  unfold cs_imports. apply preserves_bind; [apply _|apply preserves_get; apply _|].
  intros st0.
  assert (Hdeclare : preserves same_instances
    (match libs lib with
     | Some _ =>
         let* sym := uid lib in
         modify (λ st, set_imports (Map_set (imports st) lib sym) st) ;;; ret sym
     | None => error (UnknownImport lib (InstanceContext_path st0 cs))
     end)).
  { destruct (libs lib); [|done].
    apply preserves_bind; [apply _|apply uid_same_instances|]. intros sym.
    apply preserves_bind; [apply _|by apply preserves_modify|].
    intros _. apply preserves_ret; apply _. }
  destruct (Map_get (imports st0) lib) as [sym0|]; [|done].
  case_decide; [done|]. apply preserves_ret; apply _.
Qed.

Lemma ValueSlot_new_same_instances (nm type sym : string) (inst : InstanceContext) :
  preserves same_instances (ValueSlot_new nm type sym inst).
Proof. by intros st dep st' [= _ <-]. Qed.

Lemma Binding_new_run (nm type : string) (inst : InstanceContext)
    (defaultValue : option JsValue) (st st' : State) (b : Binding) :
  Binding_new nm type inst defaultValue st = Ok (b, st') →
  st' = set_next_oid (S (next_oid st))
          (set_resolved (delete (next_oid st) (resolved st)) st)
  ∧ bid b = next_oid st ∧ binding_type b = type ∧ binding_field b = nm
  ∧ binding_inst b = inst.
Proof.
  unfold Binding_new. intros H.
  destruct (args inst !! nm); [by simplify_eq|].
  destruct defaultValue as [[]|]; by simplify_eq.
Qed.

Lemma cs_input_same_instances (cs : InstanceContext) (nm type : string)
    (defaultValue : option JsValue) :
  preserves same_instances (cs_input cs nm type defaultValue).
Proof.
  unfold cs_input, bind_to. apply preserves_bind; [apply _| |].
  - intros st b st' H. by apply Binding_new_run in H as [-> _].
  - intros dep. apply preserves_bind; [apply _|by apply preserves_modify|].
    intros _. apply preserves_ret; apply _.
Qed.

Lemma run_defn_same_instances (defn : Defn) (cs : InstanceContext) :
  preserves same_instances (run_defn defn cs).
Proof.
  induction defn as [|lib k IH|nm k IH|nm type k IH|nm type k IH
                     |nm type defaultValue k IH|deps emit k IH]; simpl.
  - apply preserves_ret; apply _.
  - apply preserves_bind; [apply _|apply cs_imports_same_instances|done].
  - apply preserves_bind; [apply _|apply uid_same_instances|done].
  - apply preserves_bind; [apply _| |done]. unfold cs_slot.
    apply preserves_bind; [apply _|apply uid_same_instances|]. intros sym.
    apply ValueSlot_new_same_instances.
  - apply preserves_bind; [apply _| |done]. unfold cs_output.
    apply preserves_bind; [apply _|apply uid_same_instances|]. intros sym.
    apply preserves_bind; [apply _|apply ValueSlot_new_same_instances|]. intros dep.
    apply preserves_bind; [apply _|by apply preserves_modify|].
    intros _. apply preserves_ret; apply _.
  - apply preserves_bind; [apply _|apply cs_input_same_instances|done].
  - apply preserves_bind; [apply _|by apply preserves_modify|done].
Qed.

(** What a returning expansion of a use-site has done to the table. *)
Lemma expand_Ok (components : string → option Defn) (item : Use) (st st' : State) :
  expand components item st = Ok (tt, st') →
  is_Some (components (use_is item))
  ∧ bound st !! use_id item = None
  ∧ name st' = name st
  ∧ bound st'
    = <[use_id item := mkInstance (next_oid st) (use_args item)
                         (use_is item +:+ ":" +:+ use_id item)]> (bound st).
Proof.
  unfold expand. intros H.
  destruct (components (use_is item)) as [defn|]; [|done].
  split; [done|]. inv_bind H. unfold InstanceContext_new in H0. simplify_eq.
  inv_bind H. unfold bind_inst in H0. simpl in H0.
  destruct (bound st !! use_id item) eqn:Hid; [done|]. simplify_eq.
  apply run_defn_same_instances in H as [Hname Hbound]. by split.
Qed.

Lemma for_of_app {A} (l1 l2 : list A) (body : A → M unit) (st : State) :
  for_of (l1 ++ l2) body st = (for_of l1 body ;;; for_of l2 body) st.
Proof.
  revert st. induction l1 as [|x l1 IH]; intros st; simpl; [done|].
  rewrite bind_assoc. apply bind_ext. intros [] st1. apply IH.
Qed.

(** The table after the expansion of a graph. *)
Lemma expansion_instances (components : string → option Defn) (ast : list Use)
    (st st' : State) :
  for_of ast (expand components) st = Ok (tt, st') →
  name st' = name st
  ∧ NoDup (use_id <$> ast)
  ∧ (∀ item, item ∈ ast → bound st !! use_id item = None)
  ∧ (∀ id, id ∉ use_id <$> ast → bound st' !! id = bound st !! id)
  ∧ (∀ item, item ∈ ast →
       is_Some (components (use_is item))
       ∧ ∃ inst, bound st' !! use_id item = Some inst
                 ∧ args inst = use_args item
                 ∧ where_ inst = use_is item +:+ ":" +:+ use_id item).
Proof.
  revert st. induction ast as [|item ast IH]; intros st H; simpl in H.
  - unfold ret in H. simplify_eq. repeat split; try done.
    + apply NoDup_nil_2.
    + by intros item ?%elem_of_nil.
    + by apply elem_of_nil in H.
    + by apply elem_of_nil in H.
  - inv_bind H. destruct a.
    apply expand_Ok in H0 as (Hdefn & Hfresh & Hname & Hbound).
    apply IH in H as (Hname' & Hnodup & Hnone & Hother & Hitems).
    assert (Hnotin : use_id item ∉ use_id <$> ast).
    { intros (item' & Heq & Hin)%list_elem_of_fmap.
      specialize (Hnone item' Hin). rewrite Hbound, <- Heq in Hnone.
      by rewrite lookup_insert_eq in Hnone. }
    split; [congruence|]. split; [by apply NoDup_cons|].
    split; [|split].
    + intros item' [->|Hin]%elem_of_cons; [done|].
      specialize (Hnone item' Hin). rewrite Hbound in Hnone.
      apply lookup_insert_None in Hnone. tauto.
    + intros id [Hne Hid]%not_elem_of_cons.
      rewrite (Hother id Hid), Hbound. by apply lookup_insert_ne.
    + intros item' [->|Hin]%elem_of_cons; [|by apply Hitems].
      split; [done|]. eexists. rewrite (Hother _ Hnotin), Hbound, lookup_insert_eq.
      done.
Qed.

(** ** The names given out by the component definitions *)

Lemma issued_mono (st st' : State) (sym : string) :
  (∀ nm, (counter_of st nm ≤ counter_of st' nm)%N) → issued st sym → issued st' sym.
Proof.
  intros Hmono (nm & n & -> & Hn). exists nm, n. split; [done|].
  specialize (Hmono nm). lia.
Qed.

Lemma uid_issued (nm sym : string) (st st' : State) :
  uid nm st = Ok (sym, st') →
  ¬ issued st sym ∧ issued st' sym
  ∧ (∀ nm', (counter_of st nm' ≤ counter_of st' nm')%N)
  ∧ (∃ n, sym = symbol nm n)
  ∧ st' = set_uidMap (uidMap st') st.
Proof.
  intros Hrun. pose proof (uid_counter_mono _ _ _ _ Hrun) as Hmono.
  unfold uid in Hrun. simplify_eq. split; [|split; [|split; [done|split]]].
  - intros (nm' & n' & [<- <-]%symbol_inj & Hn'). lia.
  - exists nm, (counter_of st nm + 1)%N. split; [done|].
    rewrite counter_of_uid_eq. lia.
  - by eexists.
  - by destruct st.
Qed.

Lemma named_new (nm : string) : named (TemplateContext_new nm).
Proof. by split. Qed.

Lemma named_frame (st st' : State) :
  fields st' = fields st →
  (∀ nm, (counter_of st nm ≤ counter_of st' nm)%N) →
  keeps named st st'.
Proof.
  intros Hf Hmono [Hissued Hdistinct]. split.
  - rewrite Hf. intros i fm f s H1 H2. eapply issued_mono; eauto.
  - rewrite Hf. exact Hdistinct.
Qed.

Lemma uid_named (nm : string) : preserves (keeps named) (uid nm).
Proof.
  intros st sym st' Hrun. apply uid_issued in Hrun as (_ & _ & Hmono & _ & Hst').
  apply named_frame; [by rewrite Hst'|done].
Qed.

Lemma modify_named (f : State → State) :
  (∀ st, fields (f st) = fields st) → (∀ st, uidMap (f st) = uidMap st) →
  preserves (keeps named) (modify f).
Proof.
  intros Hf Hu. apply preserves_modify. intros st.
  apply named_frame; [done|]. intros nm. unfold counter_of. by rewrite Hu.
Qed.

Lemma ValueSlot_new_named (nm type sym : string) (inst : InstanceContext) :
  preserves (keeps named) (ValueSlot_new nm type sym inst).
Proof. intros st dep st' [= _ <-]. by apply named_frame. Qed.

Lemma cs_imports_named (cs : InstanceContext) (lib : string) :
  preserves (keeps named) (cs_imports cs lib).
Proof.
  unfold cs_imports. apply preserves_bind; [apply _|apply preserves_get; apply _|].
  intros st0.
  assert (Hdeclare : preserves (keeps named)
    (match libs lib with
     | Some _ =>
         let* sym := uid lib in
         modify (λ st, set_imports (Map_set (imports st) lib sym) st) ;;; ret sym
     | None => error (UnknownImport lib (InstanceContext_path st0 cs))
     end)).
  { destruct (libs lib); [|done].
    apply preserves_bind; [apply _|apply uid_named|]. intros sym.
    apply preserves_bind; [apply _|by apply modify_named|].
    intros _. apply preserves_ret; apply _. }
  destruct (Map_get (imports st0) lib) as [sym0|]; [|done].
  case_decide; [done|]. apply preserves_ret; apply _.
Qed.

Lemma cs_slot_named (cs : InstanceContext) (nm type : string) :
  preserves (keeps named) (cs_slot cs nm type).
Proof.
  unfold cs_slot. apply preserves_bind; [apply _|apply uid_named|]. intros sym.
  apply ValueSlot_new_named.
Qed.

(** The slot of a new output carries a symbol that no registered output
    has. *)
Lemma cs_output_named (cs : InstanceContext) (nm type : string) :
  preserves (keeps named) (cs_output cs nm type).
Proof.
  intros st dep0 st' H Hst.
  destruct (uid nm st) as [[a st0]| | |] eqn:Huid; try done.
  unfold cs_output, bind in H. rewrite Huid in H.
  unfold ValueSlot_new, modify, ret in H. injection H as <- <-.
  pose proof (uid_named _ _ _ _ Huid Hst) as Hst0.
  apply uid_issued in Huid as (Hnew & Hsym & Hmono & _ & Hframe).
  destruct Hst as [Hissued Hdistinct].
  destruct Hst0 as [Hissued0 Hdistinct0].
  set (dep := mkSlot (next_oid st0) type a nm cs).
  assert (Hold : ∀ i fm f s,
    (<[iid cs := <[nm := dep]> (fields_of
        (set_next_oid (S (next_oid st0))
           (set_queued (<[next_oid st0 := []]> (queued st0)) st0)) cs)]>
       (fields st0)) !! i = Some fm →
    fm !! f = Some s →
    s = dep ∨ ∃ i' fm', fields st0 !! i' = Some fm' ∧ fm' !! f = Some s).
  { intros i fm f s Hi Hf. destruct (decide (iid cs = i)) as [<-|Hne].
    - rewrite lookup_insert_eq in Hi. simplify_eq.
      destruct (decide (nm = f)) as [<-|Hnf].
      + rewrite lookup_insert_eq in Hf. left. by simplify_eq.
      + rewrite lookup_insert_ne in Hf by done. right.
        unfold fields_of in Hf. simpl in Hf.
        destruct (fields st0 !! iid cs) as [fm'|] eqn:Hcs; [|done]. eauto.
    - rewrite lookup_insert_ne in Hi by done. right. eauto. }
  assert (Hfresh : ∀ i fm f s,
    fields st0 !! i = Some fm → fm !! f = Some s → slot s ≠ a).
  { intros i fm f s Hi Hf Heq. apply Hnew. rewrite <- Heq.
    rewrite Hframe in Hi. simpl in Hi. eauto. }
  split; simpl.
  - intros i fm f s Hi Hf.
    destruct (Hold i fm f s Hi Hf) as [->|(i' & fm' & Hi' & Hf')]; [done|].
    by eapply Hissued0.
  - intros i1 fm1 f1 s1 i2 fm2 f2 s2 Hi1 Hf1 Hi2 Hf2 Heq.
    destruct (Hold i1 fm1 f1 s1 Hi1 Hf1) as [->|(i1' & fm1' & Hi1' & Hf1')];
      destruct (Hold i2 fm2 f2 s2 Hi2 Hf2) as [->|(i2' & fm2' & Hi2' & Hf2')].
    + done.
    + exfalso. by eapply (Hfresh i2' fm2' f2 s2).
    + exfalso. by eapply (Hfresh i1' fm1' f1 s1).
    + by eapply (Hdistinct0 i1' fm1' f1 s1 i2' fm2' f2 s2).
Qed.

Lemma cs_input_named (cs : InstanceContext) (nm type : string)
    (defaultValue : option JsValue) :
  preserves (keeps named) (cs_input cs nm type defaultValue).
Proof.
  unfold cs_input, bind_to. apply preserves_bind; [apply _| |].
  - intros st b st' H. apply Binding_new_run in H as [-> _]. by apply named_frame.
  - intros dep. apply preserves_bind; [apply _|by apply modify_named|].
    intros _. apply preserves_ret; apply _.
Qed.

Lemma run_defn_named (defn : Defn) (cs : InstanceContext) :
  preserves (keeps named) (run_defn defn cs).
Proof.
  induction defn as [|lib k IH|nm k IH|nm type k IH|nm type k IH
                     |nm type defaultValue k IH|deps emit k IH]; simpl.
  - apply preserves_ret; apply _.
  - apply preserves_bind; [apply _|apply cs_imports_named|done].
  - apply preserves_bind; [apply _|apply uid_named|done].
  - apply preserves_bind; [apply _|apply cs_slot_named|done].
  - apply preserves_bind; [apply _|apply cs_output_named|done].
  - apply preserves_bind; [apply _|apply cs_input_named|done].
  - apply preserves_bind; [apply _|by apply modify_named|done].
Qed.

Lemma expand_named (components : string → option Defn) (item : Use) :
  preserves (keeps named) (expand components item).
Proof.
  unfold expand. destruct (components (use_is item)) as [defn|]; [|done].
  apply preserves_bind; [apply _| |].
  { intros st cs st' [= _ <-] [Hissued Hdistinct]. split; simpl.
    - intros i fm f s Hi Hf. destruct (decide (next_oid st = i)) as [<-|Hne].
      + rewrite lookup_insert_eq in Hi. by simplify_eq.
      + rewrite lookup_insert_ne in Hi by done. eauto.
    - intros i1 fm1 f1 s1 i2 fm2 f2 s2 Hi1 Hf1 Hi2 Hf2.
      destruct (decide (next_oid st = i1)) as [<-|Hne1].
      { rewrite lookup_insert_eq in Hi1. by simplify_eq. }
      destruct (decide (next_oid st = i2)) as [<-|Hne2].
      { rewrite lookup_insert_eq in Hi2. by simplify_eq. }
      rewrite lookup_insert_ne in Hi1, Hi2 by done. eauto. }
  intros cs. apply preserves_bind; [apply _| |intros _; apply run_defn_named].
  intros st [] st' Hrun. unfold bind_inst in Hrun.
  destruct (bound st !! use_id item); [done|]. simplify_eq. by apply named_frame.
Qed.

Lemma expansion_named (components : string → option Defn) (ast : list Use)
    (st : State) :
  for_of ast (expand components) (TemplateContext_new "main") = Ok (tt, st) →
  named st.
Proof.
  intros Hrun.
  apply (preserves_for_of (keeps named) ast (expand components)
           (expand_named components) _ _ _ Hrun).
  apply named_new.
Qed.

Lemma fields_of_output (st : State) (cs : InstanceContext) (nm : string)
    (dep : ValueSlot) (inst : InstanceContext) (field : string) :
  fields_of (set_fields (<[iid cs := <[nm := dep]> (fields_of st cs)]> (fields st)) st)
    inst !! field
  = if decide (iid inst = iid cs ∧ field = nm) then Some dep
    else fields_of st inst !! field.
Proof.
  unfold fields_of at 1. simpl.
  destruct (decide (iid inst = iid cs)) as [Hi|Hi].
  - rewrite Hi, lookup_insert_eq. simpl.
    destruct (decide (field = nm)) as [->|Hf].
    + rewrite lookup_insert_eq. by rewrite decide_True.
    + rewrite lookup_insert_ne by done. rewrite decide_False by tauto.
      unfold fields_of. by rewrite Hi.
  - rewrite lookup_insert_ne by done. by rewrite decide_False by tauto.
Qed.

Lemma resolve_fields_ext (st st' : State) (whole : list string) (cur : Endpoint)
    (rest : list string) :
  name st' = name st → fields st' = fields st →
  resolve_fields st' whole cur rest = resolve_fields st whole cur rest.
Proof.
  intros Hname Hfields. revert cur. induction rest as [|field rest IH]; intros cur.
  - done.
  - simpl. destruct cur as [inst| |]; try done.
    unfold fields_of, InstanceContext_path. rewrite Hfields, Hname.
    destruct (default ∅ (fields st !! iid inst) !! field); [apply IH|done].
Qed.

(** ** Needs *)

Lemma collect_needs_filter (deps : list Resolvable) (st st' : State)
    (needs : list ValueSlot) :
  collect_needs deps st = Ok (needs, st') →
  ∃ ts, map_of deps resolve st = Ok (ts, st')
        ∧ TSlot <$> needs = filter (λ t, isConst t = false) ts.
Proof.
  revert st needs. induction deps as [|dep deps IH]; intros st needs H; simpl in H.
  - unfold ret in H. simplify_eq. by exists [].
  - inv_bind H. inv_bind H. unfold ret in H. simplify_eq.
    apply IH in H1 as (ts & Hts & Hfilter). exists (a :: ts). split.
    + simpl. rewrite (bind_Ok _ _ _ _ _ H0), (bind_Ok _ _ _ _ _ Hts). done.
    + destruct a as [s|l].
      * rewrite filter_cons_True by done. by rewrite fmap_cons, Hfilter.
      * by rewrite filter_cons_False.
Qed.

Lemma map_of_length {A B} (l : list A) (f : A → M B) (st st' : State) (ys : list B) :
  map_of l f st = Ok (ys, st') → length ys = length l.
Proof.
  revert st ys. induction l as [|x l IH]; intros st ys H; simpl in H.
  - unfold ret in H. by simplify_eq.
  - inv_bind H. inv_bind H. unfold ret in H. simplify_eq. simpl.
    f_equal. by eapply IH.
Qed.

Lemma collect_needs_length (deps : list Resolvable) (st st' : State)
    (needs : list ValueSlot) :
  collect_needs deps st = Ok (needs, st') → length needs ≤ length deps.
Proof.
  intros (ts & Hts & Hfilter)%collect_needs_filter.
  apply map_of_length in Hts. rewrite <- Hts, <- (length_fmap TSlot), Hfilter.
  apply length_filter.
Qed.

Lemma constant_dep_resolves_to_literal (st : State) (dep : Resolvable) :
  constant_dep st dep → resolves_to_literal st dep.
Proof.
  destruct dep as [b|s|l]; try done. intros (l & Hto & Htype & Hmemo).
  split; [by exists l|]. intros s Hs. destruct Hmemo as [Hm|Hm]; congruence.
Qed.

Lemma collect_needs_constant (deps : list Resolvable) (st : State) :
  Forall (resolves_to_literal st) deps →
  ∃ st', collect_needs deps st = Ok ([], st').
Proof.
  revert st. induction deps as [|dep deps IH]; intros st Hdeps.
  - by exists st.
  - apply Forall_cons in Hdeps as [Hdep Hdeps].
    assert (Hres : ∃ l st1, resolve dep st = Ok (TLit l, st1)
                            ∧ Forall (resolves_to_literal st1) deps).
    { destruct dep as [b|s|l]; [|done|by exists l, st].
      destruct Hdep as ((l & Hto & Htype) & Hmemo). simpl. unfold Binding_resolve.
      destruct (resolved_of st b) as [r|] eqn:Hr.
      - destruct r as [s|l']; [by destruct (Hmemo s)|]. by exists l', st.
      - rewrite Hto. simpl. rewrite decide_True by done.
        eexists _, _. split; [done|].
        eapply Forall_impl; [exact Hdeps|]. intros [b'|s'|l']; try done.
        intros [Hsrc Hnot]. split; [done|]. intros s. unfold resolved_of. simpl.
        rewrite lookup_insert. case_decide; [done|apply Hnot]. }
    destruct Hres as (l & st1 & Hres & Hst1).
    destruct (IH st1 Hst1) as (st' & Hrest). exists st'.
    simpl. by rewrite (bind_Ok _ _ _ _ _ Hres), (bind_Ok _ _ _ _ _ Hrest).
Qed.

(** ** The version without joins *)

Lemma same_or_no_fields_Ok {A} (a : A) (new : Outcome A) :
  same_or_no_fields (Ok a) new → new = Ok a.
Proof. by intros [<-|[? _]]. Qed.

Lemma same_or_no_fields_bind {A B} (m1 m2 : M A) (f1 f2 : A → M B) (st : State) :
  same_or_no_fields (m1 st) (m2 st) →
  (∀ a st1, same_or_no_fields (f1 a st1) (f2 a st1)) →
  same_or_no_fields (bind m1 f1 st) (bind m2 f2 st).
Proof.
  unfold bind. intros [Heq|(Hold & path & Hnew)] Hf.
  - rewrite Heq. destruct (m2 st) as [[a st1]| | |]; [apply Hf|by left..].
  - rewrite Hold, Hnew. right. eauto.
Qed.

Lemma BuildJs_resolve_fields (st : State) (whole : list string) (cur : Endpoint)
    (rest : list string) :
  same_or_no_fields (BuildJs.resolve_fields st whole cur rest)
    (resolve_fields st whole cur rest).
Proof.
  revert cur. induction rest as [|field rest IH]; intros cur; simpl; [by left|].
  destruct cur as [inst|s|l]; [|right; eauto..].
  destruct (fields_of st inst !! field); [apply IH|by left].
Qed.

Lemma BuildJs_resolve_path (path : list string) (st : State) :
  same_or_no_fields (BuildJs.resolve_path path st) (resolve_path path st).
Proof.
  unfold BuildJs.resolve_path, resolve_path. destruct path as [|id rest]; [by left|].
  destruct (bound st !! id) as [inst|]; [|by left].
  destruct (BuildJs_resolve_fields st (id :: rest) (EInst inst) rest)
    as [->|(-> & path & ->)]; [by left|right; eauto].
Qed.

Lemma BuildJs_Binding_resolve (b : Binding) (st : State) :
  same_or_no_fields (BuildJs.Binding_resolve b st) (Binding_resolve b st).
Proof.
  unfold BuildJs.Binding_resolve, Binding_resolve.
  destruct (resolved_of st b); [by left|].
  assert (Hsrc : same_or_no_fields (BuildJs.Source_resolve (to b) st)
                   (Source_resolve (to b) st)).
  { destruct (to b) as [r|l]; [apply BuildJs_resolve_path|by left]. }
  destruct Hsrc as [->|(-> & path & ->)]; [by left|right; eauto].
Qed.

Lemma BuildJs_resolve (dep : Resolvable) (st : State) :
  same_or_no_fields (BuildJs.resolve dep st) (resolve dep st).
Proof. destruct dep; [apply BuildJs_Binding_resolve|by left..]. Qed.

Lemma BuildJs_collect_needs (deps : list Resolvable) (st : State) :
  same_or_no_fields (BuildJs.collect_needs deps st) (collect_needs deps st).
Proof.
  revert st. induction deps as [|dep deps IH]; intros st; simpl; [by left|].
  apply same_or_no_fields_bind; [apply BuildJs_resolve|]. intros r st1.
  apply same_or_no_fields_bind; [apply IH|]. intros needs st2. by left.
Qed.

Lemma BuildJs_resolve_act (act : Action) (st : State) (o : Outcome (unit * State)) :
  BuildJs.resolve_act act st = inl o → same_or_no_fields o (resolve_act act st).
Proof.
  unfold BuildJs.resolve_act, resolve_act, bind.
  destruct (BuildJs_collect_needs (wait act) st) as [<-|(-> & path & ->)].
  - destruct (BuildJs.collect_needs (wait act) st) as [[needs st1]| | |];
      try (intros [= <-]; by left).
    destruct needs as [|n1 [|n2 needs]]; [intros [= <-]; by left..|done].
  - intros [= <-]. right. eauto.
Qed.

Lemma BuildJs_resolve_acts_loop (l : list Action) (st : State)
    (o : Outcome (unit * State)) :
  BuildJs.resolve_acts_loop l st = inl o →
  same_or_no_fields o (for_of l resolve_act st).
Proof.
  revert st. induction l as [|act l IH]; intros st; simpl.
  - intros [= <-]. by left.
  - destruct (BuildJs.resolve_act act st) as [o1|todo] eqn:Hact; [|by destruct todo].
    apply BuildJs_resolve_act in Hact. unfold bind.
    destruct o1 as [[[] st1]| | |].
    + apply same_or_no_fields_Ok in Hact as ->. simpl. apply IH.
    + intros [= <-]. destruct Hact as [<-|(Hold & _)]; [by left|discriminate Hold].
    + intros [= <-]. destruct Hact as [<-|(Hold & path & ->)]; [by left|].
      destruct e. right. eauto.
    + intros [= <-]. destruct Hact as [<-|(Hold & _)]; [by left|discriminate Hold].
Qed.

Lemma BuildJs_collect_needs_length (deps : list Resolvable) (st st' : State)
    (needs : list ValueSlot) :
  BuildJs.collect_needs deps st = Ok (needs, st') → length needs ≤ length deps.
Proof.
  intros H. pose proof (BuildJs_collect_needs deps st) as Hsame. rewrite H in Hsame.
  apply same_or_no_fields_Ok in Hsame. by eapply collect_needs_length.
Qed.

Lemma BuildJs_resolve_act_short (act : Action) (st : State) :
  length (wait act) ≤ 1 → ∃ o, BuildJs.resolve_act act st = inl o.
Proof.
  intros Hlen. unfold BuildJs.resolve_act.
  destruct (BuildJs.collect_needs (wait act) st) as [[needs st1]| | |] eqn:Hneeds;
    try by eexists.
  apply BuildJs_collect_needs_length in Hneeds.
  destruct needs as [|n1 [|n2 needs]]; [by eexists..|]. simpl in Hneeds. lia.
Qed.

Lemma BuildJs_resolve_acts_loop_short (l : list Action) (st : State) :
  Forall (λ act, length (wait act) ≤ 1) l →
  ∃ o, BuildJs.resolve_acts_loop l st = inl o.
Proof.
  intros Hl. revert st. induction Hl as [|act l Hact _ IH]; intros st; simpl.
  - by eexists.
  - destruct (BuildJs_resolve_act_short act st Hact) as [o ->].
    destruct o as [[[] st1]| | |]; [apply IH|by eexists..].
Qed.

(** ** The text of the output file *)

Lemma join_terminated (sep : string) (l : list string) :
  l ≠ [] →
  join sep l +:+ sep = foldr (λ line rest, line +:+ sep +:+ rest) "" l.
Proof.
  induction l as [|x l IH]; [done|]. intros _. destruct l as [|y l].
  - simpl. by rewrite app_s_nil.
  - rewrite join_cons by done. rewrite !app_assoc_s, IH by done. done.
Qed.

(** * The properties of the design document *)

(** ** The scenarios of the design document *)

Example uid_underscore_bases :
  (let* x := uid "a" in let* y := uid "a" in let* z := uid "a_1" in ret [x; y; z])
    (TemplateContext_new "main")
  = Ok (["a_1"; "a_2"; "a_1_1"],
        set_uidMap {[ "a" := 2%N; "a_1" := 1%N ]} (TemplateContext_new "main")).
Proof. vm_compute. reflexivity. Qed.

Example chain_scenario_lines :
  lines_of_generate
    [ Components.use "ReadText" "rd" [("filename", text "in.json")];
      Components.use "ParseJSON" "jp" [("in", ref "rd.out")];
      Components.use "EncodeJSON" "je" [("in", ref "jp.out")];
      Components.use "WriteText" "wr"
        [("filename", text "out.json"); ("in", ref "je.out")] ]
  = Some [ import_line ("fs", "fs_1");
           "";
           "fs_1.readFile(" +:+ dquote +:+ "in.json" +:+ dquote
             +:+ ", 'utf8', function (err, out_1) {";
           "  if (err) throw err;";
           "  const out_2 = JSON.parse(out_1);";
           "  const out_3 = JSON.stringify(out_2);";
           "  fs_1.writeFile(" +:+ dquote +:+ "out.json" +:+ dquote
             +:+ ", out_3, 'utf8', function (err) {";
           "    if (err) throw err;";
           "  });";
           "});" ].
Proof. vm_compute. reflexivity. Qed.

Example join_scenario_lines :
  lines_of_generate join_ast
  = Some [ "var counter_1 = 2, out_1_1, out_2_1;";
           import_line ("fs", "fs_1");
           "";
           "fs_1.readFile(" +:+ dquote +:+ "a.txt" +:+ dquote
             +:+ ", 'utf8', function (err, out_1) {";
           "  if (err) throw err;";
           "  out_1_1 = out_1;";
           "  if (!--counter_1) actor_1();";
           "});";
           "fs_1.readFile(" +:+ dquote +:+ "b.txt" +:+ dquote
             +:+ ", 'utf8', function (err, out_2) {";
           "  if (err) throw err;";
           "  out_2_1 = out_2;";
           "  if (!--counter_1) actor_1();";
           "});";
           "function actor_1() {";
           "  const out_3 = out_1_1 + out_2_1;";
           "}" ].
Proof. vm_compute. reflexivity. Qed.

(** ** Join synthesis *)

(** C1.  An action with two or more needs is scheduled as a join.
    [resolve_acts] takes a counter symbol, an actor symbol and one capture
    symbol per need from [uid], all distinct and new; it appends the line
    that declares the counter, initialized to the number of needs, and the
    captures; it appends to the root list an action without dependencies
    that emits the head of the actor function, then the body of the
    original action in a context with two spaces of prefix and the rename
    map, then the closing brace; in that context [string] renders the
    symbol of a need as its capture (of the last need with this symbol,
    should two needs share one); and it appends to the queue of the slot of
    each need a helper that emits the copy of the slot into its capture and
    the statement that decrements the counter and calls the actor function
    when the counter is zero. *)
Theorem resolve_act_join_synthesis (act : Action) (st st1 : State)
    (needs : list ValueSlot) :
  collect_needs (wait act) st = Ok (needs, st1) →
  2 ≤ length needs →
  ∃ (kc ka : N) (ks : list N) (st' : State),
    let counterVar := symbol "counter" kc in
    let actorVar := symbol "actor" ka in
    let captures := zip_with symbol (slot <$> needs) ks in
    let actor := join_actor act needs actorVar captures in
    let body_context :=
      mkEmitContext (act_inst act) "  " (Some (capture_map needs captures)) in
    resolve_act act st = Ok (tt, st')
    ∧ length ks = length needs
    ∧ NoDup (counterVar :: actorVar :: captures)
    ∧ (∀ sym, sym ∈ counterVar :: actorVar :: captures → ¬ issued st sym)
    ∧ lines st'
      = lines st ++ ["var " +:+ counterVar +:+ " = " +:+ pretty (length needs)
                     +:+ ", " +:+ join ", " captures +:+ ";"]
    ∧ roots st' = roots st ++ [actor]
    ∧ wait actor = []
    ∧ (∀ fuel es s0,
         Action_emit (S fuel) actor es s0
         = (EmitContext_emit es ("function " +:+ actorVar +:+ "() {") ;;;
            Action_emit (S fuel) act body_context ;;;
            EmitContext_emit es "}") s0)
    ∧ (∀ i need c dep s0 s0',
         needs !! i = Some need → captures !! i = Some c →
         (∀ j need', i < j → needs !! j = Some need' → slot need' ≠ slot need) →
         resolve dep s0 = Ok (TSlot need, s0') →
         EmitContext_string body_context dep s0 = Ok (c, s0'))
    ∧ (∀ s, queued_of st' s
            = queued_of st s
              ++ (join_helper act counterVar actorVar
                    <$> filter (λ nc, sid nc.1 = sid s) (zip needs captures)))
    ∧ (∀ nc fuel es s0,
         Action_emit (S fuel) (join_helper act counterVar actorVar nc) es s0
         = Ok (tt, set_lines
                     (lines s0 ++ [prefix es +:+ nc.2 +:+ " = " +:+ slot nc.1 +:+ ";";
                                   prefix es +:+ "if (!--" +:+ counterVar +:+ ") "
                                   +:+ actorVar +:+ "();"]) s0)).
Proof.
  intros Hneeds Hlen.
  apply collect_needs_emits in Hneeds as Hmemo.
  apply emits_nil_inv in Hmemo as (Hlines & Hroots & Hqueued & HuidMap & _).
  destruct (synthesize_join_run act needs st1)
    as (kc & ka & ks & st' & Hrun & Hks & Hnodup & Hfresh & Hl & Hr & Hq).
  exists kc, ka, ks, st'. simpl.
  split; [|split; [done|split; [done|split; [|split; [|split; [|split;
    [done|split; [done|split; [|split]]]]]]]]].
  - rewrite (resolve_act_needs _ _ _ _ Hneeds).
    by destruct needs as [|n1 [|n2 needs]]; simpl in Hlen; try lia.
  - intros sym Hin (nm & n & Heq & Hn). apply (Hfresh sym Hin).
    exists nm, n. split; [done|]. unfold counter_of in *. by rewrite HuidMap.
  - by rewrite Hl, Hlines.
  - by rewrite Hr, Hroots.
  - intros i need c dep s0 s0' Hneed Hc Hlast Hres.
    rewrite (EmitContext_string_slot _ _ _ _ _ Hres). simpl.
    rewrite (capture_map_lookup _ _ i need c Hneed Hc Hlast).
    apply lookup_zip_with_Some in Hc as (nm & n & -> & _).
    rewrite decide_False; [done|apply symbol_nonempty].
  - intros s. rewrite Hq. unfold queued_of. by rewrite Hqueued.
  - intros nc fuel es s0.
    exact (Action_emit_helper (symbol "counter" kc) (symbol "actor" ka) act nc fuel es s0).
Qed.

Lemma resolve_act_join_synthesis_witness :
  ∃ (kc ka : N) (ks : list N) (st' : State),
    resolve_act join_action join_state = Ok (tt, st')
    ∧ length ks = 2
    ∧ roots st'
      = roots join_state
        ++ [join_actor join_action join_needs (symbol "actor" ka)
              (zip_with symbol (slot <$> join_needs) ks)].
Proof.
  assert (Hneeds : collect_needs (wait join_action) join_state
                   = Ok (join_needs, state_of (collect_needs (wait join_action) join_state)))
    by (vm_compute; reflexivity).
  destruct (resolve_act_join_synthesis join_action join_state _ join_needs Hneeds)
    as (kc & ka & ks & st' & Hrun & Hlen & _ & _ & _ & Hroots & _);
    [simpl; lia|].
  exists kc, ka, ks, st'. split; [exact Hrun|]. split; [exact Hlen|exact Hroots].
Defined.

(** ** The generated lines *)

(** The lines after scheduling and assembly, from any state. *)
Lemma resolve_acts_emit_code_lines (fuel : nat) (st st1 st2 : State) :
  resolve_acts st = Ok (tt, st1) →
  emit_code fuel st1 = Ok (tt, st2) →
  ∃ (effects : list Scheduled) (chunks : list (list string)),
    scheduled_in_order (acts st) st effects st1
    ∧ roots st1 = roots st ++ concat (root_entries <$> effects)
    ∧ emitted_in_order fuel root_context (roots st1)
        (set_lines (lines st ++ concat (declarations <$> effects)
                    ++ (import_line <$> imports st) ++ [""]) st1) chunks st2
    ∧ length chunks = length (roots st1)
    ∧ lines st2
      = lines st ++ concat (declarations <$> effects)
        ++ (import_line <$> imports st) ++ [""] ++ concat chunks.
Proof.
  intros Hsched Hemit.
  apply resolve_acts_same_imports in Hsched as Himports.
  apply resolve_acts_scheduled in Hsched as (effects & Hsched).
  apply scheduled_in_order_effect in Hsched as Heff.
  destruct Heff as (Hroots & Hlines & _).
  apply emit_code_Ok in Hemit as [chunks Hemit].
  rewrite Himports, Hlines, <- !app_assoc in Hemit.
  exists effects, chunks. do 3 (split; [done|]). split.
  - by eapply emitted_in_order_length.
  - apply emitted_in_order_emits in Hemit as [Hl _ _]. simpl in Hl.
    by rewrite Hl, <- !app_assoc.
Qed.

(** C2, as the code has it.  Whatever the registry and the graph, when
    [generate] returns, the lines of the template context are, in this
    order: the declarations of counters and captures of the joins, in the
    order of registration of their actions ([resolve_acts] writes them while
    it schedules, before anything is emitted); one import declaration per
    entry of the import table, which has one entry per library, in the
    order of the table; an empty line; the emissions of the roots -- the
    actions without needs and the actor functions of the joins, in the
    order of registration of their actions.  More fuel gives the same
    lines. *)
Theorem generated_line_sequence (fuel : nat) (components : string → option Defn)
    (ast : list Use) (st2 : State) :
  generate fuel components ast = Ok (tt, st2) →
  ∃ (st st1 : State) (effects : list Scheduled) (chunks : list (list string)),
    for_of ast (expand components) (TemplateContext_new "main") = Ok (tt, st)
    ∧ NoDup (imports st).*1
    ∧ scheduled_in_order (acts st) st effects st1
    ∧ roots st1 = concat (root_entries <$> effects)
    ∧ emitted_in_order fuel root_context (roots st1)
        (set_lines (concat (declarations <$> effects)
                    ++ (import_line <$> imports st) ++ [""]) st1)
        chunks st2
    ∧ length chunks = length (roots st1)
    ∧ lines st2
      = concat (declarations <$> effects) ++ (import_line <$> imports st) ++ [""]
        ++ concat chunks
    ∧ (∀ fuel', fuel ≤ fuel' → generate fuel' components ast = Ok (tt, st2)).
Proof.
  intros Hgen.
  apply generate_Ok in Hgen as Hsteps.
  destruct Hsteps as (st & st1 & Hexp & Hsched & Hemit).
  apply expansion_constructed in Hexp as Hst.
  destruct (resolve_acts_emit_code_lines _ _ _ _ Hsched Hemit)
    as (effects & chunks & Hs & Hroots & Horder & Hlen & Hlines).
  rewrite (constructed_lines _ Hst) in Horder, Hlines.
  rewrite (constructed_roots _ Hst) in Hroots.
  exists st, st1, effects, chunks.
  split; [done|]. split; [apply Hst|]. do 5 (split; [done|]).
  intros fuel' Hle. rewrite <- Hgen. apply generate_fuel; [done|].
  unfold settled. by rewrite Hgen.
Qed.

Lemma generated_line_sequence_witness :
  ∃ (effects : list Scheduled) (chunks : list (list string)),
    length chunks = length (roots main_scheduled)
    ∧ lines main_emitted
      = concat (declarations <$> effects)
        ++ (import_line <$> imports main_expanded) ++ [""] ++ concat chunks.
Proof.
  assert (Hgen : generate 8 Components.components Components.ast
                 = Ok (tt, main_emitted)) by (vm_compute; reflexivity).
  destruct (generated_line_sequence 8 _ _ _ Hgen)
    as (st & st1 & effects & chunks & Hexp & _ & Hsched & _ & Horder
        & Hlen & Hlines & _).
  assert (st = main_expanded) as ->.
  { assert (Hexp' : for_of Components.ast (expand Components.components)
                      (TemplateContext_new "main") = Ok (tt, main_expanded))
      by (vm_compute; reflexivity).
    congruence. }
  assert (roots st1 = roots main_scheduled) as Hroots.
  { apply emitted_in_order_emits in Horder. apply emits_roots in Horder.
    simpl in Horder. rewrite <- Horder. vm_compute. reflexivity. }
  exists effects, chunks. split; [by rewrite <- Hroots|exact Hlines].
Defined.

(** C2 as stated fails on the graph at the end of build.js: its action of
    'cc2' is a join, and the first line of the output is the declaration of
    the counter and the captures of that join; the import declaration is
    the second line. *)
Lemma join_declaration_precedes_imports :
  ∃ st, generate 8 Components.components Components.ast = Ok (tt, st)
    ∧ imports st = [("fs", "fs_1")]
    ∧ lines st !! 0 = Some "var counter_1 = 2, out_5_1, out_4_1;"
    ∧ lines st !! 1 = Some (import_line ("fs", "fs_1"))
    ∧ head (lines st) ≠ Some (import_line ("fs", "fs_1")).
Proof.
  exists (state_of (generate 8 Components.components Components.ast)).
  split; [vm_compute; reflexivity|]. split; [vm_compute; reflexivity|].
  split; [vm_compute; reflexivity|]. split; [vm_compute; reflexivity|].
  vm_compute. discriminate.
Qed.

(** ** Dangling references *)

(** C3, the part that holds.  When the first segment of the path of a
    Reference is not the id of a registered instance, resolving the
    Reference returns [null]: there is no diagnostic, and the state of the
    template context -- the lines of output among it -- is what it was. *)
Theorem dangling_reference_resolves_to_null (r : Reference) (st : State) (id : string) :
  head (ref_path r) = Some id →
  bound st !! id = None →
  Reference_resolve r st = Ok (None, st).
Proof.
  unfold Reference_resolve, resolve_path. intros Hhead Hbound.
  destruct (ref_path r) as [|id' rest]; [done|].
  simpl in Hhead. simplify_eq. by rewrite Hbound.
Qed.

Lemma dangling_reference_resolves_to_null_witness :
  Reference_resolve (Reference_new "nope.out") (TemplateContext_new "main")
  = Ok (None, TemplateContext_new "main").
Proof.
  apply (dangling_reference_resolves_to_null _ _ "nope"); reflexivity.
Defined.

(** C3 as stated fails: in the empty template context the Reference
    'nope.out' names no instance, yet neither resolving it nor compiling a
    graph that uses it ends with a diagnostic (the compilation stops on the
    [TypeError] raised by [Binding.resolve]). *)
Lemma dangling_reference_no_diagnostic :
  bound (TemplateContext_new "main") !! "nope" = None
  ∧ head (ref_path (Reference_new "nope.out")) = Some "nope"
  ∧ (∀ d, Reference_resolve (Reference_new "nope.out") (TemplateContext_new "main")
          ≠ Exit d)
  ∧ generate 8 Components.components
      [Components.use "LogText" "log1" [("in", ref "nope.out")]] = Throw TypeError.
Proof.
  split; [reflexivity|]. split; [reflexivity|]. split; [|vm_compute; reflexivity].
  intros d. vm_compute. discriminate.
Qed.

(** ** Roots and queued actions *)

(** C4.  [resolve_acts] handles an action by the endpoints of its wait list
    that are not constant.  With none, the action is appended to the root
    list; with one, it is appended to the queue of that slot, and whenever
    the slot is triggered it is emitted after the actions queued before it.
    The root list and the queues grow in the order of registration of the
    actions, and [emit_code] emits the roots, all of them, in the order of
    the list, each at top level (empty prefix, no rename map). *)
Theorem resolve_act_root_or_queued (act : Action) (st st1 : State)
    (needs : list ValueSlot) :
  collect_needs (wait act) st = Ok (needs, st1) →
  (needs = [] →
     ∃ st', resolve_act act st = Ok (tt, st')
       ∧ roots st' = roots st ++ [act]
       ∧ queued st' = queued st ∧ lines st' = lines st)
  ∧ (∀ need, needs = [need] →
     ∃ st', resolve_act act st = Ok (tt, st')
       ∧ queued_of st' need = queued_of st need ++ [act]
       ∧ (∀ s, sid s ≠ sid need → queued_of st' s = queued_of st s)
       ∧ roots st' = roots st ∧ lines st' = lines st
       ∧ ∀ fuel es indent s0 s1,
           queued_of s0 need = queued_of st' need →
           emit_triggered fuel es (ObjSlot need) indent s0 = Ok (tt, s1) →
           ∃ s chunks chunk,
             emitted_in_order fuel (triggered_context es indent)
               (queued_of st need) s0 chunks s
             ∧ Action_emit fuel act (triggered_context es indent act) s = Ok (tt, s1)
             ∧ emits s s1 chunk)
  ∧ (∀ s s', resolve_acts s = Ok (tt, s') →
       ∃ effects, scheduled_in_order (acts s) s effects s'
         ∧ roots s' = roots s ++ concat (root_entries <$> effects)
         ∧ ∀ sl, queued_of s' sl
                 = queued_of s sl ++ concat ((λ e, queue_entries e sl) <$> effects))
  ∧ (∀ fuel s s', emit_code fuel s = Ok (tt, s') ↔
       ∃ chunks,
         emitted_in_order fuel root_context (roots s)
           (set_lines (lines s ++ (import_line <$> imports s) ++ [""]) s) chunks s')
  ∧ (∀ a, prefix (root_context a) = "" ∧ captureMap (root_context a) = None).
Proof.
  intros Hneeds.
  apply collect_needs_emits in Hneeds as Hmemo.
  apply emits_nil_inv in Hmemo as (Hlines & Hroots & Hqueued & _).
  split; [|split; [|split; [|split]]].
  - intros ->. eexists. rewrite (resolve_act_needs _ _ _ _ Hneeds).
    split; [reflexivity|]. simpl. by rewrite Hroots.
  - intros need ->. eexists. rewrite (resolve_act_needs _ _ _ _ Hneeds).
    split; [reflexivity|].
    assert (Hq : ∀ s, queued_of st1 s = queued_of st s).
    { intros s. unfold queued_of. by rewrite Hqueued. }
    split; [|split; [|split; [done|split; [done|]]]].
    + rewrite queued_of_push, decide_True by done. by rewrite Hq.
    + intros s Hs. rewrite queued_of_push, decide_False by done. apply Hq.
    + intros fuel es indent s0 s1 Hsame Hrun.
      rewrite emit_triggered_slot, Hsame, queued_of_push, decide_True, Hq in Hrun
        by done.
      apply for_of_emitted_in_order in Hrun as [chunks Hrun].
      apply emitted_in_order_app_inv in Hrun as (s & c1 & c2 & _ & H1 & H2).
      inversion H2 as [|? ? ? s2 ? chunk ? Hact Hemits Hnil]; subst.
      inversion Hnil; subst. eauto 10.
  - intros s s' H. apply resolve_acts_scheduled in H as (effects & H).
    exists effects. split; [done|].
    by apply scheduled_in_order_effect in H as (? & _ & ?).
  - apply emit_code_Ok.
  - done.
Qed.

Lemma resolve_act_root_or_queued_witness :
  (∃ st', resolve_act (nth_action fanout_state 0) fanout_state = Ok (tt, st')
     ∧ roots st' = roots fanout_state ++ [nth_action fanout_state 0])
  ∧ (∃ st', resolve_act (nth_action fanout_state 1) fanout_state = Ok (tt, st')
       ∧ queued_of st' fanout_slot
         = queued_of fanout_state fanout_slot ++ [nth_action fanout_state 1]).
Proof.
  assert (H0 : collect_needs (wait (nth_action fanout_state 0)) fanout_state
               = Ok ([], state_of (collect_needs (wait (nth_action fanout_state 0))
                                     fanout_state)))
    by (vm_compute; reflexivity).
  assert (H1 : collect_needs (wait (nth_action fanout_state 1)) fanout_state
               = Ok ([fanout_slot],
                     state_of (collect_needs (wait (nth_action fanout_state 1))
                                 fanout_state)))
    by (vm_compute; reflexivity).
  split.
  - destruct (resolve_act_root_or_queued _ _ _ _ H0) as (Hroot & _).
    destruct (Hroot eq_refl) as (st' & Hrun & Hroots & _).
    exists st'. split; [exact Hrun|exact Hroots].
  - destruct (resolve_act_root_or_queued _ _ _ _ H1) as (_ & Hqueued & _).
    destruct (Hqueued fanout_slot eq_refl) as (st' & Hrun & Hq & _).
    exists st'. split; [exact Hrun|exact Hq].
Defined.

(** ** Type safety *)

(** C5.  A Binding that is not resolved yet, whose source resolves to a
    terminal endpoint (a slot or a literal) of a type other than the
    declared type of the Binding, does not resolve: [resolve] stops the
    compilation with the type-mismatch diagnostic, which names the field,
    the declared type and the type found.  No endpoint is returned. *)
Theorem binding_type_mismatch_aborts (b : Binding) (st st1 : State)
    (e : Endpoint) (t : Terminal) :
  resolved_of st b = None →
  Source_resolve (to b) st = Ok (Some e, st1) →
  as_terminal e = Some t →
  terminal_type t ≠ binding_type b →
  Binding_resolve b st
  = Exit (TypeMismatch (binding_field b) (binding_type b) (terminal_type t)
            (InstanceContext_path st (binding_inst b))).
Proof.
  intros Hmemo Hsrc Hterm Hne. unfold Binding_resolve. rewrite Hmemo, Hsrc.
  apply Source_resolve_state in Hsrc as ->. rewrite Hterm.
  case_decide; [done|].
  by destruct e; simplify_eq/=.
Qed.

Lemma binding_type_mismatch_aborts_witness :
  Binding_resolve mistyped_binding (TemplateContext_new "main")
  = Exit (TypeMismatch "in" "json" "text" "EncodeJSON:je in main").
Proof.
  apply (binding_type_mismatch_aborts mistyped_binding (TemplateContext_new "main")
           (TemplateContext_new "main")
           (ELit (mkLiteral "text" (VString "{}")))
           (TLit (mkLiteral "text" (VString "{}"))));
    [reflexivity|reflexivity|reflexivity|discriminate].
Defined.

(** ** Memoization *)

(** C6.  A call of [resolve] on a Binding that returns stores the endpoint
    it returns in the Binding; if the Binding was not resolved before, this
    endpoint is the one its source resolves to in the state of the call, and
    it has the declared type.  From then on -- in whatever state the
    Binding still holds that endpoint, and it still holds it after the
    resolution of any dependency, after [resolve_acts] and after
    [emit_code] -- [resolve] returns that endpoint and changes nothing, its
    source is not resolved again.  A Reference stores nothing: its
    [resolve] leaves the state as it is, every unresolved Binding on the
    Reference resolves the path of the Reference in the state of that call,
    and a Reference to a field follows a later declaration of the field. *)
Theorem binding_memoized_reference_not (b : Binding) (st st' : State) (t : Terminal) :
  Binding_resolve b st = Ok (t, st') →
  resolved_of st' b = Some t
  ∧ (resolved_of st b = None →
     terminal_type t = binding_type b
     ∧ ∃ e, Source_resolve (to b) st = Ok (Some e, st) ∧ as_terminal e = Some t)
  ∧ (∀ st2, resolved_of st2 b = Some t → Binding_resolve b st2 = Ok (t, st2))
  ∧ (∀ dep st1 t1 st2, resolved_of st1 b = Some t →
       resolve dep st1 = Ok (t1, st2) → resolved_of st2 b = Some t)
  ∧ (∀ st1 st2, resolved_of st1 b = Some t →
       resolve_acts st1 = Ok (tt, st2) → resolved_of st2 b = Some t)
  ∧ (∀ fuel st1 st2, resolved_of st1 b = Some t →
       emit_code fuel st1 = Ok (tt, st2) → resolved_of st2 b = Some t)
  ∧ (∀ r st1 e st2, Reference_resolve r st1 = Ok (e, st2) → st2 = st1)
  ∧ (∀ r b2 st1 t2 st2, to b2 = SrcRef r → resolved_of st1 b2 = None →
       Binding_resolve b2 st1 = Ok (t2, st2) →
       ∃ e, Reference_resolve r st1 = Ok (Some e, st1) ∧ as_terminal e = Some t2)
  ∧ (∀ r id field inst type st1, ref_path r = [id; field] →
       bound st1 !! id = Some inst →
       ∃ dep st2, cs_output inst field type st1 = Ok (dep, st2)
         ∧ Reference_resolve r st2 = Ok (Some (ESlot dep), st2)).
Proof.
  intros Hres.
  split; [|split; [|split; [|split; [|split; [|split; [|split; [|split]]]]]]].
  - apply Binding_resolve_Ok in Hres as [[Hmemo ->]|(_ & -> & _)]; [done|].
    unfold resolved_of. simpl. apply lookup_insert_eq.
  - intros Hnone.
    apply Binding_resolve_Ok in Hres as [[Hmemo _]|(_ & _ & Htype & Hsrc)];
      [congruence|done].
  - intros st2. apply Binding_resolve_memo.
  - intros dep st1 t1 st2 Hmemo H.
    apply resolve_memo_kept in H. by eapply memo_kept_resolved_of.
  - intros st1 st2 Hmemo H.
    apply resolve_acts_memo_kept in H. by eapply memo_kept_resolved_of.
  - intros fuel st1 st2 Hmemo H.
    apply emit_code_memo_kept in H. by eapply memo_kept_resolved_of.
  - intros r st1 e st2. apply resolve_path_state.
  - intros r b2 st1 t2 st2 Hto Hnone H.
    apply Binding_resolve_Ok in H as [[Hmemo _]|(_ & _ & _ & e & Hsrc & Hterm)].
    + congruence.
    + rewrite Hto in Hsrc. eauto.
  - intros r id field inst type st1 Hpath Hbound.
    destruct (cs_output_run inst field type st1) as (dep & st2 & Hrun & _ & Hfield & Hb).
    exists dep, st2. split; [done|].
    unfold Reference_resolve, resolve_path. rewrite Hpath, Hb, Hbound. simpl.
    by rewrite Hfield.
Qed.

Lemma binding_memoized_reference_not_witness :
  Binding_resolve filename_binding (TemplateContext_new "main")
  = Ok (filename_literal, filename_resolved)
  ∧ resolved_of filename_resolved filename_binding = Some filename_literal
  ∧ Binding_resolve filename_binding filename_resolved
    = Ok (filename_literal, filename_resolved).
Proof.
  assert (Hrun : Binding_resolve filename_binding (TemplateContext_new "main")
                 = Ok (filename_literal, filename_resolved)) by reflexivity.
  destruct (binding_memoized_reference_not filename_binding _ _ _ Hrun)
    as (Hmemo & _ & Hagain & _).
  split; [exact Hrun|]. split; [exact Hmemo|].
  exact (Hagain filename_resolved Hmemo).
Defined.

(** ** Triggered slots *)

(** C7.  Triggering a ValueSlot (whose mode is always 'once') emits the
    actions of its queue, all of them and in the order of the queue, each in
    a context whose prefix is the prefix of the triggering context followed
    by the indent argument of the call -- the prefix of the triggering
    context itself when that indent is empty: the call returns exactly when
    these emissions, run one after the other, all return, and the lines it
    appends are theirs in that order.  The queues are built by [resolve_acts], which appends to
    them in the order of registration of the actions.  When the queues hold
    no actor function (the queues that
    [resolve_acts] builds hold none), every line the call appends starts
    with that prefix.  Triggering any object that is not a slot of mode
    'once' stops the compilation with the diagnostic of [emit_triggered]. *)
Theorem emit_triggered_queue_order (fuel : nat) (es : EmitContext) (r : Obj)
    (indent : string) (st : State) :
  (∀ s, r = ObjSlot s →
     obj_mode r = Some "once"
     ∧ ∀ st', emit_triggered fuel es r indent st = Ok (tt, st') ↔
         ∃ chunks,
           emitted_in_order fuel (triggered_context es indent) (queued_of st s)
             st chunks st'
           ∧ length chunks = length (queued_of st s)
           ∧ lines st' = lines st ++ concat chunks)
  ∧ (∀ act, prefix (triggered_context es indent act) = prefix es +:+ indent)
  ∧ (indent = "" → ∀ act, prefix (triggered_context es indent act) = prefix es)
  ∧ (queues_actor_free st → ∀ st',
     emit_triggered fuel es r indent st = Ok (tt, st') →
     ∃ ls, lines st' = lines st ++ ls
       ∧ Forall (has_prefix (prefix es +:+ indent)) ls)
  ∧ (∀ s0 s1, resolve_acts s0 = Ok (tt, s1) →
       ∃ effects, scheduled_in_order (acts s0) s0 effects s1
         ∧ ∀ s, queued_of s1 s
                = queued_of s0 s ++ concat ((λ e, queue_entries e s) <$> effects))
  ∧ (¬ (obj_is r = "slot" ∧ obj_mode r = Some "once") →
     emit_triggered fuel es r indent st = Exit RequiresLocalSlot).
Proof.
  split; [|split; [|split; [|split; [|split]]]].
  - intros s ->. split; [done|]. intros st'. rewrite emit_triggered_slot. split.
    + intros [chunks Hc]%for_of_emitted_in_order. exists chunks.
      split; [done|]. split.
      * by eapply emitted_in_order_length.
      * by apply emitted_in_order_emits in Hc as [].
    + intros (chunks & Hc & _). by eapply emitted_in_order_for_of.
  - done.
  - intros -> act. simpl. apply app_s_nil.
  - intros Hq st' Hrun.
    apply emit_triggered_prefixed in Hrun as (ls & [Hl _ _] & Hp); [|done].
    by exists ls.
  - intros s0 s1 H. apply resolve_acts_scheduled in H as (effects & H).
    exists effects. split; [done|].
    by apply scheduled_in_order_effect in H as (_ & _ & ?).
  - intros Hr. apply emit_triggered_not_slot. intros s ->. by apply Hr.
Qed.

Lemma emit_triggered_queue_order_witness :
  ∃ st' chunks,
    emitted_in_order 2 (triggered_context producer_context "  ")
      (queued_of fanout_scheduled fanout_slot) fanout_scheduled chunks st'
    ∧ length chunks = 2
    ∧ lines st' = lines fanout_scheduled ++ concat chunks.
Proof.
  destruct (emit_triggered_queue_order 2 producer_context (ObjSlot fanout_slot)
              "  " fanout_scheduled) as (Hslot & _).
  destruct (Hslot fanout_slot eq_refl) as (_ & Hiff).
  set (st' := state_of (emit_triggered 2 producer_context (ObjSlot fanout_slot)
                          "  " fanout_scheduled)).
  assert (Hrun : emit_triggered 2 producer_context (ObjSlot fanout_slot) "  "
                   fanout_scheduled = Ok (tt, st'))
    by (vm_compute; reflexivity).
  apply Hiff in Hrun as (chunks & Horder & Hlen & Hlines).
  exists st', chunks. split; [exact Horder|]. split; [|exact Hlines].
  rewrite Hlen. vm_compute. reflexivity.
Defined.

(** C7 as stated fails on the components of the registry: ParseJSON,
    EncodeJSON and ConcatText trigger their output with an empty indent, and
    the actions queued on it are then emitted at the level of the triggering
    context, not one level deeper.  Here the callback of a ParseJSON runs
    with a prefix of two spaces and triggers its output; the line of the
    encoder queued on it starts with these two spaces and with nothing
    more. *)
Lemma emit_triggered_empty_indent_same_level :
  prefix parser_context = "  "
  ∧ (∃ st', emit_triggered 2 parser_context (ObjSlot parsed_slot) "" parse_scheduled
            = Ok (tt, st')
            ∧ lines st' = lines parse_scheduled ++ [encoder_line])
  ∧ prefix (triggered_context parser_context "" (nth_action parse_state 2))
    = prefix parser_context
  ∧ ¬ has_prefix (prefix parser_context +:+ " ") encoder_line.
Proof.
  split; [reflexivity|]. split; [|split; [reflexivity|]].
  - exists (state_of (emit_triggered 2 parser_context (ObjSlot parsed_slot) ""
                        parse_scheduled)).
    split; vm_compute; reflexivity.
  - intros [rest Hrest]. vm_compute in Hrest. discriminate Hrest.
Qed.

(** ** Inputs *)

(** C8.  When the argument map of the use-site has no entry for the field
    of an input declaration: with a default, [input] returns a new,
    unresolved Binding of the declared type whose source is a literal that
    holds the default (of type 'text' for a string, of its [typeof]
    otherwise) and registers it in the template; without a default, it stops
    the compilation with the missing-field diagnostic. *)
Theorem input_default_or_missing_field (cs : InstanceContext) (nm type : string)
    (st : State) :
  args cs !! nm = None →
  (∀ d : JsValue, ∃ (b : Binding) (st' : State),
      cs_input cs nm type (Some d) st = Ok (b, st')
      ∧ to b = SrcLit (mkLiteral (match d with VString _ => "text" | _ => typeof d end) d)
      ∧ binding_type b = type ∧ binding_field b = nm ∧ binding_inst b = cs
      ∧ resolved_of st' b = None
      ∧ bindings st' = bindings st ++ [b])
  ∧ cs_input cs nm type None st = Exit (MissingField nm (InstanceContext_path st cs)).
Proof.
  intros Hargs. split.
  - intros d. unfold cs_input, bind_to, Binding_new, bind at 1. rewrite Hargs.
    destruct d; (eexists _, _; split; [reflexivity|]);
      (repeat split; try done);
      unfold resolved_of; simpl; apply lookup_delete_eq.
  - unfold cs_input, bind_to, Binding_new, bind at 1. by rewrite Hargs.
Qed.

Lemma input_default_or_missing_field_witness :
  (∃ (b : Binding) (st' : State),
      cs_input bare_instance "alpha" "boolean" (Some (VBool false))
        (TemplateContext_new "main")
      = Ok (b, st')
      ∧ to b = SrcLit (mkLiteral "boolean" (VBool false)))
  ∧ cs_input bare_instance "alpha" "boolean" None (TemplateContext_new "main")
    = Exit (MissingField "alpha" "WebGLCanvas:canvas in main").
Proof.
  destruct (input_default_or_missing_field bare_instance "alpha" "boolean"
              (TemplateContext_new "main") eq_refl) as [Hdef Hmiss].
  split; [|exact Hmiss].
  destruct (Hdef (VBool false)) as (b & st' & Hrun & Hto & _).
  exists b, st'. by split.
Defined.

(** ** The rename map *)

(** C9.  From a context that carries a rename map, [emit_triggered] builds
    the contexts of the queued actions without it: the outcome of the call
    is the one of the same call from a context without a map, the queued
    actions run in contexts whose map is absent, and in such a context
    [string] renders a slot by its own symbol.  The map is only used by the
    calls of [string] on the context that carries it. *)
Theorem emit_triggered_drops_rename_map (fuel : nat) (es : EmitContext)
    (captures : gmap string string) (r : Obj) (indent : string) (st : State) :
  captureMap es = Some captures →
  emit_triggered fuel es r indent st
  = emit_triggered fuel (mkEmitContext (es_inst es) (prefix es) None) r indent st
  ∧ (∀ s st', r = ObjSlot s →
       emit_triggered fuel es r indent st = Ok (tt, st') →
       ∃ chunks, emitted_in_order fuel (triggered_context es indent)
                   (queued_of st s) st chunks st')
  ∧ (∀ act, captureMap (triggered_context es indent act) = None)
  ∧ (∀ act dep s st1 st2,
       resolve dep st1 = Ok (TSlot s, st2) →
       EmitContext_string (triggered_context es indent act) dep st1
       = Ok (slot s, st2))
  ∧ (∀ dep s rename st1 st2,
       resolve dep st1 = Ok (TSlot s, st2) →
       captures !! slot s = Some rename → rename ≠ "" →
       EmitContext_string es dep st1 = Ok (rename, st2)).
Proof.
  intros Hcm. split; [|split; [|split; [|split]]].
  - by destruct r.
  - intros s st' ->. rewrite emit_triggered_slot.
    apply for_of_emitted_in_order.
  - done.
  - intros act dep s st1 st2 Hres.
    by rewrite (EmitContext_string_slot _ _ _ _ _ Hres).
  - intros dep s rename st1 st2 Hres Hlook Hne.
    rewrite (EmitContext_string_slot _ _ _ _ _ Hres), Hcm, Hlook.
    by case_decide.
Qed.

Lemma emit_triggered_drops_rename_map_witness :
  emit_triggered 2 renaming_context (ObjSlot fanout_slot) "" fanout_scheduled
  = emit_triggered 2 (mkEmitContext (es_inst renaming_context) "  " None)
      (ObjSlot fanout_slot) "" fanout_scheduled
  ∧ EmitContext_string renaming_context (RSlot fanout_slot) fanout_scheduled
    = Ok ("out_1_1", fanout_scheduled)
  ∧ EmitContext_string
      (triggered_context renaming_context "" (nth_action fanout_state 1))
      (RSlot fanout_slot) fanout_scheduled
    = Ok ("out_1", fanout_scheduled).
Proof.
  destruct (emit_triggered_drops_rename_map 2 renaming_context
              {[ slot fanout_slot := "out_1_1" ]} (ObjSlot fanout_slot) ""
              fanout_scheduled eq_refl) as (Hsame & _ & _ & Hplain & Hrename).
  split; [exact Hsame|]. split.
  - apply (Hrename (RSlot fanout_slot) fanout_slot); [reflexivity|reflexivity|discriminate].
  - apply (Hplain (nth_action fanout_state 1) (RSlot fanout_slot) fanout_slot).
    reflexivity.
Defined.

(** ** Unique symbols *)

(** C10.  Whatever the state of the template context and whatever the
    sequence of base names [uid] is called with, every call succeeds and
    returns its base name, an underscore and the decimal text of a counter;
    the counters of one base name strictly increase along the sequence; the
    returned symbols are pairwise distinct, across base names too (the text
    of a counter has no underscore, so a symbol determines its base name and
    its counter), and none of them was handed out before the sequence. *)
Theorem uid_symbols_pairwise_distinct (st : State) (names : list string) :
  ∃ (ns : list N) (st' : State),
    map_of names uid st = Ok (zip_with symbol names ns, st')
    ∧ length ns = length names
    ∧ (∀ i j nm ni nj, i < j → names !! i = Some nm → names !! j = Some nm →
         ns !! i = Some ni → ns !! j = Some nj → (ni < nj)%N)
    ∧ NoDup (zip_with symbol names ns)
    ∧ (∀ sym, sym ∈ zip_with symbol names ns → ¬ issued st sym)
    ∧ (∀ nm1 nm2 n1 n2, symbol nm1 n1 = symbol nm2 n2 → nm1 = nm2 ∧ n1 = n2).
Proof.
  destruct (uid_sequence names st) as (ns & st' & Hrun & Hlen & Hrange & Hinc & _ & _).
  exists ns, st'. do 3 (split; [done|]). split; [|split].
  - apply NoDup_alt. intros i j sym Hi Hj.
    apply lookup_zip_with_Some in Hi as (nm1 & n1 & -> & Hnm1 & Hn1).
    apply lookup_zip_with_Some in Hj as (nm2 & n2 & Heq & Hnm2 & Hn2).
    apply symbol_inj in Heq as [<- <-].
    destruct (Nat.lt_trichotomy i j) as [Hlt|[->|Hlt]]; [|done|].
    + specialize (Hinc i j nm1 n1 n1 Hlt Hnm1 Hnm2 Hn1 Hn2). lia.
    + specialize (Hinc j i nm1 n1 n1 Hlt Hnm2 Hnm1 Hn2 Hn1). lia.
  - intros sym Hin (nm' & n' & Heq & Hn').
    apply list_elem_of_lookup in Hin as [i Hi].
    apply lookup_zip_with_Some in Hi as (nm & n & -> & Hnm & Hn).
    apply symbol_inj in Heq as [<- <-].
    specialize (Hrange i nm n Hnm Hn). lia.
  - apply symbol_inj.
Qed.

(** * Further properties of the code *)

(** ** References and paths *)

(** X1.  The path a Reference is built with, joined with dots again as the
    diagnostic of [resolve_path] prints it, is the name of the Reference,
    and the path has at least one segment. *)
Theorem reference_path_joins_to_name (nm : string) :
  join "." (ref_path (Reference_new nm)) = nm
  ∧ ref_path (Reference_new nm) ≠ []
  ∧ ref_name (Reference_new nm) = nm.
Proof.
  split; [|split; [|done]].
  - exact (join_split_go "." "" nm).
  - apply split_go_nonempty.
Qed.

(** X2.  What [resolve_path] returns, when it returns an object: the
    instance registered under the id for a path of one segment, the output
    registered under the field of that instance for a path of two segments.
    It returns nothing else: never a literal, and no object for a longer
    path.  The state is left as it is. *)
Theorem resolve_path_instance_or_output (path : list string) (st st' : State)
    (e : Endpoint) :
  resolve_path path st = Ok (Some e, st') →
  st' = st
  ∧ ((∃ id inst, path = [id] ∧ bound st !! id = Some inst ∧ e = EInst inst)
     ∨ (∃ id field inst s,
          path = [id; field] ∧ bound st !! id = Some inst
          ∧ fields_of st inst !! field = Some s ∧ e = ESlot s)).
Proof.
  intros H. assert (st' = st) as -> by (by apply resolve_path_state in H).
  split; [done|]. unfold resolve_path in H. destruct path as [|id rest]; [done|].
  destruct (bound st !! id) as [inst|] eqn:Hid; [|done].
  destruct (resolve_fields st (id :: rest) (EInst inst) rest) as [e'| | |] eqn:Hf;
    try done.
  injection H as ->. destruct rest as [|field rest]; simpl in Hf.
  - left. simplify_eq. eauto.
  - right. destruct (fields_of st inst !! field) as [s|] eqn:Hfield; [|done].
    apply resolve_fields_slot in Hf as [-> ->]. eauto 10.
Qed.

Lemma resolve_path_instance_or_output_witness :
  rd_state = rd_state
  ∧ ((∃ id inst, ["rd"; "out"] = [id] ∧ bound rd_state !! id = Some inst
                 ∧ ESlot rd_out = EInst inst)
     ∨ (∃ id field inst s,
          ["rd"; "out"] = [id; field] ∧ bound rd_state !! id = Some inst
          ∧ fields_of rd_state inst !! field = Some s ∧ ESlot rd_out = ESlot s)).
Proof.
  apply (resolve_path_instance_or_output ["rd"; "out"] rd_state rd_state (ESlot rd_out)).
  reflexivity.
Defined.

(** X3.  A path that goes on after the field of an instance stops the
    compilation, whatever follows: with the unknown-field diagnostic when
    the instance has no such output, else with the diagnostic that the
    object has no fields, which carries the whole path. *)
Theorem resolve_path_beyond_output (id field next : string) (rest : list string)
    (inst : InstanceContext) (st : State) :
  bound st !! id = Some inst →
  resolve_path (id :: field :: next :: rest) st
  = match fields_of st inst !! field with
    | Some _ => Exit (NoFields (id :: field :: next :: rest))
    | None => Exit (NoSuchField field (InstanceContext_path st inst))
    end.
Proof.
  intros Hid. unfold resolve_path. rewrite Hid. simpl.
  by destruct (fields_of st inst !! field).
Qed.

Lemma resolve_path_beyond_output_witness :
  resolve_path ["rd"; "out"; "length"] rd_state
  = Exit (NoFields ["rd"; "out"; "length"]).
Proof.
  exact (resolve_path_beyond_output "rd" "out" "length" [] rd_instance rd_state eq_refl).
Defined.

(** X4.  A Binding whose source is a Reference to an instance (a path of
    one segment) never resolves: an instance has no [type], and the
    compilation stops with the type-mismatch diagnostic that reports the
    found type as 'undefined'.  Nothing is memoized. *)
Theorem binding_to_instance_mismatch (b : Binding) (r : Reference) (id : string)
    (inst : InstanceContext) (st : State) :
  to b = SrcRef r → ref_path r = [id] → bound st !! id = Some inst →
  resolved_of st b = None →
  Binding_resolve b st
  = Exit (TypeMismatch (binding_field b) (binding_type b) "undefined"
            (InstanceContext_path st (binding_inst b))).
Proof.
  intros Hto Hpath Hid Hmemo. unfold Binding_resolve. rewrite Hmemo, Hto. simpl.
  unfold Reference_resolve, resolve_path. rewrite Hpath, Hid. done.
Qed.

Lemma binding_to_instance_mismatch_witness :
  Binding_resolve instance_binding rd_state
  = Exit (TypeMismatch "in" "text" "undefined" "LogText:log in main").
Proof.
  exact (binding_to_instance_mismatch instance_binding (Reference_new "rd") "rd"
           rd_instance rd_state eq_refl eq_refl eq_refl eq_refl).
Defined.

(** X5.  A Binding whose source is a Reference to an id that no instance is
    registered under raises a TypeError when it is resolved, and so does
    the rendering of the Binding by [string] and the scheduling of an action
    that waits for it first. *)
Theorem binding_to_unknown_instance_throws (b : Binding) (r : Reference)
    (id : string) (rest : list string) (st : State) :
  to b = SrcRef r → ref_path r = id :: rest → bound st !! id = None →
  resolved_of st b = None →
  Binding_resolve b st = Throw TypeError
  ∧ (∀ es, EmitContext_string es (RBinding b) st = Throw TypeError)
  ∧ (∀ act deps, wait act = RBinding b :: deps → resolve_act act st = Throw TypeError).
Proof.
  intros Hto Hpath Hid Hmemo.
  assert (Hthrow : Binding_resolve b st = Throw TypeError).
  { unfold Binding_resolve. rewrite Hmemo, Hto. simpl.
    unfold Reference_resolve, resolve_path. by rewrite Hpath, Hid. }
  split; [done|]. split.
  - intros es. unfold EmitContext_string, bind. simpl. by rewrite Hthrow.
  - intros act deps Hwait. unfold resolve_act, bind. rewrite Hwait. simpl.
    unfold bind. by rewrite Hthrow.
Qed.

Lemma binding_to_unknown_instance_throws_witness :
  Binding_resolve dangling_binding rd_state = Throw TypeError.
Proof.
  exact (proj1 (binding_to_unknown_instance_throws dangling_binding
                  (Reference_new "nope.out") "nope" ["out"] rd_state
                  eq_refl eq_refl eq_refl eq_refl)).
Defined.

(** ** The table of the instances *)

(** X6.  Once [bind_inst] has registered an instance under an id, the path
    made of that id resolves to the instance, a second registration under
    the id stops the compilation with the duplicate-id diagnostic, and the
    other ids are bound as before. *)
Theorem bind_inst_registers_once (id : string) (inst : InstanceContext)
    (st st' : State) :
  bind_inst id inst st = Ok (tt, st') →
  bound st !! id = None
  ∧ resolve_path [id] st' = Ok (Some (EInst inst), st')
  ∧ (∀ inst', bind_inst id inst' st'
              = Exit (DuplicateId id (InstanceContext_path st' inst')))
  ∧ (∀ id', id' ≠ id → bound st' !! id' = bound st !! id').
Proof.
  unfold bind_inst. destruct (bound st !! id) eqn:Hid; [done|].
  intros [= <-]. split; [done|]. split; [|split].
  - unfold resolve_path. simpl. by rewrite lookup_insert_eq.
  - intros inst'. simpl. by rewrite lookup_insert_eq.
  - intros id' Hne. simpl. by rewrite lookup_insert_ne.
Qed.

Lemma bind_inst_registers_once_witness :
  resolve_path ["rd"] rd_state = Ok (Some (EInst rd_instance), rd_state)
  ∧ bind_inst "rd" bare_instance rd_state
    = Exit (DuplicateId "rd" "WebGLCanvas:canvas in main").
Proof.
  destruct (bind_inst_registers_once "rd" rd_instance
              (set_fields {[ 0 := {[ "out" := rd_out ]} ]} (TemplateContext_new "main"))
              rd_state eq_refl) as (_ & Hpath & Hdup & _).
  split; [exact Hpath|exact (Hdup bare_instance)].
Defined.

(** X7.  [generate] only returns on a graph whose ids are pairwise distinct
    and whose kinds are all registered; the table of the template then binds
    the id of every use-site to an instance that carries the arguments of
    the use-site and the text 'kind:id', and binds no other id. *)
Theorem generate_instance_table (fuel : nat) (components : string → option Defn)
    (ast : list Use) (st : State) :
  generate fuel components ast = Ok (tt, st) →
  NoDup (use_id <$> ast)
  ∧ (∀ item, item ∈ ast →
       is_Some (components (use_is item))
       ∧ ∃ inst, resolve_path [use_id item] st = Ok (Some (EInst inst), st)
                 ∧ args inst = use_args item
                 ∧ where_ inst = use_is item +:+ ":" +:+ use_id item)
  ∧ (∀ id, id ∉ use_id <$> ast → resolve_path [id] st = Ok (None, st)).
Proof.
  intros (st0 & st1 & Hexp & Hsched & Hemit)%generate_Ok.
  apply expansion_instances in Hexp as (_ & Hnodup & _ & Hother & Hitems).
  apply resolve_acts_extends in Hsched as [_ Hb1 _ _ _ _ _ _ _ _ _ _].
  apply emit_code_emits in Hemit as [ls Hemit].
  apply emits_extends in Hemit as [_ Hb2 _ _ _ _ _ _ _ _ _ _].
  assert (Hbound : bound st = bound st0) by congruence.
  split; [done|]. split.
  - intros item Hin. destruct (Hitems item Hin) as (Hdefn & inst & Hid & Hargs & Hwhere).
    split; [done|]. exists inst. split; [|done].
    unfold resolve_path. by rewrite Hbound, Hid.
  - intros id Hid. unfold resolve_path. by rewrite Hbound, (Hother id Hid).
Qed.

Lemma generate_instance_table_witness : NoDup (use_id <$> fanout_ast).
Proof.
  apply (generate_instance_table 8 Components.components fanout_ast
           (state_of (generate 8 Components.components fanout_ast))).
  vm_compute. reflexivity.
Defined.

(** X8.  [generate] stops at the first use-site whose kind is not in the
    registry, with the missing-definition diagnostic that names the kind. *)
Theorem generate_missing_defn (fuel : nat) (components : string → option Defn)
    (pre post : list Use) (item : Use) (st : State) :
  for_of pre (expand components) (TemplateContext_new "main") = Ok (tt, st) →
  components (use_is item) = None →
  generate fuel components (pre ++ item :: post) = Exit (MissingDefn (use_is item)).
Proof.
  intros Hpre Hkind. unfold generate, bind at 1. rewrite for_of_app.
  rewrite (bind_Ok _ _ _ _ _ Hpre). simpl. unfold bind at 1, expand.
  by rewrite Hkind.
Qed.

Lemma generate_missing_defn_witness :
  generate 8 Components.components (fanout_ast ++ [unregistered_use])
  = Exit (MissingDefn "DOMCanvas").
Proof.
  apply (generate_missing_defn 8 Components.components fanout_ast [] unregistered_use
           fanout_state).
  - vm_compute. reflexivity.
  - reflexivity.
Defined.

(** X9.  [generate] stops at the first use-site of a registered kind whose
    id was used by an earlier use-site, with the duplicate-id diagnostic
    that names the id and the second use-site. *)
Theorem generate_duplicate_id (fuel : nat) (components : string → option Defn)
    (pre post : list Use) (item : Use) (st : State) :
  for_of pre (expand components) (TemplateContext_new "main") = Ok (tt, st) →
  is_Some (components (use_is item)) →
  use_id item ∈ use_id <$> pre →
  generate fuel components (pre ++ item :: post)
  = Exit (DuplicateId (use_id item)
            (use_is item +:+ ":" +:+ use_id item +:+ " in main")).
Proof.
  intros Hpre [defn Hkind] (item' & Heq & Hin)%list_elem_of_fmap.
  unfold generate, bind at 1. rewrite for_of_app.
  rewrite (bind_Ok _ _ _ _ _ Hpre). simpl. unfold bind at 1, expand.
  rewrite Hkind.
  apply expansion_instances in Hpre as (Hname & _ & _ & _ & Hitems).
  destruct (Hitems item' Hin) as (_ & inst & Hid & _).
  unfold bind at 1, InstanceContext_new. unfold bind at 1, bind_inst. simpl.
  rewrite Heq, Hid. unfold InstanceContext_path. simpl. rewrite Hname. simpl.
  by rewrite app_assoc_s.
Qed.

Lemma generate_duplicate_id_witness :
  generate 8 Components.components (fanout_ast ++ [duplicate_use])
  = Exit (DuplicateId "log1" "LogText:log1 in main").
Proof.
  apply (generate_duplicate_id 8 Components.components fanout_ast [] duplicate_use
           fanout_state).
  - vm_compute. reflexivity.
  - by eexists.
  - vm_compute. do 1 right. left.
Defined.

(** ** The API of component definitions *)

(** X10.  [cs.slot] always returns: a slot of the given type and field name
    that belongs to the instance, under a symbol that was not handed out
    before, with an empty queue.  The slot is private: it is not entered
    among the fields of the instance, so every path resolves after the call
    as it did before. *)
Theorem cs_slot_is_private (cs : InstanceContext) (nm type : string) (st : State) :
  ∃ (s : ValueSlot) (st' : State),
    cs_slot cs nm type st = Ok (s, st')
    ∧ slot_type s = type ∧ slot_field s = nm ∧ slot_inst s = cs
    ∧ ¬ issued st (slot s) ∧ issued st' (slot s)
    ∧ queued_of st' s = []
    ∧ fields st' = fields st
    ∧ ∀ path,
        resolve_path path st'
        = match resolve_path path st with
          | Ok (e, _) => Ok (e, st')
          | Exit d => Exit d
          | Throw e => Throw e
          | OutOfFuel => OutOfFuel
          end.
Proof.
  eexists _, _. split; [reflexivity|].
  destruct (uid_issued nm _ st _ eq_refl) as (Hnew & Hsym & Hmono & _ & _).
  do 3 (split; [done|]). split; [done|]. split; [done|].
  split. { unfold queued_of. simpl. by rewrite lookup_insert_eq. }
  split; [done|].
  intros path. unfold resolve_path. destruct path as [|id rest]; [done|].
  simpl. destruct (bound st !! id) as [inst|]; [|done].
  rewrite (resolve_fields_ext st); [|done..].
  by destruct (resolve_fields st (id :: rest) (EInst inst) rest).
Qed.

(** X11.  [cs.output] always returns: a slot of the given type and field
    name that belongs to the instance, under a symbol that was not handed
    out before, with an empty queue.  The slot becomes the field of that
    name of the instance, in the place of an earlier output of the same
    name; the other fields of all instances are as before, and the path
    'id.name' resolves to the slot for every id the instance is registered
    under. *)
Theorem cs_output_registers_field (cs : InstanceContext) (nm type : string)
    (st : State) :
  ∃ (dep : ValueSlot) (st' : State),
    cs_output cs nm type st = Ok (dep, st')
    ∧ slot_type dep = type ∧ slot_field dep = nm ∧ slot_inst dep = cs
    ∧ ¬ issued st (slot dep) ∧ issued st' (slot dep)
    ∧ queued_of st' dep = []
    ∧ fields_of st' cs !! nm = Some dep
    ∧ (∀ inst field, iid inst ≠ iid cs ∨ field ≠ nm →
         fields_of st' inst !! field = fields_of st inst !! field)
    ∧ (∀ id, bound st !! id = Some cs →
         resolve_path [id; nm] st' = Ok (Some (ESlot dep), st')).
Proof.
  set (st2 := set_next_oid (S (next_oid st))
                (set_queued (<[next_oid st := []]> (queued st))
                   (set_uidMap (<[nm := (counter_of st nm + 1)%N]> (uidMap st)) st))).
  set (dep := mkSlot (next_oid st) type (symbol nm (counter_of st nm + 1)) nm cs).
  set (st3 := set_fields (<[iid cs := <[nm := dep]> (fields_of st2 cs)]> (fields st2))
                st2).
  exists dep, st3. split; [reflexivity|].
  destruct (uid_issued nm _ st _ eq_refl) as (Hnew & Hsym & Hmono & _ & _).
  do 3 (split; [done|]). split; [done|]. split; [done|].
  split. { unfold queued_of. simpl. by rewrite lookup_insert_eq. }
  assert (Hfield : ∀ inst field,
    fields_of st3 inst !! field
    = if decide (iid inst = iid cs ∧ field = nm) then Some dep
      else fields_of st inst !! field).
  { intros inst field. apply (fields_of_output st2). }
  split; [|split].
  - rewrite Hfield. by rewrite decide_True.
  - intros inst field Hne. rewrite Hfield.
    rewrite decide_False; [done|]. intros [? ?]. by destruct Hne.
  - intros id Hid. unfold resolve_path.
    change (bound st3 !! id) with (bound st !! id). rewrite Hid.
    change (resolve_fields st3 [id; nm] (EInst cs) [nm])
      with (match fields_of st3 cs !! nm with
            | None => Exit (NoSuchField nm (InstanceContext_path st3 cs))
            | Some got => Ok (ESlot got)
            end).
    rewrite Hfield. by rewrite decide_True.
Qed.

(** X12.  In the state that the expansion of a graph leaves, whatever the
    registry: two paths that resolve to outputs with the same symbol resolve
    to the same slot, and the symbol of every output a path resolves to was
    handed out by [uid]. *)
Theorem outputs_have_distinct_symbols (components : string → option Defn)
    (ast : list Use) (st : State) :
  for_of ast (expand components) (TemplateContext_new "main") = Ok (tt, st) →
  (∀ path1 path2 s1 s2,
     resolve_path path1 st = Ok (Some (ESlot s1), st) →
     resolve_path path2 st = Ok (Some (ESlot s2), st) →
     slot s1 = slot s2 → s1 = s2)
  ∧ (∀ path s, resolve_path path st = Ok (Some (ESlot s), st) → issued st (slot s)).
Proof.
  intros [Hissued Hdistinct]%expansion_named.
  assert (Hfield : ∀ path s,
    resolve_path path st = Ok (Some (ESlot s), st) →
    ∃ i fm f, fields st !! i = Some fm ∧ fm !! f = Some s).
  { intros path s H. unfold resolve_path in H.
    destruct path as [|id rest]; [done|].
    destruct (bound st !! id) as [inst|]; [|done].
    destruct (resolve_fields st (id :: rest) (EInst inst) rest) as [e| | |] eqn:Hf;
      try done.
    injection H as ->. destruct rest as [|field rest]; simpl in Hf; [done|].
    destruct (fields_of st inst !! field) as [s'|] eqn:Hs; [|done].
    apply resolve_fields_slot in Hf as [_ [= ->]].
    unfold fields_of in Hs. destruct (fields st !! iid inst) as [fm|] eqn:Hi; [|done].
    eauto. }
  split.
  - intros path1 path2 s1 s2 (i1 & fm1 & f1 & Hi1 & Hf1)%Hfield
      (i2 & fm2 & f2 & Hi2 & Hf2)%Hfield.
    exact (Hdistinct i1 fm1 f1 s1 i2 fm2 f2 s2 Hi1 Hf1 Hi2 Hf2).
  - intros path s (i & fm & f & Hi & Hf)%Hfield. exact (Hissued i fm f s Hi Hf).
Qed.

Lemma outputs_have_distinct_symbols_witness : issued fanout_state (slot fanout_slot).
Proof.
  destruct (outputs_have_distinct_symbols Components.components fanout_ast
              fanout_state) as [_ Hissued].
  - vm_compute. reflexivity.
  - apply (Hissued ["rd"; "out"]). vm_compute. reflexivity.
Defined.

(** X13.  When [cs.imports] has returned the symbol of a library, every
    later call for that library, from any instance, returns the same symbol
    and leaves the state as it is; the symbol is not empty and the table
    still has one entry per library. *)
Theorem cs_imports_idempotent (cs : InstanceContext) (lib sym : string)
    (st st' : State) :
  cs_imports cs lib st = Ok (sym, st') →
  (∀ cs', cs_imports cs' lib st' = Ok (sym, st'))
  ∧ Map_get (imports st') lib = Some sym
  ∧ sym ≠ ""
  ∧ (NoDup (imports st).*1 → NoDup (imports st').*1).
Proof.
  intros Hrun.
  assert (Hagain : ∀ cs', cs_imports cs' lib st' = Ok (sym, st')).
  { intros cs'. by apply (cs_imports_once cs cs' lib sym st st'). }
  split; [done|].
  assert (Hentry : Map_get (imports st') lib = Some sym ∧ sym ≠ "").
  { unfold cs_imports, bind at 1, get in Hrun.
    assert (Hdeclare :
      match libs lib with
      | Some _ =>
          let* sym := uid lib in
          modify (λ st, set_imports (Map_set (imports st) lib sym) st) ;;; ret sym
      | None => error (UnknownImport lib (InstanceContext_path st cs))
      end st = Ok (sym, st') →
      Map_get (imports st') lib = Some sym ∧ sym ≠ "").
    { destruct (libs lib); [|done]. intros H.
      unfold bind, uid, modify, ret in H. simplify_eq. simpl.
      split; [apply Map_get_set|apply symbol_nonempty]. }
    destruct (Map_get (imports st) lib) as [sym0|] eqn:Hget; [|by apply Hdeclare].
    case_decide as Hempty; [by apply Hdeclare|].
    unfold ret in Hrun. by simplify_eq. }
  destruct Hentry as [Hget Hne]. do 2 (split; [done|]).
  by apply (cs_imports_once cs cs lib sym st st').
Qed.

Lemma cs_imports_idempotent_witness :
  cs_imports bare_instance "fs" fs_imported = Ok ("fs_1", fs_imported).
Proof.
  assert (Hfirst : cs_imports rd_instance "fs" (TemplateContext_new "main")
                   = Ok ("fs_1", fs_imported)) by (vm_compute; reflexivity).
  exact (proj1 (cs_imports_idempotent rd_instance "fs" "fs_1"
                  (TemplateContext_new "main") fs_imported Hfirst) bare_instance).
Defined.

(** ** Inputs, defaults and booleans *)

(** X14.  When the argument map of the use-site has an entry for the field,
    [input] never looks at the default: it returns a new, unresolved Binding
    of the declared type whose source is that argument, with and without a
    default alike. *)
Theorem input_argument_overrides_default (cs : InstanceContext) (nm type : string)
    (src : Source) (st : State) :
  args cs !! nm = Some src →
  ∃ (b : Binding) (st' : State),
    (∀ defaultValue, cs_input cs nm type defaultValue st = Ok (b, st'))
    ∧ to b = src ∧ binding_type b = type ∧ binding_field b = nm
    ∧ binding_inst b = cs
    ∧ resolved_of st' b = None
    ∧ bindings st' = bindings st ++ [b].
Proof.
  intros Hargs. eexists _, _. split.
  - intros defaultValue. unfold cs_input, bind_to, Binding_new, bind at 1.
    rewrite Hargs. reflexivity.
  - repeat split; try done. unfold resolved_of. simpl. apply lookup_delete_eq.
Qed.

Lemma input_argument_overrides_default_witness :
  ∃ (b : Binding) (st' : State),
    cs_input (binding_inst filename_binding) "filename" "text"
      (Some (VString "default.json")) (TemplateContext_new "main") = Ok (b, st')
    ∧ to b = text "in.json".
Proof.
  destruct (input_argument_overrides_default (binding_inst filename_binding)
              "filename" "text" (text "in.json") (TemplateContext_new "main") eq_refl)
    as (b & st' & Hrun & Hto & _).
  exists b, st'. split; [apply Hrun|exact Hto].
Defined.

(** X15.  An input that the use-site leaves out resolves to its default
    exactly when the declared type is the type of the literal made of the
    default ('text' for a string, else its [typeof]); with any other
    declared type the compilation stops with the type-mismatch diagnostic
    when the Binding is resolved. *)
Theorem default_resolves_iff_typed (cs : InstanceContext) (nm type : string)
    (d : JsValue) (st st1 : State) (b : Binding) :
  args cs !! nm = None →
  cs_input cs nm type (Some d) st = Ok (b, st1) →
  Binding_resolve b st1
  = if decide (default_type d = type)
    then Ok (TLit (mkLiteral (default_type d) d),
             set_resolved (<[bid b := TLit (mkLiteral (default_type d) d)]>
                             (resolved st1)) st1)
    else Exit (TypeMismatch nm type (default_type d) (InstanceContext_path st1 cs)).
Proof.
  intros Hargs Hrun.
  assert (Hb : to b = SrcLit (mkLiteral (default_type d) d)
               ∧ binding_type b = type ∧ binding_field b = nm ∧ binding_inst b = cs
               ∧ resolved_of st1 b = None).
  { unfold cs_input, bind_to, Binding_new, bind at 1 in Hrun. rewrite Hargs in Hrun.
    destruct d; unfold bind, modify, ret in Hrun; simplify_eq;
      (repeat split; try done); unfold resolved_of; simpl; apply lookup_delete_eq. }
  destruct Hb as (Hto & Htype & Hfield & Hinst & Hmemo).
  unfold Binding_resolve. rewrite Hmemo, Hto. simpl.
  rewrite Htype, Hfield, Hinst. by case_decide.
Qed.

Lemma default_resolves_iff_typed_witness :
  Binding_resolve width_binding width_declared
  = Exit (TypeMismatch "width" "integer" "number" "DOMCanvas:canvas in main").
Proof.
  exact (default_resolves_iff_typed dom_canvas "width" "integer" (VNumber 100)
           (TemplateContext_new "main") width_declared width_binding
           eq_refl eq_refl).
Defined.

(** X16.  On the endpoint that a Binding has just resolved to, [asBool]
    returns (the symbol of the slot or the value of the literal) exactly
    when the Binding was declared with the type 'boolean'; for any other
    declared type it stops the compilation, reporting the path of the
    endpoint. *)
Theorem asBool_after_resolve (b : Binding) (st st' : State) (t : Terminal) :
  resolved_of st b = None →
  Binding_resolve b st = Ok (t, st') →
  asBool st' t
  = if decide (binding_type b = "boolean")
    then inl (match t with
              | TSlot s => BoolSlot (slot s)
              | TLit l => BoolValue (lit_value l)
              end)
    else inr (match t with
              | TSlot s => ValueSlot_path st' s
              | TLit l => Literal_path l
              end).
Proof.
  intros Hmemo [[Hsome _]|(_ & _ & Htype & _)]%Binding_resolve_Ok; [congruence|].
  rewrite <- Htype. by destruct t.
Qed.

Lemma asBool_after_resolve_witness :
  asBool alpha_resolved alpha_literal = inl (BoolValue (VBool false)).
Proof.
  exact (asBool_after_resolve alpha_binding (TemplateContext_new "main")
           alpha_resolved alpha_literal eq_refl eq_refl).
Defined.

(** ** Scheduling and assembly *)

(** X17.  The needs that [resolve_acts] collects for an action are the
    endpoints of its wait list, resolved in order, for which [isConst] is
    false, in the order of the wait list; there are at most as many needs as
    dependencies. *)
Theorem needs_are_the_non_constant_endpoints (deps : list Resolvable)
    (st st' : State) (needs : list ValueSlot) :
  collect_needs deps st = Ok (needs, st') →
  (∃ ts, map_of deps resolve st = Ok (ts, st')
         ∧ TSlot <$> needs = filter (λ t, isConst t = false) ts)
  ∧ length needs ≤ length deps.
Proof.
  intros H. split; [by apply collect_needs_filter|by eapply collect_needs_length].
Qed.

Lemma needs_are_the_non_constant_endpoints_witness :
  length join_needs ≤ length (wait join_action).
Proof.
  apply (needs_are_the_non_constant_endpoints (wait join_action) join_state
           (state_of (collect_needs (wait join_action) join_state)) join_needs).
  vm_compute. reflexivity.
Defined.

(** X18.  An action whose dependencies are all constants (literals, or
    Bindings whose source is a literal of the declared type, each unresolved
    or resolved to that literal) is scheduled as a root, in any state of the
    template and whatever the other Bindings have resolved to: it is
    appended to the root list, and no line is written and no queue is
    changed. *)
Theorem constant_action_is_root (act : Action) (st : State) :
  Forall (constant_dep st) (wait act) →
  ∃ st', resolve_act act st = Ok (tt, st')
         ∧ roots st' = roots st ++ [act]
         ∧ lines st' = lines st
         ∧ queued st' = queued st.
Proof.
  intros Hdeps.
  destruct (collect_needs_constant (wait act) st) as (st1 & Hneeds).
  { eapply Forall_impl; [exact Hdeps|]. apply constant_dep_resolves_to_literal. }
  rewrite (resolve_act_needs _ _ _ _ Hneeds).
  apply collect_needs_emits, emits_nil_inv in Hneeds as (Hl & Hr & Hq & _).
  eexists. split; [reflexivity|]. simpl. by rewrite Hl, Hr, Hq.
Qed.

Lemma constant_action_is_root_witness :
  ∃ st', resolve_act (nth_action fanout_state 0) fanout_scheduled = Ok (tt, st')
         ∧ roots st' = roots fanout_scheduled ++ [nth_action fanout_state 0]
         ∧ resolved_of fanout_scheduled log_binding = Some (TSlot fanout_slot).
Proof.
  destruct (constant_action_is_root (nth_action fanout_state 0) fanout_scheduled)
    as (st' & Hrun & Hroots & _).
  - apply Forall_singleton. exists (mkLiteral "text" (VString "in.txt")).
    split; [reflexivity|]. split; [reflexivity|]. right. vm_compute. reflexivity.
  - exists st'. split; [exact Hrun|]. split; [exact Hroots|].
    vm_compute. reflexivity.
Defined.

(** X19.  [emit_code] only appends lines and memoizes Bindings: the lines
    it appends start with the lines of the import table and an empty line,
    every Binding resolved before stays resolved to the same endpoint, and
    everything else in the state (instances, fields, actions, roots, queues,
    counters, import table) is as before. *)
Theorem emit_code_only_appends (fuel : nat) (st st' : State) :
  emit_code fuel st = Ok (tt, st') →
  (∃ ls, lines st' = lines st ++ (import_line <$> imports st) ++ [""] ++ ls)
  ∧ resolved st ⊆ resolved st'
  ∧ st' = set_lines (lines st') (set_resolved (resolved st') st).
Proof.
  intros [ls [Hl Hr Hf]]%emit_code_emits. split; [by exists ls|done].
Qed.

Lemma emit_code_only_appends_witness :
  main_emitted
  = set_lines (lines main_emitted) (set_resolved (resolved main_emitted) main_scheduled).
Proof.
  apply (emit_code_only_appends 8 main_scheduled main_emitted).
  vm_compute. reflexivity.
Defined.

(** X20.  [resolve_acts] only adds to the state: the lines, the roots and
    the queue of every slot keep what they held as a prefix, the memoized
    endpoints and the counters of [uid] only grow, and the name of the
    template, the instances, their fields, the import table, the registered
    actions and bindings and the allocator are as before. *)
Theorem resolve_acts_only_extends (st st' : State) :
  resolve_acts st = Ok (tt, st') → scheduling_extends st st'.
Proof. apply resolve_acts_extends. Qed.

Lemma resolve_acts_only_extends_witness :
  scheduling_extends fanout_state fanout_scheduled.
Proof.
  apply (resolve_acts_only_extends fanout_state fanout_scheduled).
  vm_compute. reflexivity.
Defined.

(** X21.  In a run of [generate] that returns, whatever the registry and
    the graph, no queue of any slot ever holds the actor function of a join:
    the declaration of such a function is only emitted as a root, never from
    inside the callback of another action. *)
Theorem join_actors_are_never_queued (fuel : nat)
    (components : string → option Defn) (ast : list Use) (st : State) :
  generate fuel components ast = Ok (tt, st) → queues_actor_free st.
Proof.
  intros (st0 & st1 & Hexp & Hsched & Hemit)%generate_Ok.
  apply expansion_constructed in Hexp.
  apply (resolve_acts_actor_free _ _ Hexp) in Hsched.
  apply emit_code_emits in Hemit as [ls Hemit].
  by eapply emits_queues_actor_free.
Qed.

Lemma join_actors_are_never_queued_witness : queues_actor_free main_emitted.
Proof.
  apply (join_actors_are_never_queued 8 Components.components Components.ast).
  vm_compute. reflexivity.
Defined.

(** ** The version without joins *)

(** X22.  The scheduler of the version with joins extends the scheduler of
    build.js.  Whenever [resolve_acts] of build.js ends without its
    multiple-dependencies diagnostic, [resolve_acts] of the later version
    ends the same way and in the same state, with one exception: where
    build.js raises a TypeError because a path goes on past an output, the
    later version may stop with the diagnostic of an object without
    fields. *)
Theorem joins_extend_build_js (st : State) (o : Outcome (unit * State)) :
  BuildJs.resolve_acts st = inl o →
  resolve_acts st = o
  ∨ (o = Throw TypeError ∧ ∃ path, resolve_acts st = Exit (NoFields path)).
Proof.
  unfold BuildJs.resolve_acts, resolve_acts, bind, get.
  intros [<-|(-> & path & ->)]%BuildJs_resolve_acts_loop; [by left|right; eauto].
Qed.

Lemma joins_extend_build_js_witness :
  resolve_acts fanout_state = Ok (tt, fanout_scheduled).
Proof.
  destruct (joins_extend_build_js fanout_state (Ok (tt, fanout_scheduled)))
    as [Hsame|[Hthrow _]].
  - vm_compute. reflexivity.
  - exact Hsame.
  - discriminate Hthrow.
Defined.

(** On a path that goes on past an output the two versions differ: build.js
    raises the TypeError, the later version stops with its diagnostic. *)
Example build_js_path_past_output :
  BuildJs.resolve_acts past_output_state = inl (Throw TypeError)
  ∧ resolve_acts past_output_state = Exit (NoFields ["rd"; "out"; "length"]).
Proof. split; vm_compute; reflexivity. Qed.

(** X23.  On a template in which no action waits for more than one
    dependency, [resolve_acts] of build.js never raises its
    multiple-dependencies diagnostic, and it ends as [resolve_acts] of the
    later version does, but for the TypeError it raises where the later
    version reports an object without fields. *)
Theorem build_js_schedules_single_dependencies (st : State) :
  Forall (λ act, length (wait act) ≤ 1) (acts st) →
  ∃ o, BuildJs.resolve_acts st = inl o
       ∧ (resolve_acts st = o
          ∨ (o = Throw TypeError ∧ ∃ path, resolve_acts st = Exit (NoFields path))).
Proof.
  intros Hacts.
  destruct (BuildJs_resolve_acts_loop_short (acts st) st Hacts) as [o Ho].
  exists o. split; [exact Ho|]. unfold resolve_acts, bind, get.
  apply BuildJs_resolve_acts_loop in Ho as [<-|(-> & path & ->)];
    [by left|right; eauto].
Qed.

Lemma build_js_schedules_single_dependencies_witness :
  ∃ o, BuildJs.resolve_acts past_output_state = inl o
       ∧ (resolve_acts past_output_state = o
          ∨ (o = Throw TypeError
             ∧ ∃ path, resolve_acts past_output_state = Exit (NoFields path))).
Proof.
  apply (build_js_schedules_single_dependencies past_output_state).
  vm_compute. repeat constructor.
Defined.

(** X24.  [resolve_acts] of build.js raises its multiple-dependencies
    diagnostic only for a registered action that waits for at least two
    dependencies. *)
Theorem build_js_todo_needs_two (st : State) (act : Action) :
  BuildJs.resolve_acts st = inr (BuildJs.MultipleDependencies act) →
  act ∈ acts st ∧ 2 ≤ length (wait act).
Proof.
  unfold BuildJs.resolve_acts. generalize (acts st) as l. intros l. revert st.
  induction l as [|a l IH]; intros st; simpl; [done|].
  destruct (BuildJs.resolve_act a st) as [o|todo] eqn:Hact.
  - destruct o as [[[] st1]| | |]; try done.
    intros [Hin Hlen]%IH. split; [by right|done].
  - intros [= ->]. unfold BuildJs.resolve_act in Hact.
    destruct (BuildJs.collect_needs (wait a) st) as [[needs st1]| | |] eqn:Hneeds;
      try done.
    apply BuildJs_collect_needs_length in Hneeds.
    destruct needs as [|n1 [|n2 needs]]; try done. injection Hact as ->.
    split; [by left|]. simpl in Hneeds. lia.
Qed.

Lemma build_js_todo_needs_two_witness :
  nth_action join_state 2 ∈ acts join_state
  ∧ 2 ≤ length (wait (nth_action join_state 2)).
Proof.
  apply (build_js_todo_needs_two join_state (nth_action join_state 2)).
  vm_compute. reflexivity.
Defined.

(** ** The output file *)

(** X25.  The text that [write] puts in the file after [emit_code] has
    returned is the lines of the template, each followed by a newline: the
    file is not empty and every line of it, the last one too, is
    terminated. *)
Theorem written_lines_are_terminated (fuel : nat) (st st' : State) :
  emit_code fuel st = Ok (tt, st') →
  lines st' ≠ []
  ∧ written st' = foldr (λ line rest, line +:+ newline +:+ rest) "" (lines st').
Proof.
  intros [ls [Hl _ _]]%emit_code_emits.
  assert (Hne : lines st' ≠ []).
  { rewrite Hl. intros Hnil. apply app_eq_nil in Hnil as [_ Hnil].
    apply app_eq_nil in Hnil as [_ Hnil]. done. }
  split; [done|]. unfold written. by apply join_terminated.
Qed.

Lemma written_lines_are_terminated_witness :
  written main_emitted
  = foldr (λ line rest, line +:+ newline +:+ rest) "" (lines main_emitted).
Proof.
  apply (written_lines_are_terminated 8 main_scheduled main_emitted).
  vm_compute. reflexivity.
Defined.
